(** * Text-to-speech reader: segmentation, playback controller, paging

    A shallow embedding of the reader's core:
    - [src/utils/textUtils.ts]          : [splitTextIntoChunks] (module [Segmenter]);
    - [src/services/webSpeechService.ts]: the speech service (module [WebSpeech]);
    - the [Reader] component (latest revision, with the progress simulation and
      the page state; the earlier [src/components/Reader.tsx] has the same
      handlers without them) (module [Reader]), with its scroll handlers
      (module [Scrolling]);
    - the revision of the speech service that cuts long texts into chained
      utterances (module [LongText]);
    - [AudioPlayer.decodeAudioData] (module [Pcm]) and [generateSpeech]
      (module [Gemini]) of the Gemini revision;
    - the progress store of the [App] component (module [App]).

    JavaScript strings are sequences of UTF-16 code units, modelled as
    [list N]; integers held in JS numbers are [Z]; the fractional quantities
    (playback rate, progress percentage) are exact rationals [Q], so rounding
    of IEEE doubles is not part of the model. The index cell of the reader
    holds an integer: the one handler that can store [Infinity] or [NaN] in
    it (the settings form with a changed group size of 0) is partial, and an
    event without a result is told apart by [Reader.defined]. *)

From Stdlib Require Import String Ascii.
From Stdlib Require Import List ZArith NArith Bool Lia.
From Stdlib Require Import QArith Qminmax Lqa.
Import ListNotations.

Set Implicit Arguments.

(** ** JavaScript strings *)

Module JS.

Definition jsstring := list N.

Definition of_string (s : string) : jsstring :=
  map N_of_ascii (list_ascii_of_string s).

Definition LF : N := 10.
Definition SPACE : N := 32.
Definition BANG : N := 33.
Definition DOT : N := 46.
Definition QMARK : N := 63.

(** [String.prototype.trim] strips WhiteSpace and LineTerminator code units:
    TAB, VT, FF, SP, NBSP, ZWNBSP, the Unicode space separators, and
    LF, CR, LS, PS. *)
Definition isWhiteSpace (c : N) : bool :=
  ((9 <=? c) && (c <=? 13) || (c =? 32) || (c =? 160) || (c =? 5760)
   || (8192 <=? c) && (c <=? 8202) || (c =? 8232) || (c =? 8233)
   || (c =? 8239) || (c =? 8287) || (c =? 12288) || (c =? 65279))%N.

Fixpoint trimStart (s : jsstring) : jsstring :=
  match s with
  | [] => []
  | c :: rest => if isWhiteSpace c then trimStart rest else s
  end.

Definition trimEnd (s : jsstring) : jsstring := rev (trimStart (rev s)).

Definition trim (s : jsstring) : jsstring := trimEnd (trimStart s).

(** [sentences[sentences.length - 1] += suffix] on a non-empty array. *)
Definition appendToLast (l : list jsstring) (suffix : jsstring) : list jsstring :=
  removelast l ++ [last l [] ++ suffix].

Definition optIs (o : option N) (c : N) : bool :=
  match o with
  | Some d => (d =? c)%N
  | None => false
  end.

(** Short strings that are only compared and searched (voice URIs, language
    tags, error names) are held as [string], in UTF-8. *)

(** [s.includes(sub)] *)
Definition includes (s sub : string) : bool :=
  match String.index 0 sub s with
  | Some _ => true
  | None => false
  end.

(** [s.toLowerCase()]. The letters A-Z become a-z; U+0130 becomes [i]
    followed by U+0307, and U+212A becomes [k]: these two are the only
    characters outside ASCII whose lower case holds an ASCII character. The
    other characters outside ASCII are kept as they are: their lower case
    has no ASCII character, so the ASCII characters of the result, and which
    of them are next to each other, are those of the JavaScript result. *)
Fixpoint toLowerCase (s : string) : string :=
  match s with
  | EmptyString => EmptyString
  | String c rest =>
      let n := N_of_ascii c in
      if ((65 <=? n) && (n <=? 90))%N then
        String (ascii_of_N (n + 32)) (toLowerCase rest)
      else
        match rest with
        | String c1 rest1 =>
            if ((n =? 196) && (N_of_ascii c1 =? 176))%N then
              String (ascii_of_N 105)
                (String (ascii_of_N 204) (String (ascii_of_N 135) (toLowerCase rest1)))
            else
              match rest1 with
              | String c2 rest2 =>
                  if ((n =? 226) && (N_of_ascii c1 =? 132) && (N_of_ascii c2 =? 170))%N
                  then String (ascii_of_N 107) (toLowerCase rest2)
                  else String c (toLowerCase rest)
              | EmptyString => String c (toLowerCase rest)
              end
        | EmptyString => String c EmptyString
        end
  end.

End JS.

Import JS.

(** ** [src/utils/textUtils.ts] *)

Module Segmenter.

Record Chunk := mkChunk { id : Z; text : jsstring }.

(** The delimiter test of the scanning loop, at position [i] holding [char]. *)
Definition isDelimiterAt (txt : jsstring) (i : nat) (char : N) : bool :=
  if ((char =? BANG) || (char =? QMARK) || (char =? LF))%N then true
  else if (char =? DOT)%N then
    let nextChar := if (i <? length txt - 1)%nat then nth_error txt (i + 1) else None in
    let prevChar := if (0 <? i)%nat then nth_error txt (i - 1) else None in
    negb (optIs nextChar DOT) && negb (optIs prevChar DOT)
  else false.

(** One iteration of [for (let i = 0; i < text.length; i++)]; the loop state
    is [(sentences, buffer)]. *)
Definition scanStep (txt : jsstring) (st : list jsstring * jsstring) (i : nat)
  : list jsstring * jsstring :=
  let '(sentences, buffer) := st in
  match nth_error txt i with
  | None => st
  | Some char =>
      let buffer := buffer ++ [char] in
      if isDelimiterAt txt i char then
        if (3 <=? length (trim buffer))%nat
        then (sentences ++ [trim buffer], [])
        else (sentences, buffer)
      else (sentences, buffer)
  end.

Definition scan (txt : jsstring) : list jsstring * jsstring :=
  fold_left (scanStep txt) (seq 0 (length txt)) ([], []).

(** Leftover buffer after the loop. *)
Definition flushRemainder (st : list jsstring * jsstring) : list jsstring :=
  let '(sentences, buffer) := st in
  if (0 <? length (trim buffer))%nat then
    if ((length (trim buffer) <? 3) && (0 <? length sentences))%nat
    then appendToLast sentences (SPACE :: trim buffer)
    else sentences ++ [trim buffer]
  else sentences.

Definition fallback (txt : jsstring) (sentences : list jsstring) : list jsstring :=
  if ((length sentences =? 0) && (0 <? length (trim txt)))%nat
  then sentences ++ [trim txt]
  else sentences.

Definition splitSentences (txt : jsstring) : list jsstring :=
  fallback txt (flushRemainder (scan txt)).

(** State of the grouping loop:
    [chunks], [currentChunkText], [sentenceCount], [chunkId]. *)
Record GroupState := mkGroup {
  chunks : list Chunk;
  currentChunkText : jsstring;
  sentenceCount : Z;
  chunkId : Z
}.

Definition groupStep (sentencesPerChunk : Z) (g : GroupState) (sentence : jsstring)
  : GroupState :=
  let cur := currentChunkText g
             ++ (if (0 <? length (currentChunkText g))%nat then [SPACE] else [])
             ++ sentence in
  let cnt := (sentenceCount g + 1)%Z in
  if (cnt >=? sentencesPerChunk)%Z
  then mkGroup (chunks g ++ [mkChunk (chunkId g) cur]) [] 0 (chunkId g + 1)
  else mkGroup (chunks g) cur cnt (chunkId g).

Definition groupFinish (g : GroupState) : list Chunk :=
  if (0 <? length (currentChunkText g))%nat
  then chunks g ++ [mkChunk (chunkId g) (currentChunkText g)]
  else chunks g.

Definition groupSentences (sentences : list jsstring) (sentencesPerChunk : Z)
  : list Chunk :=
  groupFinish (fold_left (groupStep sentencesPerChunk) sentences (mkGroup [] [] 0 0)).

Definition splitTextIntoChunks (txt : jsstring) (sentencesPerChunk : Z) : list Chunk :=
  match txt with
  | [] => []
  | _ => groupSentences (splitSentences txt) sentencesPerChunk
  end.

End Segmenter.

Import Segmenter.

Definition scenarioText : jsstring := of_string "Hi. OK. Go now! Next." ++ [LF].

(** Vocabulary of the segmenter's specification. *)

(** Sentences of one chunk joined by single spaces. *)
Fixpoint joinSpace (l : list jsstring) : jsstring :=
  match l with
  | [] => []
  | s :: rest =>
      match rest with
      | [] => s
      | _ => s ++ [SPACE] ++ joinSpace rest
      end
  end.

(** No position of [txt] holds a delimiter: no '!', '?' or line feed, and
    every '.' has another '.' right after or right before it. *)
Definition delimiterFree (txt : jsstring) : Prop :=
  forall i c, nth_error txt i = Some c ->
    c <> BANG /\ c <> QMARK /\ c <> LF /\
    (c = DOT ->
       nth_error txt (i + 1) = Some DOT \/
       ((0 < i)%nat /\ nth_error txt (i - 1) = Some DOT)).

Definition nonEmpty (s : jsstring) : Prop := s <> [].

(** Chunk ids are 0, 1, ..., N-1 in order. *)
Definition idsContiguous (cs : list Chunk) : Prop :=
  map id cs = map Z.of_nat (seq 0 (length cs)).

(** Loop invariant behind the id and non-emptiness claims; it holds for every
    value of [sentencesPerChunk]. *)
Definition idInv (g : GroupState) : Prop :=
  idsContiguous (chunks g) /\
  chunkId g = Z.of_nat (length (chunks g)) /\
  Forall (fun c => nonEmpty (text c)) (chunks g).

(** Loop invariant behind the grouping claim: [groups] are the full groups
    already emitted, [pending] the sentences of the chunk being built. *)
Definition groupInv (k : nat) (g : GroupState)
  (groups : list (list jsstring)) (pending : list jsstring) : Prop :=
  map text (chunks g) = map joinSpace groups /\
  Forall (fun grp => length grp = k) groups /\
  currentChunkText g = joinSpace pending /\
  sentenceCount g = Z.of_nat (length pending) /\
  (length pending < k)%nat /\
  Forall nonEmpty pending.


(** ** [src/services/webSpeechService.ts]

    The service as that file has it: one utterance per call. The revisions
    that cut a text of 1000 characters or more into several chained
    utterances declare the same seven parameters and use the same two
    callbacks, [onEnd] after the last utterance and [onError] on a failure
    that is not a cancellation. *)

Module WebSpeech.

(** A [SpeechSynthesisVoice]. [nameKey] is the place of [name] in the
    collation of the browser's locale: [a.name.localeCompare(b.name)] is
    negative, zero or positive as [nameKey a] is below, equal to or above
    [nameKey b]. *)
Record Voice := mkVoice {
  voiceURI : string;
  lang : string;
  name : string;
  nameKey : N
}.

Section Service.

(** The closures a caller hands to the service. *)
Variable Callback : Type.

(** A [SpeechSynthesisUtterance] as [speakWebSpeech] fills it in.
    [utterance.onend = () => { onEnd(); }] calls the fifth argument;
    [utterance.onerror] calls the sixth one unless the error is a
    cancellation (see [onerror]). *)
Record Utterance := mkUtterance {
  utext : jsstring;
  uvoice : option Voice;
  urate : Q;
  uvolume : Q;
  uOnEnd : Callback;
  uOnError : Callback
}.

(** [window.speechSynthesis]: the browser's queue of utterances. *)
Record SpeechSynthesis := mkSynth {
  queue : list Utterance;
  voices : list Voice;
  paused : bool
}.

Definition cancel (y : SpeechSynthesis) : SpeechSynthesis :=
  mkSynth [] (voices y) (paused y).

Definition speak (u : Utterance) (y : SpeechSynthesis) : SpeechSynthesis :=
  mkSynth (queue y ++ [u]) (voices y) (paused y).

Definition pause (y : SpeechSynthesis) : SpeechSynthesis :=
  mkSynth (queue y) (voices y) true.

Definition resume (y : SpeechSynthesis) : SpeechSynthesis :=
  mkSynth (queue y) (voices y) false.

(** [voices.find(v => v.voiceURI === voiceURI)
     || voices.find(v => v.lang.startsWith("vi")) || voices[0]] *)
Definition selectVoice (uri : string) (vs : list Voice) : option Voice :=
  match find (fun v => String.eqb (voiceURI v) uri) vs with
  | Some v => Some v
  | None =>
      match find (fun v => String.prefix "vi" (lang v)) vs with
      | Some v => Some v
      | None => nth_error vs 0
      end
  end.

(** [speakWebSpeech] declares seven parameters; a call may pass more
    arguments ([extra]), which an arrow function cannot reach. *)
Definition speakWebSpeech (text : jsstring) (uri : string) (rate : Q) (volume : Z)
  (onEnd onError : Callback) (shouldCancel : bool) (extra : list Callback)
  (y : SpeechSynthesis) : SpeechSynthesis * Utterance :=
  let y := if shouldCancel then cancel y else y in
  let utterance :=
    mkUtterance text (selectVoice uri (voices y)) rate (inject_Z volume / 100)
                onEnd onError in
  (speak utterance y, utterance).

Definition stopWebSpeech (y : SpeechSynthesis) : SpeechSynthesis := cancel y.
Definition pauseWebSpeech (y : SpeechSynthesis) : SpeechSynthesis := pause y.
Definition resumeWebSpeech (y : SpeechSynthesis) : SpeechSynthesis := resume y.

(** What the browser's [end] event on [u] calls. *)
Definition onend (u : Utterance) : Callback := uOnEnd u.

(** What the browser's [error] event on [u] calls: nothing for the errors
    caused by a manual cancellation. *)
Definition onerror (u : Utterance) (error : string) : option Callback :=
  if (String.eqb error "canceled" || String.eqb error "interrupted")%bool
  then None
  else Some (uOnError u).

End Service.

End WebSpeech.

(** ** The [Reader] component *)

Module Reader.

Inductive ReaderState := IDLE | LOADING | PLAYING | PAUSED.

Inductive ViewMode := continuous | paginated.

Record ReaderSettings := mkSettings {
  playbackRate : Q;
  volume : Z;
  webSpeechVoiceURI : string;
  sentencesPerChunk : Z;
  viewMode : ViewMode
}.

(** The closures [playChunk] passes to [speakWebSpeech]. The end callback
    closes over [chunks], [settings] (through [playChunk] itself) and [index]. *)
Inductive Callback :=
| OnEnd (cs : list Chunk) (st : ReaderSettings) (index : Z)
| OnError
| OnProgress.

(** Calls that leave the component, and progress values handed to the
    display, in program order. *)
Inductive Action :=
| AStop
| APause
| AResume
| ASpeak (text : jsstring) (uri : string) (rate : Q) (vol : Z) (shouldCancel : bool)
| ASave (chunkIndex : Z) (st : ReaderSettings)
| AProgress (percentage : Q).

(** One mounted [Reader]: the [file.content] prop, the [useState] cells, the
    [useRef] cells, the browser's speech queue, and the trace of actions.
    [progressInterval] holds the [step] captured by the running timer. *)
Record State := mkState {
  fileContent : jsstring;
  chunks : list Chunk;
  currentChunkIndex : Z;
  readerState : ReaderState;
  settings : ReaderSettings;
  errorMsg : option string;
  chunkProgress : Q;
  visibleRange : Z * Z;
  currentPage : Z;
  isSettingUpdate : bool;
  progressInterval : option Q;
  synth : WebSpeech.SpeechSynthesis Callback;
  trace : list Action
}.

Definition setChunks v s :=
  mkState (fileContent s) v (currentChunkIndex s) (readerState s) (settings s)
    (errorMsg s) (chunkProgress s) (visibleRange s) (currentPage s)
    (isSettingUpdate s) (progressInterval s) (synth s) (trace s).
Definition setCurrentChunkIndex v s :=
  mkState (fileContent s) (chunks s) v (readerState s) (settings s)
    (errorMsg s) (chunkProgress s) (visibleRange s) (currentPage s)
    (isSettingUpdate s) (progressInterval s) (synth s) (trace s).
Definition setReaderState v s :=
  mkState (fileContent s) (chunks s) (currentChunkIndex s) v (settings s)
    (errorMsg s) (chunkProgress s) (visibleRange s) (currentPage s)
    (isSettingUpdate s) (progressInterval s) (synth s) (trace s).
Definition setSettings v s :=
  mkState (fileContent s) (chunks s) (currentChunkIndex s) (readerState s) v
    (errorMsg s) (chunkProgress s) (visibleRange s) (currentPage s)
    (isSettingUpdate s) (progressInterval s) (synth s) (trace s).
Definition setErrorMsg v s :=
  mkState (fileContent s) (chunks s) (currentChunkIndex s) (readerState s) (settings s)
    v (chunkProgress s) (visibleRange s) (currentPage s)
    (isSettingUpdate s) (progressInterval s) (synth s) (trace s).
Definition setVisibleRange v s :=
  mkState (fileContent s) (chunks s) (currentChunkIndex s) (readerState s) (settings s)
    (errorMsg s) (chunkProgress s) v (currentPage s)
    (isSettingUpdate s) (progressInterval s) (synth s) (trace s).
Definition setCurrentPage v s :=
  mkState (fileContent s) (chunks s) (currentChunkIndex s) (readerState s) (settings s)
    (errorMsg s) (chunkProgress s) (visibleRange s) v
    (isSettingUpdate s) (progressInterval s) (synth s) (trace s).
Definition setIsSettingUpdate v s :=
  mkState (fileContent s) (chunks s) (currentChunkIndex s) (readerState s) (settings s)
    (errorMsg s) (chunkProgress s) (visibleRange s) (currentPage s)
    v (progressInterval s) (synth s) (trace s).
Definition setProgressInterval v s :=
  mkState (fileContent s) (chunks s) (currentChunkIndex s) (readerState s) (settings s)
    (errorMsg s) (chunkProgress s) (visibleRange s) (currentPage s)
    (isSettingUpdate s) v (synth s) (trace s).
Definition setSynth v s :=
  mkState (fileContent s) (chunks s) (currentChunkIndex s) (readerState s) (settings s)
    (errorMsg s) (chunkProgress s) (visibleRange s) (currentPage s)
    (isSettingUpdate s) (progressInterval s) v (trace s).
Definition emit (a : Action) s :=
  mkState (fileContent s) (chunks s) (currentChunkIndex s) (readerState s) (settings s)
    (errorMsg s) (chunkProgress s) (visibleRange s) (currentPage s)
    (isSettingUpdate s) (progressInterval s) (synth s) (trace s ++ [a]).

(** [setChunkProgress(v)]: the value reaches the display. *)
Definition setChunkProgress (v : Q) s :=
  emit (AProgress v)
    (mkState (fileContent s) (chunks s) (currentChunkIndex s) (readerState s) (settings s)
       (errorMsg s) v (visibleRange s) (currentPage s)
       (isSettingUpdate s) (progressInterval s) (synth s) (trace s)).

Definition len (cs : list Chunk) : Z := Z.of_nat (length cs).

(** [chunks[index].text] for an index already checked to be in range. *)
Definition chunkText (cs : list Chunk) (index : Z) : jsstring :=
  match nth_error cs (Z.to_nat index) with
  | Some c => text c
  | None => []
  end.

(** Calls into the speech service. *)
Definition stopWebSpeech s := emit AStop (setSynth (WebSpeech.stopWebSpeech (synth s)) s).
Definition pauseWebSpeech s := emit APause (setSynth (WebSpeech.pauseWebSpeech (synth s)) s).
Definition resumeWebSpeech s := emit AResume (setSynth (WebSpeech.resumeWebSpeech (synth s)) s).

Definition onSaveProgress (chunkIndex : Z) (st : ReaderSettings) s :=
  emit (ASave chunkIndex st) s.

Definition clearProgressInterval s :=
  match progressInterval s with
  | Some _ => setProgressInterval None s
  | None => s
  end.

(** The simulation step computed by [playChunk]:
    [estimatedDurationMs = textLength * 70 / playbackRate],
    [step = updateInterval / estimatedDurationMs * 100] with
    [updateInterval = 100]. *)
Definition estimatedDurationMs (textLength : nat) (rate : Q) : Q :=
  (inject_Z (Z.of_nat textLength) * 70) / rate.

Definition updateInterval : Q := 100.

Definition progressStep (textLength : nat) (rate : Q) : Q :=
  (updateInterval / estimatedDurationMs textLength rate) * 100.

(** [playChunk(index, autoPlay)] of the render that holds [cs] and [st]. *)
Definition playChunk (cs : list Chunk) (st : ReaderSettings)
  (index : Z) (autoPlay : bool) (s : State) : State :=
  if ((index <? 0) || (index >=? len cs))%Z then s else
  let s := if negb autoPlay then stopWebSpeech s else s in
  let s := clearProgressInterval s in
  let s := setErrorMsg None s in
  let s := setReaderState PLAYING s in
  let s := setChunkProgress 0 s in
  let textLength := length (chunkText cs index) in
  let step := progressStep textLength (playbackRate st) in
  let s := setProgressInterval (Some step) s in
  let '(y, _) :=
    WebSpeech.speakWebSpeech (chunkText cs index) (webSpeechVoiceURI st)
      (playbackRate st) (volume st) (OnEnd cs st index) OnError
      (negb autoPlay) [OnProgress] (synth s) in
  emit (ASpeak (chunkText cs index) (webSpeechVoiceURI st) (playbackRate st)
          (volume st) (negb autoPlay))
       (setSynth y s).

(** The timer callback:
    [setChunkProgress(prev => prev >= 95 ? prev : Math.min(95, prev + step))]. *)
Definition tickValue (step prev : Q) : Q :=
  if Qle_bool 95 prev then prev else Qmin 95 (prev + step).

Definition tick (s : State) : State :=
  match progressInterval s with
  | Some step => setChunkProgress (tickValue step (chunkProgress s)) s
  | None => s
  end.

(** The fixed beginning of the message the error closure stores. *)
Definition errorPrefix : string := "Lỗi trình duyệt: ".

(** Bodies of the three closures. The error closure stores the prefix
    followed by [err.error], or by "Unknown Error" when that is empty. In the
    end closure the updater passed to [setCurrentChunkIndex] receives the
    latest index. *)
Definition invoke (cb : Callback) (error : string) (percentage : Q) (s : State) : State :=
  match cb with
  | OnEnd cs st index =>
      let s := clearProgressInterval s in
      let s := setChunkProgress 100 s in
      if (index <? len cs - 1)%Z then
        let next := (currentChunkIndex s + 1)%Z in
        let s := playChunk cs st next true s in
        setCurrentChunkIndex next s
      else setReaderState IDLE s
  | OnError =>
      let s := clearProgressInterval s in
      let errorMsg :=
        if String.eqb error EmptyString then "Unknown Error"%string else error in
      let s := setErrorMsg (Some (String.append errorPrefix errorMsg)) s in
      setReaderState IDLE s
  | OnProgress => setChunkProgress percentage s
  end.

(** *** Event handlers. Each reads the state cells of the render [r] it was
    created in and queues its updates. *)

Definition handlePlayPause (r : State) : State :=
  match readerState r with
  | PLAYING => setReaderState PAUSED (pauseWebSpeech r)
  | PAUSED => setReaderState PLAYING (resumeWebSpeech r)
  | _ => playChunk (chunks r) (settings r) (currentChunkIndex r) false r
  end.

Definition handleStop (s : State) : State :=
  let s := stopWebSpeech s in
  let s := clearProgressInterval s in
  let s := setReaderState IDLE s in
  setChunkProgress 0 s.

Definition handleNavigate (offset : Z) (r : State) : State :=
  let s := handleStop r in
  let next := Z.max 0 (Z.min (len (chunks r) - 1) (currentChunkIndex r + offset)) in
  let s := setCurrentChunkIndex next s in
  playChunk (chunks r) (settings r) next false s.

(** [target] is [parseInt(jumpTarget)], [None] standing for [NaN]. *)
Definition handleJump (target : option Z) (r : State) : State :=
  match target with
  | Some t =>
      if ((0 <? t) && (t <=? len (chunks r)))%Z then
        let s := handleStop r in
        let s := setCurrentChunkIndex (t - 1) s in
        playChunk (chunks r) (settings r) (t - 1) false s
      else r
  | None => r
  end.

(** [onClick] of a rendered chunk. *)
Definition handleChunkClick (chunkId : Z) (r : State) : State :=
  let s := handleStop r in
  let s := setCurrentChunkIndex chunkId s in
  playChunk (chunks r) (settings r) chunkId false s.

Definition changeChunkSize (delta : Z) (r : State) : State :=
  let oldSize := sentencesPerChunk (settings r) in
  let newSize := Z.max 1 (Z.min 200 (oldSize + delta)) in
  if (newSize =? oldSize)%Z then r else
  let currentSentenceIndex := (currentChunkIndex r * oldSize)%Z in
  let newIndex := (currentSentenceIndex / newSize)%Z in
  let st := settings r in
  let s := setSettings (mkSettings (playbackRate st) (volume st) (webSpeechVoiceURI st)
                          newSize (viewMode st)) r in
  setCurrentChunkIndex newIndex s.

(** [Math.floor(a / b)] on integers. For [b = 0] the JavaScript value is
    [Infinity], [-Infinity] or [NaN], none of them an integer: [None]. *)
Definition floorDiv (a b : Z) : option Z :=
  if (b =? 0)%Z then None else Some (a / b)%Z.

(** [handleSaveSettings] with the form content [tempSettings]. The form
    stores the size 0 for an emptied field, and the handler divides by the
    new size without a test: the result is [None] when the new index is not
    an integer, which the index cell of [State] cannot hold. *)
Definition handleSaveSettings (tempSettings : ReaderSettings) (r : State)
  : option State :=
  if negb (sentencesPerChunk tempSettings =? sentencesPerChunk (settings r))%Z then
    let oldSize := sentencesPerChunk (settings r) in
    let newSize := sentencesPerChunk tempSettings in
    let currentSentenceIndex := (currentChunkIndex r * oldSize)%Z in
    match floorDiv currentSentenceIndex newSize with
    | Some newIndex => Some (setSettings tempSettings (setCurrentChunkIndex newIndex r))
    | None => None
    end
  else Some (setSettings tempSettings r).

Definition ITEMS_PER_PAGE : Z := 50.

(** [Math.ceil(chunks.length / ITEMS_PER_PAGE)] *)
Definition totalPages (r : State) : Z := (- ((- len (chunks r)) / ITEMS_PER_PAGE))%Z.

Definition handlePageChange (newPage : Z) (r : State) : State :=
  if ((newPage >=? 0) && (newPage <? totalPages r))%Z
  then setCurrentPage newPage r
  else r.

(** *** Effects. After a render of [r], the effects whose dependencies differ
    from the previous render [prev] run in the order of their declaration;
    [prev = None] is the first render, the only one after which the
    voice-loading effect runs (it depends on a callback that never changes). State cells are read from [r],
    refs from the state being threaded. *)

Definition jsstring_eqb (a b : jsstring) : bool :=
  if list_eq_dec N.eq_dec a b then true else false.

Definition changed (A : Type) (eqb : A -> A -> bool) (f : State -> A)
  (prev : option State) (r : State) : bool :=
  match prev with
  | None => true
  | Some p => negb (eqb (f p) (f r))
  end.

Definition pageEffect (r s : State) : State :=
  setCurrentPage (currentChunkIndex r / ITEMS_PER_PAGE)%Z s.

(** [v.lang.toLowerCase().includes("vi")] *)
Definition isVi (v : WebSpeech.Voice) : bool :=
  includes (toLowerCase (WebSpeech.lang v)) "vi".

(** The comparator of [allVoices.sort]: [Lt] for a negative result, [Gt]
    for a positive one. *)
Definition compareVoices (a b : WebSpeech.Voice) : comparison :=
  if isVi a && negb (isVi b) then Lt
  else if negb (isVi a) && isVi b then Gt
  else (WebSpeech.nameKey a ?= WebSpeech.nameKey b)%N.

(** [allVoices.sort(...)]: the sort is stable and the comparator orders the
    voices consistently, so the result is that of a stable insertion sort. *)
Fixpoint insertVoice (v : WebSpeech.Voice) (sorted : list WebSpeech.Voice)
  : list WebSpeech.Voice :=
  match sorted with
  | [] => [v]
  | w :: rest =>
      match compareVoices v w with
      | Gt => w :: insertVoice v rest
      | _ => v :: sorted
      end
  end.

Definition sortVoices (vs : list WebSpeech.Voice) : list WebSpeech.Voice :=
  fold_right insertVoice [] vs.

(** [{ ...prev, webSpeechVoiceURI: uri }] *)
Definition withVoiceURI (prev : ReaderSettings) (uri : string) : ReaderSettings :=
  mkSettings (playbackRate prev) (volume prev) uri (sentencesPerChunk prev)
    (viewMode prev).

(** The updater that [loadVoices] passes to [setSettings]. *)
Definition autoSelect (prev : ReaderSettings) (allVoices : list WebSpeech.Voice)
  : ReaderSettings :=
  let voiceExists :=
    existsb (fun v => String.eqb (WebSpeech.voiceURI v) (webSpeechVoiceURI prev))
      allVoices in
  if String.eqb (webSpeechVoiceURI prev) EmptyString || negb voiceExists then
    match find isVi allVoices with
    | Some viVoice => withVoiceURI prev (WebSpeech.voiceURI viVoice)
    | None =>
        match allVoices with
        | first :: _ => withVoiceURI prev (WebSpeech.voiceURI first)
        | [] => prev
        end
    end
  else prev.

(** [loadVoices]: a copy of the browser's list is sorted and the settings
    are updated from the latest ones. The sorted list is also kept for the
    voice menu of the settings panel, which is not part of this model. *)
Definition loadVoices (s : State) : State :=
  let allVoices := sortVoices (WebSpeech.voices (synth s)) in
  setSettings (autoSelect (settings s) allVoices) s.

(** The effect that calls [loadVoices] and registers it as the handler of
    the browser's [voiceschanged] event. *)
Definition loadVoicesEffect (r s : State) : State := loadVoices s.

Definition initChunksEffect (r s : State) : State :=
  let generatedChunks :=
    splitTextIntoChunks (fileContent r) (sentencesPerChunk (settings r)) in
  let s := setChunks generatedChunks s in
  if (currentChunkIndex r >=? len generatedChunks)%Z
  then setCurrentChunkIndex (Z.max 0 (len generatedChunks - 1)) s
  else s.

Definition viewportEffect (r s : State) : State :=
  let start := Z.max 0 (currentChunkIndex r - 5) in
  let end_ := Z.min (len (chunks r)) (currentChunkIndex r + 6) in
  setVisibleRange (start, end_) s.

Definition settingsEffect (r s : State) : State :=
  let s :=
    match readerState r with
    | PLAYING =>
        let s := setIsSettingUpdate true s in
        playChunk (chunks r) (settings r) (currentChunkIndex r) false s
    | _ => s
    end in
  onSaveProgress (currentChunkIndex r) (settings r) s.

Definition indexSaveEffect (r s : State) : State :=
  let s :=
    if negb (isSettingUpdate s)
    then onSaveProgress (currentChunkIndex r) (settings r) s
    else s in
  setIsSettingUpdate false s.

(** The dependency test of the chunk-initialisation effect, on a re-render. *)
Definition initCondition (prev r : State) : bool :=
  (negb (jsstring_eqb (fileContent prev) (fileContent r))
   || negb (sentencesPerChunk (settings prev) =? sentencesPerChunk (settings r))%Z)%bool.

Definition effectsPass (prev : option State) (r : State) : State :=
  let indexChanged := changed Z.eqb currentChunkIndex prev r in
  let s := r in
  let s := if indexChanged then pageEffect r s else s in
  let s :=
    match prev with
    | None => loadVoicesEffect r s
    | Some _ => s
    end in
  let s :=
    if (changed jsstring_eqb fileContent prev r
        || changed Z.eqb (fun x => sentencesPerChunk (settings x)) prev r)%bool
    then initChunksEffect r s else s in
  let s :=
    if (indexChanged || changed Z.eqb (fun x => len (chunks x)) prev r)%bool
    then viewportEffect r s else s in
  let s :=
    if (changed Qeq_bool (fun x => playbackRate (settings x)) prev r
        || changed Z.eqb (fun x => volume (settings x)) prev r
        || changed String.eqb (fun x => webSpeechVoiceURI (settings x)) prev r)%bool
    then settingsEffect r s else s in
  if indexChanged then indexSaveEffect r s else s.

(** A state update is followed by a render and its effects; updates queued by
    those effects are followed by one more render. *)
Definition commit (prev r : State) : State :=
  effectsPass (Some r) (effectsPass (Some prev) r).

Definition mount (content : jsstring) (initialSettings : ReaderSettings)
  (initialChunkIndex : Z) (vs : list WebSpeech.Voice) : State :=
  let r := mkState content [] initialChunkIndex IDLE initialSettings None 0 (0, 0)%Z
             (initialChunkIndex / ITEMS_PER_PAGE)%Z false None
             (WebSpeech.mkSynth [] vs false) [] in
  effectsPass (Some r) (effectsPass None r).

(** *** Events: user commands, the timer, the browser's speech events on
    the utterance at the head of its queue, and its [voiceschanged] event
    with the new list of voices. *)
Inductive Event :=
| PlayPause
| Stop
| Navigate (offset : Z)
| Jump (target : option Z)
| ChunkClick (chunkId : Z)
| ChangeChunkSize (delta : Z)
| SaveSettings (tempSettings : ReaderSettings)
| PrevPage
| NextPage
| Tick
| SpeechEnd
| SpeechError (error : string)
| VoicesChanged (vs : list WebSpeech.Voice).

Definition dequeue (s : State) : State :=
  let y := synth s in
  setSynth (WebSpeech.mkSynth (tl (WebSpeech.queue y)) (WebSpeech.voices y)
              (WebSpeech.paused y)) s.

(** The closure a browser event calls, if any: the [onend] handler of the
    utterance that ended, the [onerror] handler of the one that failed. *)
Definition dispatched (ev : Event) (r : State) : option Callback :=
  match ev, WebSpeech.queue (synth r) with
  | SpeechEnd, u :: _ => Some (WebSpeech.onend u)
  | SpeechError error, u :: _ => WebSpeech.onerror u error
  | _, _ => None
  end.

(** The events whose result is a state of this model: all but a settings
    form that makes the index leave the integers. *)
Definition defined (ev : Event) (r : State) : bool :=
  match ev with
  | SaveSettings tempSettings =>
      match handleSaveSettings tempSettings r with
      | Some _ => true
      | None => false
      end
  | _ => true
  end.

(** The handler of each event. An event that is not [defined] has no
    successor state here and is left out: the state stays as it is. *)
Definition handle (ev : Event) (r : State) : State :=
  match ev with
  | PlayPause => handlePlayPause r
  | Stop => handleStop r
  | Navigate offset => handleNavigate offset r
  | Jump target => handleJump target r
  | ChunkClick chunkId => handleChunkClick chunkId r
  | ChangeChunkSize delta => changeChunkSize delta r
  | SaveSettings tempSettings =>
      match handleSaveSettings tempSettings r with
      | Some s => s
      | None => r
      end
  | PrevPage => handlePageChange (currentPage r - 1) r
  | NextPage => handlePageChange (currentPage r + 1) r
  | Tick => tick r
  | SpeechEnd =>
      match dispatched SpeechEnd r with
      | Some cb => invoke cb EmptyString 0 (dequeue r)
      | None => dequeue r
      end
  | SpeechError error =>
      match dispatched (SpeechError error) r with
      | Some cb => invoke cb error 0 (dequeue r)
      | None => dequeue r
      end
  | VoicesChanged vs =>
      let y := synth r in
      loadVoices (setSynth (WebSpeech.mkSynth (WebSpeech.queue y) vs
                              (WebSpeech.paused y)) r)
  end.

Definition step (ev : Event) (r : State) : State := commit r (handle ev r).

Definition run (evs : list Event) (r : State) : State :=
  fold_left (fun s ev => step ev s) evs r.

(** Every event of [evs] is [defined] in the state it arrives in. *)
Fixpoint runDefined (evs : list Event) (r : State) : bool :=
  match evs with
  | [] => true
  | ev :: rest => defined ev r && runDefined rest (step ev r)
  end.

Inductive reachable : State -> Prop :=
| reach_mount content st idx vs : reachable (mount content st idx vs)
| reach_step ev s : reachable s -> reachable (step ev s).

(** In the earlier revision ([src/components/Reader.tsx]) the page shown in
    paginated mode is not a state cell but computed at each render. *)
Definition displayedPage_v1 (r : State) : Z := (currentChunkIndex r / 50)%Z.

(** Number of [onSaveProgress] calls in a trace. *)
Definition isSave (a : Action) : bool :=
  match a with ASave _ _ => true | _ => false end.

Definition saves (r : State) : list Action := filter isSave (trace r).

(** *** Sample instances used to exercise the theorems. *)

Definition sampleSettings : ReaderSettings :=
  mkSettings 1 100 EmptyString 1 paginated.

(** Three one-sentence chunks, freshly mounted at index 0. *)
Definition demoReader : State :=
  mount (of_string "aaa. bbb. ccc.") sampleSettings 0 [].


(** Sixty one-sentence chunks, mounted at index 49 (the last chunk of the
    first page). *)
Definition longReader : State :=
  mount (concat (repeat (of_string "aaa.") 60)) sampleSettings 49 [].

(** The sample settings with the playback rate raised to 1.5. *)
Definition fasterSettings : ReaderSettings :=
  mkSettings (3 # 2) 100 EmptyString 1 paginated.

(** *** Invariants of the mounted component. *)

(** An utterance made by [playChunk]: its end handler is an end closure, its
    error handler the error closure. *)
Definition utteranceOK (u : WebSpeech.Utterance Callback) : Prop :=
  (exists cs st index, WebSpeech.uOnEnd u = OnEnd cs st index) /\
  WebSpeech.uOnError u = OnError.

Definition queueOK (s : State) : Prop :=
  Forall utteranceOK (WebSpeech.queue (synth s)).

(** While the simulation timer runs, the progress value is at most 95. *)
Definition timerOK (s : State) : Prop :=
  progressInterval s <> None -> chunkProgress s <= 95.

(** The progress value is [base], or one of the two constants the component
    writes: 0 (start, stop) and 100 (completion). *)
Definition progressFrom (base : Q) (s : State) : Prop :=
  chunkProgress s = base \/ chunkProgress s = 0 \/ chunkProgress s = 100.

Definition Inv (base : Q) (s : State) : Prop :=
  queueOK s /\ timerOK s /\ progressFrom base s.

End Reader.

(** * Further parts of the program *)

(** ** Further vocabulary for the segmenter *)

(** The characters of [s] that [trim] can never remove, in order. *)
Definition nonWhite (s : jsstring) : jsstring :=
  filter (fun c => negb (isWhiteSpace c)) s.

(** [s] begins with a character that is not white space. *)
Definition startsInked (s : jsstring) : Prop :=
  match s with
  | c :: _ => isWhiteSpace c = false
  | [] => False
  end.

(** [s] begins and ends with a character that is not white space. *)
Definition edgesInked (s : jsstring) : Prop :=
  startsInked s /\ startsInked (rev s).

(** ** Further invariant of the mounted component *)

(** At most one utterance is queued, the LOADING state is not in use, and a
    running simulation timer belongs to a PLAYING or PAUSED reader. *)
Definition controllerOK (s : Reader.State) : Prop :=
  (length (WebSpeech.queue (Reader.synth s)) <= 1)%nat /\
  Reader.readerState s <> Reader.LOADING /\
  (Reader.progressInterval s <> None ->
   Reader.readerState s = Reader.PLAYING \/ Reader.readerState s = Reader.PAUSED).

(** ** The continuous-mode scroll handler of the [Reader] *)

Module Scrolling.

Import Reader.

(** The fields of [e.currentTarget] (the scroll container) the handler and
    the layout effect read. *)
Record ScrollMetrics := mkMetrics {
  scrollTop : Q;
  scrollHeight : Q;
  clientHeight : Q
}.

(** The two refs of the scroll restoration. *)
Record ScrollRefs := mkRefs {
  previousScrollHeight : Q;
  isPrepending : bool
}.

Definition Qlt_bool (a b : Q) : bool := negb (Qle_bool b a).

(** [handleScroll]: the two tests read the rendered [visibleRange] and
    [chunks.length]; the two updates are functional updates of the latest
    range. *)
Definition handleScroll (e : ScrollMetrics) (refs : ScrollRefs) (r : State)
  : State * ScrollRefs :=
  let '(s, refs) :=
    if (Qlt_bool (scrollTop e) 100 && (fst (visibleRange r) >? 0)%Z)%bool then
      (setVisibleRange (Z.max 0 (fst (visibleRange r) - 5), snd (visibleRange r)) r,
       mkRefs (scrollHeight e) true)
    else (r, refs) in
  if (Qlt_bool (scrollHeight e - scrollTop e - clientHeight e) 100
      && (snd (visibleRange r) <? len (chunks r))%Z)%bool then
    (setVisibleRange (fst (visibleRange s),
                      Z.min (len (chunks r)) (snd (visibleRange s) + 5)) s,
     refs)
  else (s, refs).

(** The layout effect keyed on [visibleRange.start], on the container as it
    is after the render. *)
Definition restoreScroll (container : ScrollMetrics) (refs : ScrollRefs)
  : ScrollMetrics * ScrollRefs :=
  if isPrepending refs then
    let diff := scrollHeight container - previousScrollHeight refs in
    (if Qlt_bool 0 diff
     then mkMetrics (scrollTop container + diff) (scrollHeight container)
            (clientHeight container)
     else container,
     mkRefs (previousScrollHeight refs) false)
  else (container, refs).

End Scrolling.

(** ** The speech service with long texts cut into chained utterances
    (the revision that cuts at punctuation, 200 characters at most) *)

Module LongText.

Definition MAX_CHUNK_LENGTH : nat := 200.

(** The character class [[.!?,;:]]. *)
Definition isPunctuation (c : N) : bool :=
  ((c =? 46) || (c =? 33) || (c =? 63) || (c =? 44) || (c =? 59) || (c =? 58))%N.

(** Index of the last element of [s] satisfying [p], counting from [i];
    [acc] when there is none. *)
Fixpoint findLast (p : N -> bool) (s : jsstring) (i : nat) (acc : option nat)
  : option nat :=
  match s with
  | [] => acc
  | c :: rest => findLast p rest (S i) (if p c then Some i else acc)
  end.

(** The [exec] loop: the last punctuation match at an index below
    [MAX_CHUNK_LENGTH]. *)
Definition lastPunctuation (s : jsstring) : option nat :=
  findLast isPunctuation (firstn MAX_CHUNK_LENGTH s) 0 None.

(** [s.lastIndexOf(" ", from)]: the last space at an index up to [from]. *)
Definition lastIndexOfSpace (s : jsstring) (from : nat) : option nat :=
  findLast (N.eqb SPACE) (firstn (S from) s) 0 None.

Definition splitIndex (remainingText : jsstring) : nat :=
  match lastPunctuation remainingText with
  | Some i => i + 1
  | None =>
      match lastIndexOfSpace remainingText MAX_CHUNK_LENGTH with
      | Some spaceIndex =>
          if (0 <? spaceIndex)%nat then spaceIndex + 1 else MAX_CHUNK_LENGTH
      | None => MAX_CHUNK_LENGTH
      end
  end.

(** [while (remainingText.length > 0)], with one unit of fuel per iteration. *)
Fixpoint splitLoop (fuel : nat) (remainingText : jsstring) : list jsstring :=
  match fuel with
  | O => []
  | S fuel' =>
      if (length remainingText =? 0)%nat then []
      else if (length remainingText <=? MAX_CHUNK_LENGTH)%nat then [remainingText]
      else
        let k := splitIndex remainingText in
        firstn k remainingText :: splitLoop fuel' (trim (skipn k remainingText))
  end.

(** Every iteration but the last shortens the text, so its length is fuel
    enough. *)
Definition splitLongText (text : jsstring) : list jsstring :=
  splitLoop (length text) text.

Section Chain.

Variable Callback : Type.

(** What [speakNextChunk] closes over. *)
Record Session := mkSession {
  chunks : list jsstring;
  uri : string;
  rate : Q;
  volume : Z;
  onEnd : Callback;
  onError : Callback
}.

(** [utterance.onend]: the caller's [onEnd] for a short text, the
    continuation [() => speakNextChunk(index + 1)] in a chain. *)
Inductive EndHandler :=
| CallOnEnd (cb : Callback)
| SpeakNextChunk (session : Session) (index : nat).

Record Utterance := mkUtterance {
  utext : jsstring;
  uvoice : option WebSpeech.Voice;
  urate : Q;
  uvolume : Q;
  uonend : EndHandler;
  uOnError : Callback
}.

Record SpeechSynthesis := mkSynth {
  queue : list Utterance;
  voices : list WebSpeech.Voice
}.

Definition cancel (y : SpeechSynthesis) : SpeechSynthesis := mkSynth [] (voices y).

Definition speak (u : Utterance) (y : SpeechSynthesis) : SpeechSynthesis :=
  mkSynth (queue y ++ [u]) (voices y).

(** [speakNextChunk(index)]; the second component lists the callbacks it
    calls. *)
Definition speakNextChunk (session : Session) (index : nat) (y : SpeechSynthesis)
  : SpeechSynthesis * list Callback :=
  match nth_error (chunks session) index with
  | None => (y, [onEnd session])
  | Some chunkText =>
      (speak (mkUtterance chunkText
                (WebSpeech.selectVoice (uri session) (voices y))
                (rate session) (inject_Z (volume session) / 100)
                (SpeakNextChunk session (index + 1)) (onError session)) y,
       [])
  end.

Definition speakWebSpeech (text : jsstring) (voiceURI : string) (rate : Q)
  (volume : Z) (onEnd onError : Callback) (shouldCancel : bool)
  (y : SpeechSynthesis) : SpeechSynthesis * list Callback :=
  let y := if shouldCancel then cancel y else y in
  if (length text <? 1000)%nat then
    (speak (mkUtterance text (WebSpeech.selectVoice voiceURI (voices y)) rate
              (inject_Z volume / 100) (CallOnEnd onEnd) onError) y,
     [])
  else
    speakNextChunk (mkSession (splitLongText text) voiceURI rate volume onEnd onError)
      0 y.

(** The browser's [end] event on the utterance at the head of the queue. *)
Definition fireEnd (y : SpeechSynthesis) : SpeechSynthesis * list Callback :=
  match queue y with
  | [] => (y, [])
  | u :: rest =>
      match uonend u with
      | CallOnEnd cb => (mkSynth rest (voices y), [cb])
      | SpeakNextChunk session index =>
          speakNextChunk session index (mkSynth rest (voices y))
      end
  end.

(** The browser's [error] event on the utterance at the head of the queue:
    both handlers return at once on the errors of a manual cancellation. *)
Definition fireError (error : string) (y : SpeechSynthesis)
  : SpeechSynthesis * list Callback :=
  match queue y with
  | [] => (y, [])
  | u :: rest =>
      (mkSynth rest (voices y),
       if (String.eqb error "canceled" || String.eqb error "interrupted")%bool
       then []
       else [uOnError u])
  end.

(** [n] successive [end] events: the texts whose utterances ended and the
    callbacks called, in order. *)
Fixpoint fireEnds (n : nat) (y : SpeechSynthesis)
  : SpeechSynthesis * list jsstring * list Callback :=
  match n with
  | O => (y, [], [])
  | S n' =>
      let '(y1, called1) := fireEnd y in
      let '(y2, ended, called2) := fireEnds n' y1 in
      (y2, map utext (firstn 1 (queue y)) ++ ended, called1 ++ called2)
  end.

End Chain.

(** A text of 1200 characters with punctuation. *)
Definition longSample : jsstring :=
  concat (repeat (of_string "Hello there, world. ") 60).

End LongText.

(** ** Raw audio: [AudioPlayer.decodeAudioData] *)

Module Pcm.

Definition byteValue (b : Byte.byte) : Z := Z.of_N (Byte.to_N b).

(** One element of an [Int16Array] view: two bytes, little endian, two's
    complement. *)
Definition int16 (lo hi : Byte.byte) : Z :=
  let u := (byteValue lo + 256 * byteValue hi)%Z in
  if (u <? 32768)%Z then u else (u - 65536)%Z.

(** [new Int16Array(buffer)]: a [RangeError] ([None]) when the byte length
    is odd. *)
Fixpoint Int16Array (buffer : list Byte.byte) : option (list Z) :=
  match buffer with
  | [] => Some []
  | [_] => None
  | lo :: hi :: rest => option_map (cons (int16 lo hi)) (Int16Array rest)
  end.

Record AudioBuffer := mkAudioBuffer {
  numberOfChannels : Z;
  sampleRate : Z;
  channelData : list Q
}.

(** [audioContext.createBuffer(numberOfChannels, length, sampleRate)] of
    the Web Audio API: a [NotSupportedError] ([None]) when an argument is
    zero or negative, otherwise a buffer of [length] silent frames. The upper
    limits of an implementation are not modelled; one channel at 24000 Hz,
    as the one call asks for, is within what every implementation has to
    support. *)
Definition createBuffer (numChannels : Z) (frameCount : nat) (rate : Z)
  : option AudioBuffer :=
  if ((numChannels <=? 0)%Z || (frameCount =? 0)%nat || (rate <=? 0)%Z)%bool
  then None
  else Some (mkAudioBuffer numChannels rate (repeat 0 frameCount)).

(** [channelData[i] = v] on a [Float32Array]: an index past the end is
    ignored. *)
Fixpoint store (i : nat) (v : Q) (channelData : list Q) : list Q :=
  match channelData, i with
  | [], _ => []
  | _ :: rest, O => v :: rest
  | q :: rest, S i' => q :: store i' v rest
  end.

(** The loop [for (let i = 0; i < frameCount; i++)], from index [i] on, over
    the elements of [dataInt16] from that index on. *)
Fixpoint fillFrom (i : nat) (dataInt16 : list Z) (channelData : list Q) : list Q :=
  match dataInt16 with
  | [] => channelData
  | x :: rest => fillFrom (S i) rest (store i (inject_Z x / 32768) channelData)
  end.

(** [decodeAudioData]; [None] stands for a thrown error, [hasContext] for
    [this.audioContext] not being null. *)
Definition decodeAudioData (hasContext : bool) (arrayBuffer : list Byte.byte)
  : option AudioBuffer :=
  if negb hasContext then None
  else
    let byteLength := length arrayBuffer in
    let alignedBuffer :=
      if (byteLength mod 2 =? 0)%nat then arrayBuffer
      else firstn (byteLength - 1) arrayBuffer in
    match Int16Array alignedBuffer with
    | None => None
    | Some dataInt16 =>
        let frameCount := length dataInt16 in
        match createBuffer 1 frameCount 24000 with
        | None => None
        | Some buffer =>
            Some (mkAudioBuffer (numberOfChannels buffer) (sampleRate buffer)
                    (fillFrom 0 dataInt16 (channelData buffer)))
        end
    end.

End Pcm.

(** ** The Gemini speech request with retries: [generateSpeech] *)

Module Gemini.

Definition MAX_RETRIES : nat := 3.
Definition INITIAL_DELAY_MS : Z := 1000.

(** A caught value, as far as the [catch] block looks at it. *)
Record Error := mkError {
  status : option Z;
  message : option string
}.

(** [new Error(msg)] *)
Definition newError (msg : string) : Error := mkError None (Some msg).

(** [s.includes(sub)] *)
Definition includes (s sub : string) : bool :=
  match String.index 0 sub s with
  | Some _ => true
  | None => false
  end.

Definition isRetryable (error : Error) : bool :=
  match status error with
  | Some st => (st =? 503)%Z || (st =? 429)%Z
  | None => false
  end
  || match message error with
     | Some m =>
         negb (String.eqb m EmptyString) &&
         (includes m "503" || includes m "overloaded" || includes m "429")
     | None => false
     end.

Record Candidate := mkCandidate {
  finishReason : option string;
  inlineData : option string
}.

(** How [ai.models.generateContent] settles: rejected, or resolved with
    [response.candidates?.[0]]. *)
Inductive ApiResult :=
| Rejected (e : Error)
| Resolved (candidate : option Candidate).

Inductive Effect :=
| Call (attempt : nat)
| Wait (ms : Z).

Inductive Result :=
| Return (buffer : list Byte.byte)
| Throw (error : option Error).

Definition truthy (s : option string) : bool :=
  match s with
  | Some v => negb (String.eqb v EmptyString)
  | None => false
  end.

Section Request.

(** The browser's [atob], which throws on malformed input, and the settled
    result of the request made at each attempt. *)
Variable atob : string -> Error + string.
Variable api : nat -> ApiResult.

(** What the [try] block throws when the response carries no audio. *)
Definition noAudioError (candidate : option Candidate) : Error :=
  let reason :=
    match candidate with
    | Some c => finishReason c
    | None => None
    end in
  if truthy reason
     && match reason with
        | Some r => String.eqb r "SAFETY"
        | None => false
        end
  then newError "Nội dung bị chặn bởi bộ lọc an toàn của Google (Safety Filter)."
  else newError "No audio data received from Gemini. Server response was empty.".

(** The [try] block: the thrown value on the left, the returned buffer on
    the right. *)
Definition attemptOnce (attempt : nat) : Error + list Byte.byte :=
  match api attempt with
  | Rejected e => inl e
  | Resolved candidate =>
      let base64Audio :=
        match candidate with
        | Some c => inlineData c
        | None => None
        end in
      match base64Audio with
      | Some b64 =>
          if String.eqb b64 EmptyString then inl (noAudioError candidate)
          else
            match atob b64 with
            | inl e => inl e
            | inr binaryString => inr (list_byte_of_string binaryString)
            end
      | None => inl (noAudioError candidate)
      end
  end.

(** [while (attempt < MAX_RETRIES)], one unit of fuel per test of the
    condition. *)
Fixpoint retryLoop (fuel attempt : nat) (lastError : option Error)
  : Result * list Effect :=
  match fuel with
  | O => (Throw lastError, [])
  | S fuel' =>
      if (attempt <? MAX_RETRIES)%nat then
        match attemptOnce attempt with
        | inr buffer => (Return buffer, [Call attempt])
        | inl error =>
            if isRetryable error && (attempt <? MAX_RETRIES - 1)%nat then
              let delay := (INITIAL_DELAY_MS * 2 ^ Z.of_nat attempt)%Z in
              let '(result, effects) := retryLoop fuel' (attempt + 1) (Some error) in
              (result, Call attempt :: Wait delay :: effects)
            else (Throw (Some error), [Call attempt])
        end
      else (Throw lastError, [])
  end.

Definition generateSpeech (text : jsstring) (apiKey : string)
  (envKey : option string) : Result * list Effect :=
  let key := if negb (String.eqb apiKey EmptyString) then Some apiKey else envKey in
  if negb (truthy key) then
    (Throw (Some (newError
       "Chưa nhập API Key. Vui lòng vào Cài đặt để nhập khóa API Google Gemini.")), [])
  else if (length text =? 0)%nat || (length (trim text) =? 0)%nat then
    (Return [], [])
  else retryLoop (S MAX_RETRIES) 0 None.

End Request.

End Gemini.

(** The trace of [s'] continues the trace of [s]. *)
Definition extends (s s' : Reader.State) : Prop :=
  exists tail, Reader.trace s' = Reader.trace s ++ tail.

(** ** The [App] component: stored progress *)

Module App.

Record StoredProgress := mkStoredProgress {
  fileName : string;
  chunkIndex : Z;
  settings : Reader.ReaderSettings
}.

Definition DEFAULT_SETTINGS : Reader.ReaderSettings :=
  Reader.mkSettings 1 100 EmptyString 50 Reader.continuous.

(** [Record<string, StoredProgress>]: keys with their values, a key's first
    entry being its value. *)
Definition Store := list (string * StoredProgress).

(** [store[name]] *)
Fixpoint lookup (name : string) (store : Store) : option StoredProgress :=
  match store with
  | [] => None
  | (k, v) :: rest => if String.eqb k name then Some v else lookup name rest
  end.

(** [{ ...store, [name]: v }] *)
Fixpoint assign (name : string) (v : StoredProgress) (store : Store) : Store :=
  match store with
  | [] => [(name, v)]
  | (k, w) :: rest =>
      if String.eqb k name then (k, v) :: rest else (k, w) :: assign name v rest
  end.

(** The state cells of [App] that progress goes through, and the
    [tts_reader_progress] item of the local storage ([JSON.parse] of
    [JSON.stringify] taken as the identity on stores). *)
Record AppState := mkApp {
  storedProgress : Store;
  lastPlayedFile : option string;
  localStorage : option Store
}.

Definition saveProgress (fileName : string) (chunkIndex : Z)
  (settings : Reader.ReaderSettings) (app : AppState) : AppState :=
  let newProgress :=
    assign fileName (mkStoredProgress fileName chunkIndex settings)
      (storedProgress app) in
  mkApp newProgress (Some fileName) (Some newProgress).

(** The first render of [App] with its loading effect. *)
Definition appMount (storage : option Store) : AppState :=
  match storage with
  | Some savedProgress => mkApp savedProgress None storage
  | None => mkApp [] None storage
  end.

(** [storedProgress[name]?.settings || DEFAULT_SETTINGS] *)
Definition initialSettings (name : string) (app : AppState) : Reader.ReaderSettings :=
  match lookup name (storedProgress app) with
  | Some p => settings p
  | None => DEFAULT_SETTINGS
  end.

(** [storedProgress[name]?.chunkIndex || 0] *)
Definition initialChunkIndex (name : string) (app : AppState) : Z :=
  match lookup name (storedProgress app) with
  | Some p => if (chunkIndex p =? 0)%Z then 0%Z else chunkIndex p
  | None => 0%Z
  end.

(** The [Reader] rendered for the selected file. *)
Definition openReader (name : string) (content : jsstring) (app : AppState)
  (vs : list WebSpeech.Voice) : Reader.State :=
  Reader.mount content (initialSettings name app) (initialChunkIndex name app) vs.

(** The [onSaveProgress] prop:
    [(chunkIndex, settings) => saveProgress(selectedFile.name, chunkIndex, settings)]. *)
Definition deliver (name : string) (app : AppState) (a : Reader.Action) : AppState :=
  match a with
  | Reader.ASave chunkIndex settings => saveProgress name chunkIndex settings app
  | _ => app
  end.

Definition deliverAll (name : string) (actions : list Reader.Action)
  (app : AppState) : AppState :=
  fold_left (deliver name) actions app.

End App.

(** Proof automation for the component's operations. *)

Ltac unfold_ops :=
  unfold Reader.pageEffect, Reader.initChunksEffect, Reader.viewportEffect,
    Reader.settingsEffect, Reader.indexSaveEffect, Reader.onSaveProgress,
    Reader.playChunk, Reader.stopWebSpeech, Reader.clearProgressInterval,
    Reader.loadVoicesEffect, Reader.loadVoices, WebSpeech.speakWebSpeech.

Ltac split_cases :=
  repeat match goal with
         | |- context [match ?x with _ => _ end] => destruct x
         end.

Ltac frame := intros; unfold_ops; split_cases; reflexivity.


(** * Segmenter: proofs *)

Section SegmenterFacts.

Lemma length_pos_nonEmpty (s : jsstring) : (0 <? length s)%nat = true -> nonEmpty s.
Proof.
  intros H ->. discriminate H.
Qed.

Lemma length_ge3_nonEmpty (s : jsstring) : (3 <=? length s)%nat = true -> nonEmpty s.
Proof.
  intros H ->. discriminate H.
Qed.

Lemma appendToLast_nonEmpty (l : list jsstring) (suffix : jsstring) :
  Forall nonEmpty l -> nonEmpty suffix -> Forall nonEmpty (appendToLast l suffix).
Proof.
  intros Hl Hs. unfold appendToLast.
  apply Forall_app. split.
  - destruct l as [|a l'] using rev_ind; [constructor|].
    rewrite removelast_last. apply Forall_app in Hl. tauto.
  - constructor; [|constructor].
    intros E. apply app_eq_nil in E. destruct E as [_ E]. now apply Hs.
Qed.

Lemma scanStep_nonEmpty (txt : jsstring) st i :
  Forall nonEmpty (fst st) -> Forall nonEmpty (fst (scanStep txt st i)).
Proof.
  destruct st as [sentences buffer]. unfold scanStep. cbn [fst]. intros H.
  destruct (nth_error txt i) as [char|]; [|exact H].
  destruct (isDelimiterAt txt i char); [|exact H].
  destruct (3 <=? length (trim (buffer ++ [char])))%nat eqn:E; [|exact H].
  cbn [fst]. apply Forall_app. split; [exact H|].
  constructor; [|constructor]. now apply length_ge3_nonEmpty.
Qed.

Lemma scan_fold_nonEmpty (txt : jsstring) (idx : list nat) st :
  Forall nonEmpty (fst st) ->
  Forall nonEmpty (fst (fold_left (scanStep txt) idx st)).
Proof.
  revert st. induction idx as [|i idx IH]; intros st H; simpl; [exact H|].
  apply IH. now apply scanStep_nonEmpty.
Qed.

Lemma flushRemainder_nonEmpty st :
  Forall nonEmpty (fst st) -> Forall nonEmpty (flushRemainder st).
Proof.
  destruct st as [sentences buffer]. unfold flushRemainder. cbn [fst]. intros H.
  destruct (0 <? length (trim buffer))%nat eqn:E; [|exact H].
  destruct ((length (trim buffer) <? 3)%nat && (0 <? length sentences)%nat).
  - apply appendToLast_nonEmpty; [exact H|]. discriminate.
  - apply Forall_app. split; [exact H|].
    constructor; [|constructor]. now apply length_pos_nonEmpty.
Qed.

Lemma fallback_nonEmpty txt sentences :
  Forall nonEmpty sentences -> Forall nonEmpty (fallback txt sentences).
Proof.
  unfold fallback. intros H.
  destruct (length sentences =? 0)%nat; cbn [andb]; [|exact H].
  destruct (0 <? length (trim txt))%nat eqn:E; [|exact H].
  apply Forall_app. split; [exact H|].
  constructor; [|constructor]. now apply length_pos_nonEmpty.
Qed.

(** Every sentence handed to the grouping loop is a non-empty string. *)
Lemma splitSentences_nonEmpty txt : Forall nonEmpty (splitSentences txt).
Proof.
  unfold splitSentences, scan.
  apply fallback_nonEmpty, flushRemainder_nonEmpty, scan_fold_nonEmpty.
  constructor.
Qed.

End SegmenterFacts.

Section Grouping.

(** The group size [sentencesPerChunk] of the grouping loop. *)
Variable n : Z.

Lemma idsContiguous_snoc cs c :
  idsContiguous cs -> id c = Z.of_nat (length cs) -> idsContiguous (cs ++ [c]).
Proof.
  unfold idsContiguous. intros H Hc.
  rewrite map_app, length_app. simpl length.
  rewrite Nat.add_1_r, seq_S, map_app. simpl. congruence.
Qed.

Lemma groupStep_idInv g s :
  idInv g -> nonEmpty s -> idInv (groupStep n g s).
Proof.
  intros (Hids & Hnext & Hne) Hs. unfold groupStep.
  destruct (sentenceCount g + 1 >=? n)%Z; [|now repeat split].
  repeat split; cbn [chunks chunkId].
  - now apply idsContiguous_snoc.
  - rewrite length_app. simpl length. lia.
  - apply Forall_app. split; [exact Hne|].
    constructor; [|constructor]. cbn [text]. intros E.
    apply app_eq_nil in E. destruct E as [_ E].
    apply app_eq_nil in E. destruct E as [_ E]. now apply Hs.
Qed.

Lemma group_fold_idInv sentences g :
  idInv g -> Forall nonEmpty sentences ->
  idInv (fold_left (groupStep n) sentences g).
Proof.
  revert g. induction sentences as [|s rest IH]; intros g Hg Hall; simpl; [exact Hg|].
  inversion Hall; subst. apply IH; [|assumption]. now apply groupStep_idInv.
Qed.

Lemma groupFinish_idInv g :
  idInv g ->
  idsContiguous (groupFinish g) /\ Forall (fun c => nonEmpty (text c)) (groupFinish g).
Proof.
  intros (Hids & Hnext & Hne). unfold groupFinish.
  destruct (0 <? length (currentChunkText g))%nat eqn:E; [|now split].
  split.
  - now apply idsContiguous_snoc.
  - apply Forall_app. split; [exact Hne|].
    constructor; [|constructor]. cbn [text]. now apply length_pos_nonEmpty.
Qed.

Lemma groupSentences_ids sentences :
  Forall nonEmpty sentences ->
  idsContiguous (groupSentences sentences n) /\
  Forall (fun c => nonEmpty (text c)) (groupSentences sentences n).
Proof.
  intros H. unfold groupSentences. apply groupFinish_idInv, group_fold_idInv; [|exact H].
  repeat split; constructor.
Qed.

Lemma joinSpace_nonEmpty l : Forall nonEmpty l -> l <> [] -> nonEmpty (joinSpace l).
Proof.
  destruct l as [|s rest]; [congruence|]. intros H _. inversion H; subst.
  cbn [joinSpace]. destruct rest; [assumption|].
  intros E. apply app_eq_nil in E. now destruct E.
Qed.

Lemma nonEmpty_length_pos (s : jsstring) : nonEmpty s -> (0 <? length s)%nat = true.
Proof.
  destruct s; [now intros []|reflexivity].
Qed.

Lemma joinSpace_snoc p s :
  Forall nonEmpty p ->
  joinSpace (p ++ [s])
  = joinSpace p ++ (if (0 <? length (joinSpace p))%nat then [SPACE] else []) ++ s.
Proof.
  induction p as [|a p IH]; intros Hp; [reflexivity|].
  inversion Hp as [|? ? Ha Hp']; subst.
  rewrite (nonEmpty_length_pos (joinSpace_nonEmpty Hp ltac:(discriminate))).
  destruct p as [|b p'].
  - reflexivity.
  - specialize (IH Hp').
    rewrite (nonEmpty_length_pos (joinSpace_nonEmpty Hp' ltac:(discriminate))) in IH.
    change (joinSpace ((a :: b :: p') ++ [s]))
      with (a ++ [SPACE] ++ joinSpace ((b :: p') ++ [s])).
    rewrite IH.
    change (joinSpace (a :: b :: p')) with (a ++ [SPACE] ++ joinSpace (b :: p')).
    now rewrite <- !app_assoc.
Qed.

(** From here on the group size is at least one. *)
Hypothesis Hn : (1 <= n)%Z.

Lemma group_fold_groupInv sentences :
  forall g groups pending,
  groupInv (Z.to_nat n) g groups pending ->
  Forall nonEmpty sentences ->
  exists groups' pending',
    groupInv (Z.to_nat n) (fold_left (groupStep n) sentences g) groups' pending' /\
    concat groups' ++ pending' = concat groups ++ pending ++ sentences.
Proof.
  induction sentences as [|s rest IH]; intros g groups pending Hinv Hall.
  - exists groups, pending. split; [exact Hinv|]. now rewrite app_nil_r.
  - inversion Hall as [|? ? Hs Hrest]; subst.
    destruct Hinv as (Htxt & Hfull & Hcur & Hcnt & Hlt & Hpend).
    cbn [fold_left]. unfold groupStep at 2.
    rewrite Hcur, Hcnt, <- joinSpace_snoc by assumption.
    destruct (Z.of_nat (length pending) + 1 >=? n)%Z eqn:E.
    + destruct (IH (mkGroup (chunks g ++ [mkChunk (chunkId g) (joinSpace (pending ++ [s]))])
                     [] 0 (chunkId g + 1))
                   (groups ++ [pending ++ [s]]) []) as (groups' & pending' & Hinv' & Hcat).
      * repeat split; cbn [chunks currentChunkText sentenceCount].
        -- rewrite !map_app, Htxt. reflexivity.
        -- apply Forall_app. split; [exact Hfull|].
           constructor; [|constructor]. rewrite length_app. simpl length. lia.
        -- simpl. lia.
        -- constructor.
      * assumption.
      * exists groups', pending'. split; [exact Hinv'|].
        rewrite Hcat, concat_app. simpl. rewrite app_nil_r, <- !app_assoc. reflexivity.
    + destruct (IH (mkGroup (chunks g) (joinSpace (pending ++ [s]))
                     (Z.of_nat (length pending) + 1) (chunkId g))
                   groups (pending ++ [s])) as (groups' & pending' & Hinv' & Hcat).
      * repeat split; cbn [chunks currentChunkText sentenceCount]; try assumption.
        -- rewrite length_app. simpl length. lia.
        -- rewrite length_app. simpl length. lia.
        -- apply Forall_app. split; [exact Hpend|]. now constructor.
      * assumption.
      * exists groups', pending'. split; [exact Hinv'|].
        rewrite Hcat, <- !app_assoc. reflexivity.
Qed.

(** The grouping loop cuts the sentence list into consecutive groups of
    exactly [n] sentences, the last group holding the remainder. *)
Lemma groupSentences_groups sentences :
  Forall nonEmpty sentences ->
  exists groups : list (list jsstring),
    concat groups = sentences /\
    Forall (fun grp => Z.of_nat (length grp) = n) (removelast groups) /\
    (groups <> [] -> (1 <= Z.of_nat (length (last groups [])) <= n)%Z) /\
    map text (groupSentences sentences n) = map joinSpace groups.
Proof.
  intros Hall.
  destruct (@group_fold_groupInv sentences (mkGroup [] [] 0 0) [] [])
    as (groups & pending & (Htxt & Hfull & Hcur & Hcnt & Hlt & Hpend) & Hcat).
  { repeat split; try constructor. simpl. lia. }
  { exact Hall. }
  simpl in Hcat. unfold groupSentences, groupFinish. rewrite Hcur.
  assert (Hfull' : Forall (fun grp => Z.of_nat (length grp) = n) groups).
  { eapply Forall_impl; [|exact Hfull]. simpl. intros grp ->. lia. }
  destruct pending as [|p pending'].
  - exists groups. cbn [joinSpace length Nat.ltb Nat.leb].
    rewrite app_nil_r in Hcat. repeat split; try assumption.
    + destruct groups as [|a l] using rev_ind; [constructor|].
      rewrite removelast_last. apply Forall_app in Hfull'. tauto.
    + destruct groups as [|a l _] using rev_ind; [congruence|].
      rewrite last_last. apply Forall_app in Hfull'.
      destruct Hfull' as [_ Hl]. inversion Hl; subst. lia.
    + destruct groups as [|a l _] using rev_ind; [congruence|].
      rewrite last_last. apply Forall_app in Hfull'.
      destruct Hfull' as [_ Hl]. inversion Hl; subst. lia.
  - exists (groups ++ [p :: pending']).
    rewrite (nonEmpty_length_pos (joinSpace_nonEmpty Hpend ltac:(discriminate))).
    rewrite removelast_last, last_last, concat_app, !map_app, Htxt. simpl concat.
    rewrite app_nil_r. repeat split; try assumption.
    + simpl length. lia.
    + lia.
Qed.

End Grouping.

Section DelimiterFree.

Lemma firstn_snoc_nth (A : Type) (l : list A) n c :
  nth_error l n = Some c -> firstn (S n) l = firstn n l ++ [c].
Proof.
  revert n. induction l as [|a l IH]; intros [|n] H; try discriminate.
  - injection H as ->. reflexivity.
  - cbn [firstn app]. f_equal. now apply IH.
Qed.

Lemma adjacent_dot_not_delimiter txt i :
  nth_error txt (i + 1) = Some DOT \/
  ((0 < i)%nat /\ nth_error txt (i - 1) = Some DOT) ->
  isDelimiterAt txt i DOT = false.
Proof.
  intros H. unfold isDelimiterAt. cbn [N.eqb BANG QMARK LF DOT Pos.eqb orb].
  destruct H as [H | [Hi H]].
  - assert (Hlt : (i + 1 < length txt)%nat).
    { apply nth_error_Some. congruence. }
    replace (i <? length txt - 1)%nat with true
      by (symmetry; apply Nat.ltb_lt; lia).
    rewrite H. reflexivity.
  - replace (0 <? i)%nat with true by (symmetry; now apply Nat.ltb_lt).
    rewrite H. cbn. now rewrite andb_false_r.
Qed.

Lemma delimiterFree_isDelimiterAt txt i c :
  delimiterFree txt -> nth_error txt i = Some c -> isDelimiterAt txt i c = false.
Proof.
  intros Hfree Hc. destruct (Hfree i c Hc) as (Hb & Hq & Hl & Hdot).
  destruct (N.eq_dec c DOT) as [-> | Hnd].
  - now apply adjacent_dot_not_delimiter, Hdot.
  - unfold isDelimiterAt.
    apply N.eqb_neq in Hb, Hq, Hl, Hnd. now rewrite Hb, Hq, Hl, Hnd.
Qed.

Lemma scan_prefix_delimiterFree txt n :
  delimiterFree txt -> (n <= length txt)%nat ->
  fold_left (scanStep txt) (seq 0 n) ([], []) = ([], firstn n txt).
Proof.
  intros Hfree. induction n as [|n IH]; intros Hn; [reflexivity|].
  rewrite seq_S, fold_left_app, IH by lia. cbn [fold_left Nat.add scanStep].
  destruct (nth_error txt n) as [c|] eqn:Hc.
  - rewrite (@delimiterFree_isDelimiterAt txt n c Hfree Hc).
    now rewrite (@firstn_snoc_nth _ txt n c Hc).
  - apply nth_error_None in Hc. lia.
Qed.

Lemma scan_delimiterFree txt : delimiterFree txt -> scan txt = ([], txt).
Proof.
  intros Hfree. unfold scan.
  rewrite scan_prefix_delimiterFree by (auto; lia). now rewrite firstn_all.
Qed.

Lemma groupSentences_single s n :
  nonEmpty s -> groupSentences [s] n = [mkChunk 0 s].
Proof.
  intros Hs. unfold groupSentences, groupStep. cbn [fold_left].
  cbn [currentChunkText sentenceCount chunkId chunks length Nat.ltb Nat.leb app].
  destruct (0 + 1 >=? n)%Z; unfold groupFinish; cbn [currentChunkText chunks chunkId app].
  - reflexivity.
  - now rewrite (nonEmpty_length_pos Hs).
Qed.

Lemma splitTextIntoChunks_delimiterFree txt n :
  delimiterFree txt ->
  splitTextIntoChunks txt n
  = match trim txt with
    | [] => []
    | _ => [mkChunk 0 (trim txt)]
    end.
Proof.
  intros Hfree. unfold splitTextIntoChunks.
  destruct txt as [|c0 txt0] eqn:Etxt; [reflexivity|]. rewrite <- Etxt in *.
  unfold splitSentences. rewrite (@scan_delimiterFree txt Hfree).
  unfold flushRemainder, fallback.
  destruct (trim txt) as [|t ts] eqn:Etrim.
  - reflexivity.
  - cbn [length Nat.ltb Nat.leb andb app]. rewrite andb_false_r.
    cbn [length Nat.eqb andb app]. now apply groupSentences_single.
Qed.

End DelimiterFree.

(** * Claims about the segmenter *)

(** C1. The scenario text "Hi. OK. Go now! Next.\n" with two sentences per
    chunk gives the chunks [{0, "Hi. OK."}; {1, "Go now! Next."}]; and for
    every text and every group size [n >= 1] the chunk texts are the
    space-joined groups of a partition of the sentence list into consecutive
    groups, every group but the last of exactly [n] sentences and the last
    one of 1..n sentences. *)
Theorem C1_scenario_and_grouping (txt : jsstring) (n : Z) (Hn : (1 <= n)%Z) :
  splitTextIntoChunks scenarioText 2
  = [mkChunk 0 (of_string "Hi. OK."); mkChunk 1 (of_string "Go now! Next.")]
  /\
  exists groups : list (list jsstring),
    concat groups = splitSentences txt /\
    Forall (fun grp => Z.of_nat (length grp) = n) (removelast groups) /\
    (groups <> [] -> (1 <= Z.of_nat (length (last groups [])) <= n)%Z) /\
    map text (splitTextIntoChunks txt n) = map joinSpace groups.
Proof.
  split; [reflexivity|].
  destruct txt as [|c txt'] eqn:E.
  - exists []. split; [reflexivity|]. split; [constructor|].
    split; [congruence|reflexivity].
  - unfold splitTextIntoChunks. rewrite <- E.
    apply groupSentences_groups; [exact Hn | apply splitSentences_nonEmpty].
Qed.

(** C1 at the scenario text with two sentences per chunk. *)
Lemma C1_witness :
  (1 <= 2)%Z /\
  exists groups : list (list jsstring),
    concat groups = splitSentences scenarioText /\
    Forall (fun grp => Z.of_nat (length grp) = 2%Z) (removelast groups) /\
    (groups <> [] -> (1 <= Z.of_nat (length (last groups [])) <= 2)%Z) /\
    map text (splitTextIntoChunks scenarioText 2) = map joinSpace groups.
Proof.
  split; [lia|]. apply (@C1_scenario_and_grouping scenarioText 2). lia.
Defined.

(** C2. For every text and every group size (in particular every size >= 1)
    the ids of the returned chunks are 0, 1, ..., N-1 in order, and every
    chunk text is a non-empty string. *)
Theorem C2_ids_contiguous_texts_nonempty (txt : jsstring) (n : Z) :
  map id (splitTextIntoChunks txt n)
  = map Z.of_nat (seq 0 (length (splitTextIntoChunks txt n)))
  /\ Forall (fun c => text c <> []) (splitTextIntoChunks txt n).
Proof.
  unfold splitTextIntoChunks. destruct txt as [|c txt'] eqn:E.
  - split; constructor.
  - rewrite <- E. apply groupSentences_ids, splitSentences_nonEmpty.
Qed.

(** C3, as the spec states it, fails: a text of one space is non-empty and has
    no delimiter character, yet the segmenter returns no chunk for it; and for
    " ab", equally free of delimiters, the single chunk holds "ab", not the
    whole text. *)
Lemma C3_counterexample :
  (of_string " " <> [] /\
   delimiterFree (of_string " ") /\
   splitTextIntoChunks (of_string " ") 1 = [] /\
   ~ (exists c, splitTextIntoChunks (of_string " ") 1 = [c]
                /\ text c = of_string " ")) /\
  (delimiterFree (of_string " ab") /\
   splitTextIntoChunks (of_string " ab") 1 = [mkChunk 0 (of_string "ab")] /\
   of_string "ab" <> of_string " ab").
Proof.
  split.
  - split; [discriminate|]. split.
    + intros [|[|i]] c H; cbn in H; try discriminate.
      injection H as <-. repeat split; try discriminate.
    + split; [reflexivity|]. intros (c & H & _). discriminate H.
  - split; [|split; [reflexivity|discriminate]].
    intros [|[|[|[|i]]]] c H; cbn in H; try discriminate;
      injection H as <-; repeat split; discriminate.
Qed.

(** C3, amended. The segmenter is a total function; the empty string yields
    the empty sequence; a text without delimiter characters yields exactly one
    chunk, with id 0 and the trimmed text, when its trimmed form is non-empty,
    and the empty sequence when it is white space only. *)
Theorem C3_total_and_delimiter_free (txt : jsstring) (n : Z)
  (Hfree : delimiterFree txt) :
  (exists cs, splitTextIntoChunks txt n = cs) /\
  splitTextIntoChunks [] n = [] /\
  (trim txt <> [] -> splitTextIntoChunks txt n = [mkChunk 0 (trim txt)]) /\
  (trim txt = [] -> splitTextIntoChunks txt n = []).
Proof.
  split; [eexists; reflexivity|]. split; [reflexivity|].
  rewrite (@splitTextIntoChunks_delimiterFree txt n Hfree).
  destruct (trim txt); split; congruence.
Qed.

(** C3 (amended) at " a..b ": the dots are adjacent, the chunk is "a..b". *)
Lemma C3_witness :
  delimiterFree (of_string " a..b ") /\
  splitTextIntoChunks (of_string " a..b ") 5 = [mkChunk 0 (of_string "a..b")].
Proof.
  assert (H : delimiterFree (of_string " a..b ")).
  { intros [|[|[|[|[|[|[|i]]]]]]] c H; cbn in H; try discriminate;
      injection H as <-; (repeat split; try discriminate); intros _.
    - left. reflexivity.
    - right. split; [lia|reflexivity]. }
  split; [exact H|].
  apply (@C3_total_and_delimiter_free (of_string " a..b ") 5 H). discriminate.
Defined.

(** C4. A dot with another dot right after or right before it is not a
    sentence delimiter: the scanning loop only appends it to the buffer; and
    "Wait... really?" with one sentence per chunk is the single chunk
    "Wait... really?". *)
Theorem C4_ellipsis_preserved (txt : jsstring) (i : nat)
  (sentences : list jsstring) (buffer : jsstring)
  (Hdot : nth_error txt i = Some DOT)
  (Hadj : nth_error txt (i + 1) = Some DOT \/
          ((0 < i)%nat /\ nth_error txt (i - 1) = Some DOT)) :
  splitTextIntoChunks (of_string "Wait... really?") 1
  = [mkChunk 0 (of_string "Wait... really?")]
  /\ isDelimiterAt txt i DOT = false
  /\ scanStep txt (sentences, buffer) i = (sentences, buffer ++ [DOT]).
Proof.
  split; [reflexivity|].
  pose proof (@adjacent_dot_not_delimiter txt i Hadj) as H.
  split; [exact H|]. unfold scanStep. now rewrite Hdot, H.
Qed.

(** C4 at the second dot of "Wait... really?". *)
Lemma C4_witness :
  isDelimiterAt (of_string "Wait... really?") 5 DOT = false /\
  scanStep (of_string "Wait... really?") ([], of_string "Wait.") 5
  = ([], of_string "Wait." ++ [DOT]).
Proof.
  apply (@C4_ellipsis_preserved (of_string "Wait... really?") 5 [] (of_string "Wait.")).
  - reflexivity.
  - left. reflexivity.
Defined.

(** * The Reader: proofs *)

Import Reader.

Section ReaderFacts.


Lemma playChunk_guard_in_range cs index :
  (0 <= index < len cs)%Z -> ((index <? 0) || (index >=? len cs))%Z = false.
Proof.
  intros H. apply orb_false_iff. split.
  - apply Z.ltb_ge. lia.
  - rewrite Z.geb_leb. apply Z.leb_gt. lia.
Qed.

Lemma clamp_in_range (n i : Z) :
  (1 <= n)%Z -> (0 <= Z.max 0 (Z.min (n - 1) i) < n)%Z.
Proof. lia. Qed.


(** Which cells each operation leaves alone. *)

Lemma playChunk_currentPage cs st i a s :
  currentPage (playChunk cs st i a s) = currentPage s.
Proof. frame. Qed.

Lemma playChunk_currentChunkIndex cs st i a s :
  currentChunkIndex (playChunk cs st i a s) = currentChunkIndex s.
Proof. frame. Qed.

Lemma playChunk_settings cs st i a s :
  settings (playChunk cs st i a s) = settings s.
Proof. frame. Qed.

Lemma playChunk_fileContent cs st i a s :
  fileContent (playChunk cs st i a s) = fileContent s.
Proof. frame. Qed.

Lemma effectsPass_settings prev r :
  settings (effectsPass (Some prev) r) = settings r.
Proof. unfold effectsPass. frame. Qed.

Lemma autoSelect_sentencesPerChunk prev vs :
  sentencesPerChunk (autoSelect prev vs) = sentencesPerChunk prev.
Proof.
  unfold autoSelect. cbv zeta. destruct (_ || _); [|reflexivity].
  destruct (find isVi vs); [reflexivity|]. now destruct vs.
Qed.

(** No effect changes the group size, at the first render either. *)
Lemma effectsPass_sentencesPerChunk prev r :
  sentencesPerChunk (settings (effectsPass prev r)) = sentencesPerChunk (settings r).
Proof.
  destruct prev as [p|]; [now rewrite effectsPass_settings|].
  unfold effectsPass, changed. unfold_ops.
  split_cases; cbn [settings setIsSettingUpdate emit setVisibleRange setChunks
                      setCurrentChunkIndex setSettings setCurrentPage];
    apply autoSelect_sentencesPerChunk.
Qed.

Lemma effectsPass_fileContent prev r : fileContent (effectsPass prev r) = fileContent r.
Proof. unfold effectsPass. frame. Qed.

Lemma effectsPass_readerState prev r : readerState (effectsPass prev r) = readerState r.
Proof.
  unfold effectsPass. unfold_ops.
  destruct (readerState r) eqn:E; cbv beta iota; split_cases; cbn; congruence.
Qed.

Lemma commit_readerState prev r : readerState (commit prev r) = readerState r.
Proof. unfold commit. now rewrite !effectsPass_readerState. Qed.





Lemma effectsPass_currentChunkIndex prev r :
  initCondition prev r = false ->
  currentChunkIndex (effectsPass (Some prev) r) = currentChunkIndex r.
Proof.
  unfold initCondition, effectsPass, changed. intros ->.
  unfold_ops. split_cases; reflexivity.
Qed.

Lemma effectsPass_currentPage prev r :
  currentPage (effectsPass (Some prev) r)
  = if (currentChunkIndex prev =? currentChunkIndex r)%Z
    then currentPage r
    else (currentChunkIndex r / ITEMS_PER_PAGE)%Z.
Proof.
  unfold effectsPass, changed.
  destruct (currentChunkIndex prev =? currentChunkIndex r)%Z; cbn [negb];
    unfold_ops; split_cases; reflexivity.
Qed.

Lemma jsstring_eqb_refl a : jsstring_eqb a a = true.
Proof. unfold jsstring_eqb. now destruct (list_eq_dec N.eq_dec a a). Qed.

Lemma initCondition_same_size prev r :
  fileContent r = fileContent prev ->
  sentencesPerChunk (settings r) = sentencesPerChunk (settings prev) ->
  initCondition prev r = false.
Proof.
  intros H1 H2. unfold initCondition.
  now rewrite H1, H2, jsstring_eqb_refl, Z.eqb_refl.
Qed.

Lemma initCondition_same prev r :
  fileContent r = fileContent prev -> settings r = settings prev ->
  initCondition prev r = false.
Proof.
  intros H1 H2. apply initCondition_same_size; [exact H1 | now rewrite H2].
Qed.

(** Without a change of text or group size, the renders that follow an
    update leave the index alone. *)
Lemma commit_currentChunkIndex prev r :
  fileContent r = fileContent prev -> settings r = settings prev ->
  currentChunkIndex (commit prev r) = currentChunkIndex r.
Proof.
  intros Hfc Hst. unfold commit.
  rewrite effectsPass_currentChunkIndex.
  - apply effectsPass_currentChunkIndex. now apply initCondition_same.
  - apply initCondition_same.
    + apply effectsPass_fileContent.
    + apply effectsPass_settings.
Qed.

(** Whenever a committed update leaves the index different from what it was,
    the page cell holds the page of the new index. *)
Lemma commit_page_follows_index prev r :
  currentChunkIndex (commit prev r) <> currentChunkIndex prev ->
  currentPage (commit prev r)
  = (currentChunkIndex (commit prev r) / ITEMS_PER_PAGE)%Z.
Proof.
  unfold commit. set (s2 := effectsPass (Some prev) r).
  assert (Hinit : initCondition r s2 = false).
  { apply initCondition_same; unfold s2.
    - apply effectsPass_fileContent.
    - apply effectsPass_settings. }
  rewrite (@effectsPass_currentChunkIndex r s2 Hinit), effectsPass_currentPage.
  intros Hne. destruct (currentChunkIndex r =? currentChunkIndex s2)%Z eqn:E; [|reflexivity].
  apply Z.eqb_eq in E. unfold s2 at 1. rewrite effectsPass_currentPage.
  destruct (currentChunkIndex prev =? currentChunkIndex r)%Z eqn:E';
    [apply Z.eqb_eq in E'; congruence | now rewrite E].
Qed.


Lemma effectsPass_first_currentPage r :
  currentPage (effectsPass None r) = (currentChunkIndex r / ITEMS_PER_PAGE)%Z.
Proof.
  unfold effectsPass, changed. unfold_ops. split_cases; reflexivity.
Qed.

(** After mounting, the page cell holds the page of the current index. *)
Lemma mount_page content st idx vs :
  currentPage (mount content st idx vs)
  = (currentChunkIndex (mount content st idx vs) / ITEMS_PER_PAGE)%Z.
Proof.
  unfold mount.
  set (r := mkState content [] idx IDLE st None 0 (0%Z, 0%Z) (idx / ITEMS_PER_PAGE)%Z
              false None (WebSpeech.mkSynth [] vs false) []).
  set (s1 := effectsPass None r).
  assert (Hinit : initCondition r s1 = false).
  { apply initCondition_same_size; unfold s1.
    - apply effectsPass_fileContent.
    - apply effectsPass_sentencesPerChunk. }
  rewrite (@effectsPass_currentChunkIndex r s1 Hinit), effectsPass_currentPage.
  destruct (currentChunkIndex r =? currentChunkIndex s1)%Z eqn:E; [|reflexivity].
  apply Z.eqb_eq in E. rewrite <- E. apply effectsPass_first_currentPage.
Qed.

(** While the setting-update flag is raised, a render in which only the
    index changed records no save. *)
Lemma raised_flag_skips_save prev r :
  isSettingUpdate r = true ->
  currentChunkIndex prev <> currentChunkIndex r ->
  settings r = settings prev ->
  fileContent r = fileContent prev ->
  saves (effectsPass (Some prev) r) = saves r.
Proof.
  intros Hflag Hidx Hst Hfc. unfold effectsPass, changed.
  rewrite Hst, Hfc, jsstring_eqb_refl, !Z.eqb_refl, String.eqb_refl.
  replace (Qeq_bool (playbackRate (settings prev)) (playbackRate (settings prev)))
    with true by (symmetry; apply Qeq_bool_iff; reflexivity).
  apply Z.eqb_neq in Hidx. rewrite Hidx. cbn [negb orb].
  unfold pageEffect, viewportEffect, indexSaveEffect. cbn.
  rewrite Hflag. reflexivity.
Qed.


(** Preservation of the invariant. *)

Lemma Inv_frame base s s' :
  WebSpeech.queue (synth s') = WebSpeech.queue (synth s) ->
  progressInterval s' = progressInterval s ->
  chunkProgress s' = chunkProgress s ->
  Inv base s -> Inv base s'.
Proof.
  unfold Inv, queueOK, timerOK, progressFrom. intros -> -> ->. tauto.
Qed.

Lemma Inv_reset base s' :
  Forall utteranceOK (WebSpeech.queue (synth s')) ->
  chunkProgress s' = 0 \/ (chunkProgress s' = 100 /\ progressInterval s' = None) ->
  Inv base s'.
Proof.
  unfold Inv, queueOK, timerOK, progressFrom. intros Hq [H0 | [H100 Ht]].
  - rewrite H0. repeat split; auto. intros _. discriminate.
  - rewrite H100, Ht. repeat split; auto. congruence.
Qed.

Lemma playChunk_Inv base cs st index autoPlay s :
  Inv base s -> Inv base (playChunk cs st index autoPlay s).
Proof.
  intros H. unfold playChunk.
  destruct ((index <? 0) || (index >=? len cs))%Z; [exact H|].
  destruct H as (Hq & _ & _). unfold queueOK in Hq.
  apply Inv_reset.
  - unfold_ops.
    destruct autoPlay; cbn; destruct (progressInterval s) eqn:E; cbn;
      try apply Forall_app; repeat split; try assumption;
      repeat constructor; cbn; eauto.
  - left. unfold_ops.
    destruct autoPlay; cbn; destruct (progressInterval s) eqn:E; reflexivity.
Qed.

Lemma handleStop_Inv base s : Inv base s -> Inv base (handleStop s).
Proof.
  intros _. apply Inv_reset.
  - unfold handleStop. unfold_ops. cbn. destruct (progressInterval s); constructor.
  - left. reflexivity.
Qed.

Lemma tickValue_le step prev : prev <= 95 -> tickValue step prev <= 95.
Proof.
  intros H. unfold tickValue. destruct (Qle_bool 95 prev); [exact H|].
  apply Q.le_min_l.
Qed.

Lemma tick_Inv base s :
  Inv base s -> queueOK (tick s) /\ timerOK (tick s).
Proof.
  intros (Hq & Ht & _). unfold tick.
  destruct (progressInterval s) as [st|] eqn:E; [|now split].
  split; [exact Hq|]. unfold timerOK. cbn. intros _.
  apply tickValue_le, Ht. congruence.
Qed.

Lemma invoke_OnEnd_Inv base cs st index error pct s :
  queueOK s -> Inv base (invoke (OnEnd cs st index) error pct s).
Proof.
  intros Hq. cbn [invoke].
  assert (H : Inv base (setChunkProgress 100 (clearProgressInterval s))).
  { apply Inv_reset.
    - unfold_ops. destruct (progressInterval s); exact Hq.
    - right. unfold_ops. destruct (progressInterval s) eqn:E; cbn; auto. }
  destruct (index <? len cs - 1)%Z.
  - eapply Inv_frame; [| | |apply playChunk_Inv, H]; reflexivity.
  - eapply Inv_frame; [| | |exact H]; reflexivity.
Qed.

Lemma invoke_OnError_Inv base error pct s :
  Inv base s -> Inv base (invoke OnError error pct s).
Proof.
  intros (Hq & Ht & Hp). cbn [invoke]. unfold_ops.
  destruct (progressInterval s) eqn:E; repeat split; cbn; try assumption.
  unfold timerOK. cbn. congruence.
Qed.

Lemma dequeue_Inv base s : Inv base s -> Inv base (dequeue s).
Proof.
  intros (Hq & Ht & Hp). repeat split; try assumption.
  unfold queueOK, dequeue in *. cbn.
  destruct (WebSpeech.queue (synth s)); [constructor|].
  now inversion Hq.
Qed.

(** A browser event never reaches the progress closure. *)
Lemma dispatched_not_OnProgress ev s :
  queueOK s -> dispatched ev s <> Some OnProgress.
Proof.
  unfold queueOK, dispatched. intros Hq.
  destruct ev; try discriminate;
    destruct (WebSpeech.queue (synth s)) as [|u q]; try discriminate;
    inversion Hq as [|? ? ((cs & st & index & He) & Herr) _]; subst.
  - unfold WebSpeech.onend. rewrite He. discriminate.
  - unfold WebSpeech.onerror. rewrite Herr.
    destruct (String.eqb error "canceled" || String.eqb error "interrupted")%bool;
      discriminate.
Qed.

Lemma dispatch_Inv base ev error pct s :
  Inv base s ->
  Inv base match dispatched ev s with
           | Some cb => invoke cb error pct (dequeue s)
           | None => dequeue s
           end.
Proof.
  intros H. pose proof (@dispatched_not_OnProgress ev s (proj1 H)) as Hcb.
  apply (@dequeue_Inv base) in H.
  destruct (dispatched ev s) as [[cs st index| |]|]; try assumption.
  - apply invoke_OnEnd_Inv, H.
  - now apply invoke_OnError_Inv.
  - congruence.
Qed.

Lemma handle_Inv base ev s :
  ev <> Tick -> Inv base s -> Inv base (handle ev s).
Proof.
  intros Hev H. destruct ev; cbn [handle]; try congruence.
  - unfold handlePlayPause. destruct (readerState s);
      try (now apply playChunk_Inv); (eapply Inv_frame; [| | |exact H]; reflexivity).
  - now apply handleStop_Inv.
  - unfold handleNavigate. apply playChunk_Inv.
    eapply Inv_frame; [| | |apply handleStop_Inv, H]; reflexivity.
  - unfold handleJump. destruct target as [t|]; [|exact H].
    destruct ((0 <? t) && (t <=? len (chunks s)))%Z; [|exact H].
    apply playChunk_Inv.
    eapply Inv_frame; [| | |apply handleStop_Inv, H]; reflexivity.
  - unfold handleChunkClick. apply playChunk_Inv.
    eapply Inv_frame; [| | |apply handleStop_Inv, H]; reflexivity.
  - unfold changeChunkSize.
    destruct (Z.max 1 (Z.min 200 (sentencesPerChunk (settings s) + delta))
              =? sentencesPerChunk (settings s))%Z; [exact H|].
    eapply Inv_frame; [| | |exact H]; reflexivity.
  - unfold handleSaveSettings, floorDiv. cbv zeta.
    destruct (negb (sentencesPerChunk tempSettings =? sentencesPerChunk (settings s))%Z);
      [destruct (sentencesPerChunk tempSettings =? 0)%Z; [exact H|]|];
      (eapply Inv_frame; [| | |exact H]; reflexivity).
  - unfold handlePageChange. destruct ((_ >=? 0) && _)%Z; [|exact H].
    eapply Inv_frame; [| | |exact H]; reflexivity.
  - unfold handlePageChange. destruct ((_ >=? 0) && _)%Z; [|exact H].
    eapply Inv_frame; [| | |exact H]; reflexivity.
  - now apply dispatch_Inv.
  - now apply dispatch_Inv.
  - eapply Inv_frame; [| | |exact H]; reflexivity.
Qed.

Lemma effectsPass_Inv base prev r : Inv base r -> Inv base (effectsPass prev r).
Proof.
  intros H. unfold effectsPass.
  set (c1 := changed Z.eqb currentChunkIndex prev r).
  set (c2 := (changed jsstring_eqb fileContent prev r || _)%bool).
  set (c3 := (c1 || _)%bool).
  set (c4 := (changed Qeq_bool _ prev r || _ || _)%bool).
  assert (H1 : Inv base (if c1 then pageEffect r r else r)).
  { destruct c1; [|exact H]. eapply Inv_frame; [| | |exact H]; reflexivity. }
  set (s0 := if c1 then pageEffect r r else r) in *.
  assert (H1' : Inv base match prev with
                         | None => loadVoicesEffect r s0
                         | Some _ => s0
                         end).
  { destruct prev; [exact H1|]. eapply Inv_frame; [| | |exact H1]; reflexivity. }
  set (s1 := match prev with None => loadVoicesEffect r s0 | Some _ => s0 end) in *.
  assert (H2 : Inv base (if c2 then initChunksEffect r s1 else s1)).
  { destruct c2; [|exact H1']. unfold initChunksEffect.
    destruct (currentChunkIndex r >=? _)%Z;
      (eapply Inv_frame; [| | |exact H1']; reflexivity). }
  set (s2 := if c2 then initChunksEffect r s1 else s1) in *.
  assert (H3 : Inv base (if c3 then viewportEffect r s2 else s2)).
  { destruct c3; [|exact H2]. eapply Inv_frame; [| | |exact H2]; reflexivity. }
  set (s3 := if c3 then viewportEffect r s2 else s2) in *.
  assert (H4 : Inv base (if c4 then settingsEffect r s3 else s3)).
  { destruct c4; [|exact H3]. unfold settingsEffect, onSaveProgress.
    destruct (readerState r);
      try (eapply Inv_frame; [| | |exact H3]; reflexivity).
    eapply Inv_frame; [| | | apply playChunk_Inv ]; try reflexivity.
    eapply Inv_frame; [| | |exact H3]; reflexivity. }
  set (s4 := if c4 then settingsEffect r s3 else s3) in *.
  destruct c1; [|exact H4].
  unfold indexSaveEffect, onSaveProgress.
  destruct (negb (isSettingUpdate s4));
    (eapply Inv_frame; [| | |exact H4]; reflexivity).
Qed.

Lemma commit_Inv base prev r : Inv base r -> Inv base (commit prev r).
Proof.
  intros H. unfold commit. now apply effectsPass_Inv, effectsPass_Inv.
Qed.

Lemma Event_eq_Tick_dec (ev : Event) : {ev = Tick} + {ev <> Tick}.
Proof. destruct ev; (now left) || (right; discriminate). Qed.

Lemma reachable_Inv s : reachable s -> queueOK s /\ timerOK s.
Proof.
  induction 1 as [content st idx vs | ev s Hs [Hq Ht]].
  - unfold mount.
    match goal with
    | |- context [effectsPass None ?r] =>
        assert (H : Inv 0 r) by (repeat split; [constructor | discriminate | now left]);
        apply (@effectsPass_Inv 0 None r) in H;
        apply (@effectsPass_Inv 0 (Some r) (effectsPass None r)) in H
    end.
    destruct H as (Hq & Ht & _). now split.
  - assert (H : Inv (chunkProgress s) s) by (repeat split; auto; now left).
    destruct (Event_eq_Tick_dec ev) as [-> | Hev].
    + unfold step. cbn [handle].
      destruct (@tick_Inv _ s H) as [Hq' Ht'].
      assert (H' : Inv (chunkProgress (tick s)) (tick s))
        by (repeat split; auto; now left).
      apply (@commit_Inv _ s (tick s)) in H'.
      destruct H' as (Hq'' & Ht'' & _). now split.
    + apply (@handle_Inv _ ev s Hev) in H.
      apply (@commit_Inv _ s (handle ev s)) in H.
      destruct H as (Hq' & Ht' & _). now split.
Qed.


(** The progress simulation. *)

Lemma estimatedDurationMs_pos textLength rate :
  (0 < textLength)%nat -> 0 < rate -> 0 < estimatedDurationMs textLength rate.
Proof.
  intros HL Hr. unfold estimatedDurationMs, Qdiv.
  apply Qmult_lt_0_compat; [|now apply Qinv_lt_0_compat].
  apply Qmult_lt_0_compat; [|reflexivity].
  change 0 with (inject_Z 0). rewrite <- Zlt_Qlt. lia.
Qed.

Lemma progressStep_formula textLength rate :
  (0 < textLength)%nat -> 0 < rate ->
  progressStep textLength rate == (100 * 100) / estimatedDurationMs textLength rate.
Proof.
  intros HL Hr. pose proof (estimatedDurationMs_pos HL Hr) as He.
  unfold progressStep, updateInterval. field. lra.
Qed.

Lemma progressStep_pos textLength rate :
  (0 < textLength)%nat -> 0 < rate -> 0 < progressStep textLength rate.
Proof.
  intros HL Hr. pose proof (estimatedDurationMs_pos HL Hr) as He.
  unfold progressStep, updateInterval, Qdiv.
  apply Qmult_lt_0_compat; [|reflexivity].
  apply Qmult_lt_0_compat; [reflexivity|]. now apply Qinv_lt_0_compat.
Qed.

Lemma tickValue_min step prev :
  prev <= 95 -> 0 <= step -> tickValue step prev == Qmin 95 (prev + step).
Proof.
  intros Hp Hs. unfold tickValue. destruct (Qle_bool 95 prev) eqn:E; [|reflexivity].
  apply Qle_bool_iff in E.
  destruct (Q.min_spec 95 (prev + step)) as [[H1 H2] | [H1 H2]]; lra.
Qed.

Lemma tick_iter_timer n s step :
  progressInterval s = Some step ->
  progressInterval (Nat.iter n tick s) = Some step.
Proof.
  intros H. induction n as [|n IH]; [exact H|].
  change (Nat.iter (S n) tick s) with (tick (Nat.iter n tick s)).
  unfold tick at 1. now rewrite IH.
Qed.

Lemma tick_iter_step n s step :
  progressInterval s = Some step ->
  chunkProgress (Nat.iter (S n) tick s)
  = tickValue step (chunkProgress (Nat.iter n tick s)).
Proof.
  intros H. change (Nat.iter (S n) tick s) with (tick (Nat.iter n tick s)).
  unfold tick at 1. now rewrite (@tick_iter_timer n s step H).
Qed.

Lemma tick_iter_closed_form n s step :
  progressInterval s = Some step -> chunkProgress s == 0 -> 0 <= step ->
  chunkProgress (Nat.iter n tick s) == Qmin 95 (inject_Z (Z.of_nat n) * step).
Proof.
  intros Ht H0 Hs. induction n as [|n IH].
  - change (Nat.iter 0 tick s) with s. cbn [Z.of_nat]. change (inject_Z 0) with 0.
    destruct (Q.min_spec 95 (0 * step)) as [[H1 H2] | [H1 H2]]; lra.
  - rewrite (@tick_iter_step n s step Ht).
    assert (Hn : 0 <= inject_Z (Z.of_nat n)).
    { change 0 with (inject_Z 0). rewrite <- Zle_Qle. lia. }
    assert (Hle : chunkProgress (Nat.iter n tick s) <= 95).
    { destruct (Q.min_spec 95 (inject_Z (Z.of_nat n) * step)) as [[H1 H2] | [H1 H2]]; lra. }
    pose proof (@tickValue_min step _ Hle Hs) as Hv.
    rewrite Nat2Z.inj_succ. unfold Z.succ. rewrite inject_Z_plus.
    change (inject_Z 1) with 1.
    set (N := inject_Z (Z.of_nat n)) in *.
    set (p := chunkProgress (Nat.iter n tick s)) in *.
    assert (Hmul : (N + 1) * step == N * step + step) by ring.
    destruct (Q.min_spec 95 (N * step)) as [[H1 H2] | [H1 H2]];
    destruct (Q.min_spec 95 (p + step)) as [[H3 H4] | [H3 H4]];
    destruct (Q.min_spec 95 ((N + 1) * step)) as [[H5 H6] | [H5 H6]];
    lra.
Qed.

Lemma playChunk_starts_timer cs st index autoPlay s :
  (0 <= index < len cs)%Z ->
  progressInterval (playChunk cs st index autoPlay s)
  = Some (progressStep (length (chunkText cs index)) (playbackRate st)) /\
  chunkProgress (playChunk cs st index autoPlay s) = 0 /\
  readerState (playChunk cs st index autoPlay s) = PLAYING.
Proof.
  intros H. unfold playChunk. rewrite (@playChunk_guard_in_range cs index H).
  unfold_ops. destruct autoPlay; cbn; destruct (progressInterval s); cbn; auto.
Qed.

Lemma playChunk_trace cs st index autoPlay s :
  exists tail, trace (playChunk cs st index autoPlay s) = trace s ++ tail.
Proof.
  unfold playChunk. destruct ((index <? 0) || (index >=? len cs))%Z.
  - exists []. now rewrite app_nil_r.
  - unfold_ops. destruct autoPlay; cbn; destruct (progressInterval s); cbn;
      rewrite <- !app_assoc; eexists; reflexivity.
Qed.

Lemma invoke_OnEnd_reports_100 cs st index error pct s :
  exists tail,
    trace (invoke (OnEnd cs st index) error pct s) = trace s ++ AProgress 100 :: tail.
Proof.
  cbn [invoke].
  assert (H : trace (setChunkProgress 100 (clearProgressInterval s))
              = trace s ++ [AProgress 100]).
  { unfold_ops. now destruct (progressInterval s). }
  destruct (index <? len cs - 1)%Z.
  - destruct (@playChunk_trace cs st
                (currentChunkIndex (setChunkProgress 100 (clearProgressInterval s)) + 1)
                true (setChunkProgress 100 (clearProgressInterval s))) as [tail Ht].
    exists tail. cbn [trace setCurrentChunkIndex]. rewrite Ht, H, <- app_assoc. reflexivity.
  - exists []. cbn [trace setReaderState]. exact H.
Qed.

Lemma invoke_OnEnd_last cs st index error pct s :
  (index <? len cs - 1)%Z = false ->
  chunkProgress (invoke (OnEnd cs st index) error pct s) = 100 /\
  progressInterval (invoke (OnEnd cs st index) error pct s) = None /\
  readerState (invoke (OnEnd cs st index) error pct s) = IDLE.
Proof.
  intros H. cbn [invoke]. rewrite H. unfold_ops.
  destruct (progressInterval s) eqn:E; cbn; auto.
Qed.


Lemma run_reachable evs s : reachable s -> reachable (run evs s).
Proof.
  revert s. induction evs as [|ev evs IH]; intros s H; [exact H|].
  cbn [run fold_left]. apply IH. now constructor.
Qed.

Lemma step_progress_provenance ev r :
  queueOK r -> timerOK r ->
  chunkProgress (step ev r) = chunkProgress r \/
  chunkProgress (step ev r) = 0 \/
  chunkProgress (step ev r) = 100 \/
  (ev = Tick /\ exists st, progressInterval r = Some st /\
                 chunkProgress (step ev r) = tickValue st (chunkProgress r)).
Proof.
  intros Hq Ht.
  assert (H : Inv (chunkProgress r) r) by (repeat split; auto; now left).
  destruct (Event_eq_Tick_dec ev) as [-> | Hev].
  - destruct (@tick_Inv _ r H) as [Hq' Ht'].
    assert (H' : Inv (chunkProgress (tick r)) (tick r))
      by (repeat split; auto; now left).
    apply (@commit_Inv _ r (tick r)) in H'.
    destruct H' as (_ & _ & [Hp | [Hp | Hp]]); auto.
    change (chunkProgress (step Tick r) = chunkProgress (tick r)) in Hp.
    unfold tick in Hp. destruct (progressInterval r) as [st|] eqn:E.
    + right. right. right. split; [reflexivity|]. exists st. split; [reflexivity|].
      exact Hp.
    + now left.
  - apply (@handle_Inv _ ev r Hev) in H.
    apply (@commit_Inv _ r (handle ev r)) in H.
    destruct H as (_ & _ & [Hp | [Hp | Hp]]); auto.
Qed.

End ReaderFacts.

Section CommitFacts.

Lemma Qeq_bool_refl q : Qeq_bool q q = true.
Proof. apply Qeq_bool_iff. reflexivity. Qed.

(** A render in which no dependency of any effect changed runs no effect. *)
Lemma effectsPass_same prev r :
  currentChunkIndex r = currentChunkIndex prev ->
  fileContent r = fileContent prev ->
  settings r = settings prev ->
  len (chunks r) = len (chunks prev) ->
  effectsPass (Some prev) r = r.
Proof.
  intros Hi Hf Hs Hl. unfold effectsPass, changed.
  now rewrite Hi, Hf, Hs, Hl, jsstring_eqb_refl, !Z.eqb_refl, String.eqb_refl, Qeq_bool_refl.
Qed.

Lemma commit_same prev r :
  currentChunkIndex r = currentChunkIndex prev ->
  fileContent r = fileContent prev ->
  settings r = settings prev ->
  len (chunks r) = len (chunks prev) ->
  commit prev r = r.
Proof.
  intros Hi Hf Hs Hl. unfold commit.
  rewrite (@effectsPass_same prev r Hi Hf Hs Hl). now apply effectsPass_same.
Qed.

(** A render in which only the index changed runs the page, viewport and
    index-save effects. *)
Lemma effectsPass_index_only prev r :
  currentChunkIndex r <> currentChunkIndex prev ->
  fileContent r = fileContent prev ->
  settings r = settings prev ->
  effectsPass (Some prev) r = indexSaveEffect r (viewportEffect r (pageEffect r r)).
Proof.
  intros Hi Hf Hs. unfold effectsPass, changed.
  rewrite Hf, Hs, jsstring_eqb_refl, !Z.eqb_refl, String.eqb_refl, Qeq_bool_refl.
  replace (currentChunkIndex prev =? currentChunkIndex r)%Z with false
    by (symmetry; apply Z.eqb_neq; congruence).
  reflexivity.
Qed.

Lemma commit_index_only prev r :
  currentChunkIndex r <> currentChunkIndex prev ->
  fileContent r = fileContent prev ->
  settings r = settings prev ->
  commit prev r = indexSaveEffect r (viewportEffect r (pageEffect r r)).
Proof.
  intros Hi Hf Hs. unfold commit. rewrite (@effectsPass_index_only prev r Hi Hf Hs).
  apply effectsPass_same;
    unfold indexSaveEffect, viewportEffect, pageEffect, onSaveProgress;
    destruct (negb _); reflexivity.
Qed.

End CommitFacts.

Section StepFacts.

Lemma handleStop_currentPage s : currentPage (handleStop s) = currentPage s.
Proof. unfold handleStop. frame. Qed.

Lemma handleStop_currentChunkIndex s :
  currentChunkIndex (handleStop s) = currentChunkIndex s.
Proof. unfold handleStop. frame. Qed.

Lemma invoke_currentPage cb error pct s :
  currentPage (invoke cb error pct s) = currentPage s.
Proof.
  destruct cb as [cs st index| |]; cbn [invoke].
  - destruct (index <? len cs - 1)%Z; cbn [currentPage setCurrentChunkIndex setReaderState];
      rewrite ?playChunk_currentPage; unfold clearProgressInterval;
      destruct (progressInterval s); reflexivity.
  - unfold clearProgressInterval. destruct (progressInterval s); reflexivity.
  - reflexivity.
Qed.

(** Only the two page commands write the page cell from a handler. *)
Lemma handle_currentPage ev r :
  ev <> PrevPage -> ev <> NextPage -> currentPage (handle ev r) = currentPage r.
Proof.
  intros Hp Hn. destruct ev; cbn [handle]; try congruence.
  - unfold handlePlayPause. destruct (readerState r);
      rewrite ?playChunk_currentPage; reflexivity.
  - apply handleStop_currentPage.
  - unfold handleNavigate. rewrite playChunk_currentPage. apply handleStop_currentPage.
  - unfold handleJump. destruct target as [t|]; [|reflexivity].
    destruct ((0 <? t) && (t <=? len (chunks r)))%Z; [|reflexivity].
    rewrite playChunk_currentPage. apply handleStop_currentPage.
  - unfold handleChunkClick. rewrite playChunk_currentPage. apply handleStop_currentPage.
  - unfold changeChunkSize. cbv zeta. now destruct (_ =? _)%Z.
  - unfold handleSaveSettings, floorDiv. cbv zeta.
    destruct (negb _); [destruct (sentencesPerChunk tempSettings =? 0)%Z|]; reflexivity.
  - unfold tick. now destruct (progressInterval r).
  - destruct (dispatched SpeechEnd r); [now rewrite invoke_currentPage|reflexivity].
  - destruct (dispatched (SpeechError error) r);
      [now rewrite invoke_currentPage|reflexivity].
  - reflexivity.
Qed.

Lemma second_pass_index prev r :
  currentChunkIndex (commit prev r) = currentChunkIndex (effectsPass (Some prev) r).
Proof.
  unfold commit. apply effectsPass_currentChunkIndex.
  apply initCondition_same_size.
  - apply effectsPass_fileContent.
  - apply effectsPass_sentencesPerChunk.
Qed.

(** The page cell after an update and its renders: it is the cell as the
    update left it when the index moved neither in the update nor in an
    effect, and the page of the final index otherwise. *)
Lemma commit_currentPage prev r :
  currentPage (commit prev r)
  = if ((currentChunkIndex r =? currentChunkIndex prev)
        && (currentChunkIndex (commit prev r) =? currentChunkIndex r))%Z
    then currentPage r
    else (currentChunkIndex (commit prev r) / ITEMS_PER_PAGE)%Z.
Proof.
  rewrite second_pass_index. unfold commit.
  set (s1 := effectsPass (Some prev) r).
  rewrite effectsPass_currentPage. unfold s1 at 2. rewrite effectsPass_currentPage.
  fold s1. rewrite (Z.eqb_sym (currentChunkIndex s1) (currentChunkIndex r)).
  rewrite (Z.eqb_sym (currentChunkIndex r) (currentChunkIndex prev)).
  destruct (currentChunkIndex r =? currentChunkIndex s1)%Z eqn:E1;
    destruct (currentChunkIndex prev =? currentChunkIndex r)%Z eqn:E2;
    cbn [andb]; try reflexivity.
  apply Z.eqb_eq in E1. now rewrite E1.
Qed.



End StepFacts.

(** * Claims about the playback controller *)




(** C8. [changeChunkSize(delta)] clamps the new size to [1, 200]; when the
    clamped size equals the old one nothing changes; otherwise the settings
    take the new size (all other fields kept) and the current index becomes
    [floor(currentIndex * oldSize / newSize)]. *)
Theorem C8_changeChunkSize (r : State) (delta : Z) :
  let oldSize := sentencesPerChunk (settings r) in
  let newSize := Z.max 1 (Z.min 200 (oldSize + delta)) in
  let r' := changeChunkSize delta r in
  (1 <= newSize <= 200)%Z /\
  if (newSize =? oldSize)%Z then r' = r
  else
    sentencesPerChunk (settings r') = newSize /\
    playbackRate (settings r') = playbackRate (settings r) /\
    volume (settings r') = volume (settings r) /\
    webSpeechVoiceURI (settings r') = webSpeechVoiceURI (settings r) /\
    viewMode (settings r') = viewMode (settings r) /\
    currentChunkIndex r' = (currentChunkIndex r * oldSize / newSize)%Z /\
    (currentChunkIndex r' * newSize <= currentChunkIndex r * oldSize
     < (currentChunkIndex r' + 1) * newSize)%Z.
Proof.
  intros oldSize newSize r'. split; [lia|].
  unfold r', changeChunkSize. fold oldSize. fold newSize.
  destruct (newSize =? oldSize)%Z; [reflexivity|]. cbn.
  repeat split; try reflexivity.
  - rewrite Z.mul_comm. apply Z.mul_div_le. lia.
  - pose proof (Z.mod_pos_bound (currentChunkIndex r * oldSize) newSize ltac:(lia)).
    pose proof (Z.div_mod (currentChunkIndex r * oldSize) newSize ltac:(lia)).
    nia.
Qed.

Example changeChunkSize_example :
  currentChunkIndex (changeChunkSize 1 (setCurrentChunkIndex 7 demoReader)) = 3%Z /\
  sentencesPerChunk (settings (changeChunkSize 1 (setCurrentChunkIndex 7 demoReader))) = 2%Z /\
  changeChunkSize (-1) demoReader = demoReader.
Proof. repeat split; reflexivity. Qed.

(** C6. The code does not save every change of the durable pair exactly
    once. Playing chunk 0 of three, a settings edit (rate 1 to 1.5) is saved
    once and leaves the setting-update flag raised; the following
    auto-advance from chunk 0 to chunk 1 is then not saved at all. *)
Theorem C6_index_change_after_settings_edit_not_saved :
  let s1 := step PlayPause demoReader in
  let s2 := step (SaveSettings fasterSettings) s1 in
  let s3 := step SpeechEnd s2 in
  readerState s1 = PLAYING /\
  length (saves s2) = S (length (saves s1)) /\
  isSettingUpdate s2 = true /\
  currentChunkIndex s2 = 0%Z /\
  currentChunkIndex s3 = 1%Z /\
  saves s3 = saves s2.
Proof. vm_compute. repeat split. Qed.

(** C9, as the spec states it, fails: in paginated mode, playing chunk 49 of
    sixty (page 0), the completion of the chunk advances the index to 50 and
    the displayed page moves to page 1 without any page command. *)
Lemma C9_counterexample :
  let s1 := step PlayPause longReader in
  let s2 := step SpeechEnd s1 in
  viewMode (settings s1) = paginated /\
  currentChunkIndex s1 = 49%Z /\ currentPage s1 = 0%Z /\
  currentChunkIndex s2 = 50%Z /\ currentPage s2 = 1%Z /\
  displayedPage_v1 s1 = 0%Z /\ displayedPage_v1 s2 = 1%Z.
Proof. vm_compute. repeat split. Qed.

(** C9, amended. With the page size fixed at 50, the displayed page changes
    only in two ways. A manual page command moves it by one when the new page
    is within [0, totalPages) and leaves it otherwise, and changes nothing
    else, the index included. And the page follows the current chunk index:
    at mount, and after every transition through which the index changes,
    it is [floor(index / 50)]. For every event that is not a page command,
    the page after the transition is the page before it when the index moved
    neither in the handler nor in an effect, and [floor(index / 50)] of the
    final index otherwise. *)
Theorem C9_page_follows_index (ev other : Event) (r r' : State)
  (Hmoved : currentChunkIndex (step ev r) <> currentChunkIndex r)
  (Hother : other <> PrevPage /\ other <> NextPage) :
  let page p s := if ((p >=? 0) && (p <? totalPages s))%Z then p else currentPage s in
  ITEMS_PER_PAGE = 50%Z /\
  currentPage (step ev r) = (currentChunkIndex (step ev r) / 50)%Z /\
  (forall content st idx vs,
     currentPage (mount content st idx vs)
     = (currentChunkIndex (mount content st idx vs) / 50)%Z) /\
  (step PrevPage r' = handlePageChange (currentPage r' - 1) r' /\
   step NextPage r' = handlePageChange (currentPage r' + 1) r' /\
   currentPage (step PrevPage r') = page (currentPage r' - 1)%Z r' /\
   currentPage (step NextPage r') = page (currentPage r' + 1)%Z r' /\
   step PrevPage r' = setCurrentPage (page (currentPage r' - 1)%Z r') r' /\
   step NextPage r' = setCurrentPage (page (currentPage r' + 1)%Z r') r') /\
  currentPage (step other r')
  = (if ((currentChunkIndex (handle other r') =? currentChunkIndex r')
         && (currentChunkIndex (step other r') =? currentChunkIndex (handle other r')))%Z
     then currentPage r'
     else (currentChunkIndex (step other r') / 50)%Z) /\
  (currentChunkIndex (handle other r') = currentChunkIndex r' ->
   currentChunkIndex (step other r') = currentChunkIndex r' ->
   currentPage (step other r') = currentPage r').
Proof.
  intros page.
  assert (Hcommand : forall p,
            commit r' (handlePageChange p r') = handlePageChange p r' /\
            currentPage (handlePageChange p r') = page p r' /\
            handlePageChange p r' = setCurrentPage (page p r') r').
  { intros p. unfold handlePageChange, page.
    destruct ((p >=? 0) && (p <? totalPages r'))%Z.
    - split; [now apply commit_same|]. now split.
    - split; [now apply commit_same|]. split; [reflexivity|].
      now destruct r'. }
  assert (Hexact : currentPage (step other r')
            = (if ((currentChunkIndex (handle other r') =? currentChunkIndex r')
                   && (currentChunkIndex (step other r')
                       =? currentChunkIndex (handle other r')))%Z
               then currentPage r'
               else (currentChunkIndex (step other r') / 50)%Z)).
  { unfold step. rewrite commit_currentPage.
    now rewrite (@handle_currentPage other r' (proj1 Hother) (proj2 Hother)). }
  split; [reflexivity|]. split; [now apply commit_page_follows_index|].
  split; [apply mount_page|]. split.
  - destruct (Hcommand (currentPage r' - 1)%Z) as (A1 & B1 & C1).
    destruct (Hcommand (currentPage r' + 1)%Z) as (A2 & B2 & C2).
    unfold step. cbn [handle]. rewrite A1, A2. repeat split; assumption.
  - split; [exact Hexact|]. intros H1 H2. rewrite Hexact, H1.
    rewrite Z.eqb_refl, H2, Z.eqb_refl. reflexivity.
Qed.

(** C9 (amended) at the auto-advance from chunk 49 to chunk 50, which moves
    the page, and at a pause, which does not. *)
Lemma C9_witness :
  (currentChunkIndex (step SpeechEnd (step PlayPause longReader))
   <> currentChunkIndex (step PlayPause longReader) /\
   PlayPause <> PrevPage /\ PlayPause <> NextPage) /\
  currentPage (step SpeechEnd (step PlayPause longReader)) = 1%Z /\
  currentPage (step NextPage (step PlayPause longReader)) = 1%Z /\
  currentPage (step PrevPage (step PlayPause longReader)) = 0%Z /\
  currentPage (step PlayPause (step PlayPause longReader))
  = currentPage (step PlayPause longReader).
Proof.
  assert (H : currentChunkIndex (step SpeechEnd (step PlayPause longReader))
              <> currentChunkIndex (step PlayPause longReader))
    by (vm_compute; discriminate).
  assert (Ho : PlayPause <> PrevPage /\ PlayPause <> NextPage)
    by (split; discriminate).
  split; [tauto|].
  destruct (@C9_page_follows_index SpeechEnd PlayPause (step PlayPause longReader)
              (step PlayPause longReader) H Ho)
    as (_ & Hpage & _ & (_ & _ & Hprev & Hnext & _) & _ & Hframe).
  split; [rewrite Hpage; vm_compute; reflexivity|].
  split; [rewrite Hnext; vm_compute; reflexivity|].
  split; [rewrite Hprev; vm_compute; reflexivity|].
  apply Hframe; vm_compute; reflexivity.
Defined.

(** C7. Starting a chunk sets the progress to 0 and starts the timer with
    [stepPercent = (100 * 100) / estimatedDurationMs], where
    [estimatedDurationMs = textLength * 70 / playbackRate]; every tick moves
    the progress to [min(95, progress + stepPercent)], so after [n] ticks it
    is [min(95, n * stepPercent)], at most 95 and below 100; in every
    reachable state with a running timer the progress is below 100; and the
    completion callback reports exactly 100 before anything else (and leaves
    it at 100 when the chunk was the last one). *)
Theorem C7_simulated_progress
  (cs : list Chunk) (st : ReaderSettings) (index : Z) (autoPlay : bool)
  (s : State) (n : nat)
  (Hrange : (0 <= index < len cs)%Z)
  (Hrate : 0 < playbackRate st)
  (Htext : (0 < length (chunkText cs index))%nat) :
  let textLength := length (chunkText cs index) in
  let stepPercent := progressStep textLength (playbackRate st) in
  let started := playChunk cs st index autoPlay s in
  let ticked := Nat.iter n tick started in
  estimatedDurationMs textLength (playbackRate st)
  == inject_Z (Z.of_nat textLength) * 70 / playbackRate st /\
  stepPercent == (100 * 100) / estimatedDurationMs textLength (playbackRate st) /\
  progressInterval started = Some stepPercent /\
  chunkProgress started = 0 /\
  chunkProgress (tick ticked) == Qmin 95 (chunkProgress ticked + stepPercent) /\
  chunkProgress ticked == Qmin 95 (inject_Z (Z.of_nat n) * stepPercent) /\
  chunkProgress ticked <= 95 /\
  chunkProgress ticked < 100 /\
  (forall r, reachable r -> progressInterval r <> None -> chunkProgress r < 100) /\
  (forall t error pct, exists tail,
     trace (invoke (OnEnd cs st index) error pct t) = trace t ++ AProgress 100 :: tail) /\
  (forall t error pct, (index <? len cs - 1)%Z = false ->
     chunkProgress (invoke (OnEnd cs st index) error pct t) = 100 /\
     progressInterval (invoke (OnEnd cs st index) error pct t) = None).
Proof.
  intros textLength stepPercent started ticked.
  destruct (@playChunk_starts_timer cs st index autoPlay s Hrange) as (Htimer & Hzero & _).
  fold textLength in Htimer. fold stepPercent in Htimer. fold started in Htimer, Hzero.
  pose proof (@progressStep_pos textLength (playbackRate st) Htext Hrate) as Hpos.
  fold stepPercent in Hpos.
  assert (H0 : chunkProgress started == 0) by (rewrite Hzero; reflexivity).
  assert (Hstep : 0 <= stepPercent) by lra.
  pose proof (@tick_iter_closed_form n started stepPercent Htimer H0 Hstep) as Hclosed.
  fold ticked in Hclosed.
  assert (Hle : chunkProgress ticked <= 95).
  { destruct (Q.min_spec 95 (inject_Z (Z.of_nat n) * stepPercent)) as [[H1 H2] | [H1 H2]];
      lra. }
  split; [reflexivity|].
  split; [now apply progressStep_formula|].
  split; [exact Htimer|]. split; [exact Hzero|].
  split.
  { change (tick ticked) with (Nat.iter (S n) tick started).
    rewrite (@tick_iter_step n started stepPercent Htimer).
    now apply tickValue_min. }
  split; [exact Hclosed|]. split; [exact Hle|]. split; [lra|].
  split.
  { intros r Hr Hrun. destruct (@reachable_Inv r Hr) as [_ Ht].
    specialize (Ht Hrun). lra. }
  split.
  - intros t error pct. apply invoke_OnEnd_reports_100.
  - intros t error pct Hlast.
    destruct (@invoke_OnEnd_last cs st index error pct t Hlast) as (A & B & _).
    now split.
Qed.

(** C7 at chunk 0 of the three-chunk sample (four characters, rate 1). *)
Lemma C7_witness :
  ((0 <= 0 < len (chunks demoReader))%Z /\
   0 < playbackRate sampleSettings /\
   (0 < length (chunkText (chunks demoReader) 0))%nat) /\
  progressInterval (playChunk (chunks demoReader) sampleSettings 0 false demoReader)
  = Some (progressStep 4 1) /\
  chunkProgress
    (Nat.iter 3 tick (playChunk (chunks demoReader) sampleSettings 0 false demoReader))
  <= 95.
Proof.
  assert (H1 : (0 <= 0 < len (chunks demoReader))%Z)
    by (vm_compute; split; [discriminate | reflexivity]).
  assert (H2 : 0 < playbackRate sampleSettings) by reflexivity.
  assert (H3 : (0 < length (chunkText (chunks demoReader) 0))%nat)
    by (vm_compute; lia).
  split; [tauto|].
  destruct (@C7_simulated_progress (chunks demoReader) sampleSettings 0 false
              demoReader 3 H1 H2 H3) as (_ & _ & A & _ & _ & _ & B & _).
  split; [exact A | exact B].
Defined.

(** C10. [speakWebSpeech] does nothing with arguments past its seventh, so
    the progress closure that [playChunk] passes in eighth place is attached
    to no utterance: in every state reached from a mount, no utterance in the
    speech queue has it as a handler and no browser event calls it.
    Accordingly a transition leaves the displayed progress unchanged or sets
    it to 0 (start, stop), to 100 (completion callback), or, on a timer tick,
    to the simulated value. *)
Theorem C10_progress_callback_never_invoked
  (content : jsstring) (st : ReaderSettings) (idx : Z) (vs : list WebSpeech.Voice)
  (evs : list Event) (ev : Event) :
  let r := run evs (mount content st idx vs) in
  (forall (text : jsstring) (uri : string) (rate : Q) (vol : Z)
          (onEnd onError : Callback) (shouldCancel : bool)
          (extra : list Callback) (y : WebSpeech.SpeechSynthesis Callback),
     WebSpeech.speakWebSpeech text uri rate vol onEnd onError shouldCancel extra y
     = WebSpeech.speakWebSpeech text uri rate vol onEnd onError shouldCancel [] y
     /\ WebSpeech.onend (snd (WebSpeech.speakWebSpeech text uri rate vol onEnd onError
                                shouldCancel extra y)) = onEnd
     /\ forall error,
          WebSpeech.onerror (snd (WebSpeech.speakWebSpeech text uri rate vol onEnd
                                    onError shouldCancel extra y)) error
          = if (String.eqb error "canceled" || String.eqb error "interrupted")%bool
            then None else Some onError) /\
  Forall (fun u => WebSpeech.onend u <> OnProgress /\
                   forall error, WebSpeech.onerror u error <> Some OnProgress)
         (WebSpeech.queue (synth r)) /\
  dispatched ev r <> Some OnProgress /\
  (chunkProgress (step ev r) = chunkProgress r \/
   chunkProgress (step ev r) = 0 \/
   chunkProgress (step ev r) = 100 \/
   (ev = Tick /\ exists stepPercent,
      progressInterval r = Some stepPercent /\
      chunkProgress (step ev r) = tickValue stepPercent (chunkProgress r))).
Proof.
  intros r.
  assert (Hr : reachable r) by (apply run_reachable; constructor).
  destruct (@reachable_Inv r Hr) as [Hq Ht].
  split; [|split; [|split]].
  - intros. repeat split.
  - unfold queueOK in Hq. eapply Forall_impl; [|exact Hq].
    intros u ((cs & st' & index & He) & Herr). split.
    + unfold WebSpeech.onend. rewrite He. discriminate.
    + intros error. unfold WebSpeech.onerror. rewrite Herr.
      destruct (String.eqb error "canceled" || String.eqb error "interrupted")%bool;
        discriminate.
  - now apply dispatched_not_OnProgress.
  - now apply step_progress_provenance.
Qed.

Example C10_example :
  let r := run [PlayPause; Tick; Tick] demoReader in
  map (@WebSpeech.uOnEnd Callback) (WebSpeech.queue (synth r))
  = [OnEnd (chunks demoReader) sampleSettings 0] /\
  map (@WebSpeech.uOnError Callback) (WebSpeech.queue (synth r)) = [OnError] /\
  dispatched SpeechEnd r = Some (OnEnd (chunks demoReader) sampleSettings 0) /\
  dispatched (SpeechError "canceled") r = None /\
  dispatched (SpeechError "network") r = Some OnError.
Proof. vm_compute. repeat split. Qed.

(** * Further properties of the program *)

(** * Further properties of the segmenter *)

Section TrimFacts.

Lemma nonWhite_app a b : nonWhite (a ++ b) = nonWhite a ++ nonWhite b.
Proof. apply filter_app. Qed.

Lemma trimStart_nonWhite s : nonWhite (trimStart s) = nonWhite s.
Proof.
  induction s as [|c s IH]; [reflexivity|]. cbn [trimStart].
  destruct (isWhiteSpace c) eqn:E; [|reflexivity].
  rewrite IH. unfold nonWhite. cbn [filter]. now rewrite E.
Qed.

Lemma trimEnd_nonWhite s : nonWhite (trimEnd s) = nonWhite s.
Proof.
  unfold trimEnd, nonWhite. rewrite filter_rev.
  fold (nonWhite (trimStart (rev s))). rewrite trimStart_nonWhite.
  unfold nonWhite. now rewrite filter_rev, rev_involutive.
Qed.

Lemma trim_nonWhite s : nonWhite (trim s) = nonWhite s.
Proof. unfold trim. now rewrite trimEnd_nonWhite, trimStart_nonWhite. Qed.

Lemma nonWhite_nil_trimStart s : nonWhite s = [] -> trimStart s = [].
Proof.
  induction s as [|c s IH]; [reflexivity|]. unfold nonWhite. cbn [filter trimStart].
  destruct (isWhiteSpace c); cbn [negb]; [exact IH|discriminate].
Qed.

Lemma trim_nil_iff s : trim s = [] <-> nonWhite s = [].
Proof.
  split; intros H.
  - rewrite <- trim_nonWhite, H. reflexivity.
  - unfold trim. now rewrite (@nonWhite_nil_trimStart s H).
Qed.

Lemma nonWhite_nil_forallb s : nonWhite s = [] <-> forallb isWhiteSpace s = true.
Proof.
  induction s as [|c s IH]; [now split|]. unfold nonWhite in *.
  cbn [filter forallb]. destruct (isWhiteSpace c); cbn [negb andb]; [exact IH|].
  split; discriminate.
Qed.

Lemma trimStart_inked s : trimStart s <> [] -> startsInked (trimStart s).
Proof.
  induction s as [|c s IH]; [now intros []|]. cbn [trimStart].
  destruct (isWhiteSpace c) eqn:E; [exact IH|]. intros _. exact E.
Qed.

Lemma startsInked_trimStart s : startsInked s -> trimStart s = s.
Proof.
  destruct s as [|c s]; [now intros []|]. cbn. now intros ->.
Qed.

Lemma startsInked_app a b : startsInked a -> startsInked (a ++ b).
Proof. destruct a; [now intros []|auto]. Qed.

Lemma trimStart_snoc_inked x c :
  isWhiteSpace c = false -> trimStart (x ++ [c]) = trimStart x ++ [c].
Proof.
  intros Hc. induction x as [|d x IH]; cbn [app trimStart].
  - now rewrite Hc.
  - destruct (isWhiteSpace d); [exact IH|reflexivity].
Qed.

Lemma trimEnd_keeps_start s : startsInked s -> startsInked (trimEnd s).
Proof.
  destruct s as [|c s]; [now intros []|]. cbn [startsInked]. intros Hc.
  unfold trimEnd. cbn [rev]. rewrite (@trimStart_snoc_inked (rev s) c Hc), rev_app_distr.
  exact Hc.
Qed.

Lemma trim_edgesInked s : trim s <> [] -> edgesInked (trim s).
Proof.
  intros H. unfold trim in *.
  assert (Hs : trimStart s <> []).
  { intros E. apply H. now rewrite E. }
  split.
  - apply trimEnd_keeps_start, trimStart_inked, Hs.
  - unfold trimEnd in *. rewrite rev_involutive. apply trimStart_inked.
    intros E. apply H. now rewrite E.
Qed.

Lemma edgesInked_trim s : edgesInked s -> trim s = s.
Proof.
  intros [H1 H2]. unfold trim, trimEnd.
  rewrite (@startsInked_trimStart s H1), (@startsInked_trimStart (rev s) H2).
  apply rev_involutive.
Qed.

Lemma edgesInked_nonEmpty s : edgesInked s -> s <> [].
Proof. intros [H _] ->. exact H. Qed.

(** Joining with material in between keeps the outer edges. *)
Lemma edgesInked_join a m b : edgesInked a -> edgesInked b -> edgesInked (a ++ m ++ b).
Proof.
  intros [Ha _] [_ Hb]. split.
  - now apply startsInked_app.
  - rewrite !rev_app_distr, <- app_assoc. now apply startsInked_app.
Qed.

End TrimFacts.

Section SentenceFacts.

Lemma appendToLast_concat (l : list jsstring) suffix :
  l <> [] -> concat (appendToLast l suffix) = concat l ++ suffix.
Proof.
  intros Hl. unfold appendToLast.
  rewrite (app_removelast_last [] Hl) at 3.
  rewrite !concat_app. cbn [concat]. now rewrite !app_nil_r, app_assoc.
Qed.

Lemma appendToLast_Forall (P : jsstring -> Prop) (l : list jsstring) suffix :
  l <> [] -> Forall P l -> (forall s, P s -> P (s ++ suffix)) ->
  Forall P (appendToLast l suffix).
Proof.
  intros Hl Hall Hext. unfold appendToLast.
  rewrite (app_removelast_last [] Hl) in Hall. apply Forall_app in Hall.
  destruct Hall as [Hinit Hlast]. apply Forall_app. split; [exact Hinit|].
  inversion Hlast; subst. constructor; [|constructor]. now apply Hext.
Qed.

Lemma appendToLast_length (l : list jsstring) suffix :
  l <> [] -> length (appendToLast l suffix) = length l.
Proof.
  intros Hl. unfold appendToLast.
  rewrite (app_removelast_last [] Hl) at 3. now rewrite !length_app.
Qed.

Lemma length_pos_not_nil (A : Type) (l : list A) : (0 <? length l)%nat = true -> l <> [].
Proof. now destruct l. Qed.

Lemma length_ge3_not_nil (A : Type) (l : list A) : (3 <=? length l)%nat = true -> l <> [].
Proof. now destruct l. Qed.

(** Invariant of the scanning loop: the sentences pushed so far are trimmed
    at both ends and have at least three characters. *)
Lemma scanStep_sentences txt st i :
  Forall (fun s => edgesInked s /\ (3 <= length s)%nat) (fst st) ->
  Forall (fun s => edgesInked s /\ (3 <= length s)%nat) (fst (scanStep txt st i)).
Proof.
  destruct st as [sentences buffer]. unfold scanStep. cbn [fst]. intros H.
  destruct (nth_error txt i) as [char|]; [|exact H].
  destruct (isDelimiterAt txt i char); [|exact H].
  destruct (3 <=? length (trim (buffer ++ [char])))%nat eqn:E; [|exact H].
  cbn [fst]. apply Forall_app. split; [exact H|].
  constructor; [|constructor]. split.
  - apply trim_edgesInked. now apply length_ge3_not_nil.
  - now apply Nat.leb_le.
Qed.

Lemma scan_sentences txt :
  Forall (fun s => edgesInked s /\ (3 <= length s)%nat) (fst (scan txt)).
Proof.
  unfold scan. generalize (seq 0 (length txt)).
  assert (H : Forall (fun s => edgesInked s /\ (3 <= length s)%nat)
                (fst (@nil jsstring, @nil N))) by constructor.
  revert H. generalize (@nil jsstring, @nil N).
  intros st H idx. revert st H.
  induction idx as [|i idx IH]; intros st H; cbn [fold_left]; [exact H|].
  apply IH. now apply scanStep_sentences.
Qed.

(** Invariant of the scanning loop: no character other than white space has
    been dropped. *)
Lemma scan_prefix_ink txt n :
  (n <= length txt)%nat ->
  let st := fold_left (scanStep txt) (seq 0 n) ([], []) in
  nonWhite (concat (fst st) ++ snd st) = nonWhite (firstn n txt).
Proof.
  induction n as [|n IH]; intros Hn; [reflexivity|].
  rewrite seq_S, fold_left_app. cbn [fold_left Nat.add].
  specialize (IH ltac:(lia)). cbv zeta in IH.
  destruct (fold_left (scanStep txt) (seq 0 n) ([], [])) as [sentences buffer].
  cbn [fst snd] in IH. unfold scanStep.
  destruct (nth_error txt n) as [c|] eqn:Hc.
  - rewrite (@firstn_snoc_nth _ txt n c Hc), (nonWhite_app (firstn n txt) [c]), <- IH.
    destruct (isDelimiterAt txt n c);
      [destruct (3 <=? length (trim (buffer ++ [c])))%nat|]; cbn [fst snd];
      rewrite ?concat_app; cbn [concat];
      rewrite ?app_nil_r, ?nonWhite_app, ?trim_nonWhite, ?nonWhite_app, <- ?app_assoc;
      reflexivity.
  - apply nth_error_None in Hc. lia.
Qed.

Lemma scan_ink txt :
  nonWhite (concat (fst (scan txt)) ++ snd (scan txt)) = nonWhite txt.
Proof.
  unfold scan. rewrite (@scan_prefix_ink txt (length txt) (le_n _)).
  now rewrite firstn_all.
Qed.

(** The scanning loop pushes nothing before it resets the buffer, so with no
    sentence pushed the buffer is the whole text read so far. *)
Lemma scan_prefix_no_sentence txt n :
  (n <= length txt)%nat ->
  let st := fold_left (scanStep txt) (seq 0 n) ([], []) in
  fst st = [] -> snd st = firstn n txt.
Proof.
  induction n as [|n IH]; intros Hn; [reflexivity|].
  rewrite seq_S, fold_left_app. cbn [fold_left Nat.add].
  specialize (IH ltac:(lia)). cbv zeta in IH.
  destruct (fold_left (scanStep txt) (seq 0 n) ([], [])) as [sentences buffer].
  cbn [fst snd] in IH. unfold scanStep.
  destruct (nth_error txt n) as [c|] eqn:Hc.
  - rewrite (@firstn_snoc_nth _ txt n c Hc).
    destruct (isDelimiterAt txt n c);
      [destruct (3 <=? length (trim (buffer ++ [c])))%nat|]; cbn [fst snd]; intros E.
    + now destruct sentences.
    + now rewrite IH.
    + now rewrite IH.
  - apply nth_error_None in Hc. lia.
Qed.

Lemma fallback_unreachable txt :
  fallback txt (flushRemainder (scan txt)) = flushRemainder (scan txt).
Proof.
  unfold fallback.
  destruct (length (flushRemainder (scan txt)) =? 0)%nat eqn:E; [|reflexivity].
  cbn [andb]. destruct (0 <? length (trim txt))%nat eqn:E'; [|reflexivity].
  exfalso. apply Nat.eqb_eq in E. revert E. unfold flushRemainder.
  pose proof (@scan_prefix_no_sentence txt (length txt) (le_n _)) as Hbuf.
  cbv zeta in Hbuf. fold (scan txt) in Hbuf. rewrite firstn_all in Hbuf.
  destruct (scan txt) as [sentences buffer]. cbn [fst snd] in Hbuf.
  destruct sentences as [|s0 sentences].
  - rewrite (Hbuf eq_refl), E'. cbn [length Nat.ltb Nat.leb andb].
    rewrite andb_false_r. rewrite length_app. cbn. lia.
  - destruct (0 <? length (trim buffer))%nat; [|discriminate].
    destruct (length (trim buffer) <? 3)%nat; cbn [andb length Nat.ltb Nat.leb].
    + rewrite appendToLast_length by discriminate. discriminate.
    + rewrite length_app. cbn. lia.
Qed.

Lemma splitSentences_edgesInked txt : Forall edgesInked (splitSentences txt).
Proof.
  unfold splitSentences. rewrite fallback_unreachable.
  pose proof (scan_sentences txt) as H. unfold flushRemainder.
  destruct (scan txt) as [sentences buffer]. cbn [fst] in H.
  assert (H' : Forall edgesInked sentences).
  { eapply Forall_impl; [|exact H]. now intros s [Hs _]. }
  destruct (0 <? length (trim buffer))%nat eqn:E; [|exact H'].
  apply length_pos_not_nil in E.
  destruct ((length (trim buffer) <? 3)%nat && (0 <? length sentences)%nat) eqn:E2.
  - apply andb_true_iff in E2. destruct E2 as [_ E2]. apply length_pos_not_nil in E2.
    apply appendToLast_Forall; [exact E2 | exact H'|].
    intros s Hs. change (SPACE :: trim buffer) with ([SPACE] ++ trim buffer).
    apply edgesInked_join; [exact Hs|]. now apply trim_edgesInked.
  - apply Forall_app. split; [exact H'|]. constructor; [|constructor].
    now apply trim_edgesInked.
Qed.

Lemma splitSentences_min_length txt :
  length (splitSentences txt) <> 1%nat ->
  Forall (fun s => (3 <= length s)%nat) (splitSentences txt).
Proof.
  unfold splitSentences. rewrite fallback_unreachable.
  pose proof (scan_sentences txt) as H. unfold flushRemainder.
  destruct (scan txt) as [sentences buffer]. cbn [fst] in H.
  assert (H' : Forall (fun s => (3 <= length s)%nat) sentences).
  { eapply Forall_impl; [|exact H]. now intros s [_ Hs]. }
  destruct (0 <? length (trim buffer))%nat eqn:E; [|now intros _].
  destruct (length (trim buffer) <? 3)%nat eqn:E3; cbn [andb].
  - destruct (0 <? length sentences)%nat eqn:E2.
    + intros _. apply length_pos_not_nil in E2.
      apply appendToLast_Forall; [exact E2 | exact H'|].
      intros s Hs. rewrite length_app. lia.
    + destruct sentences; [|discriminate]. cbn. congruence.
  - intros _. apply Forall_app. split; [exact H'|]. constructor; [|constructor].
    apply Nat.ltb_ge in E3. exact E3.
Qed.

Lemma splitSentences_ink txt : nonWhite (concat (splitSentences txt)) = nonWhite txt.
Proof.
  unfold splitSentences. rewrite fallback_unreachable.
  pose proof (scan_ink txt) as H. unfold flushRemainder.
  destruct (scan txt) as [sentences buffer]. cbn [fst snd] in H.
  rewrite nonWhite_app in H.
  destruct (0 <? length (trim buffer))%nat eqn:E.
  - destruct ((length (trim buffer) <? 3)%nat && (0 <? length sentences)%nat) eqn:E2.
    + apply andb_true_iff in E2. destruct E2 as [_ E2]. apply length_pos_not_nil in E2.
      rewrite appendToLast_concat by exact E2.
      change (SPACE :: trim buffer) with ([SPACE] ++ trim buffer).
      rewrite !nonWhite_app, trim_nonWhite. exact H.
    + rewrite concat_app. cbn [concat].
      rewrite app_nil_r, nonWhite_app, trim_nonWhite. exact H.
  - assert (Hb : trim buffer = []).
    { destruct (trim buffer); [reflexivity|discriminate]. }
    apply trim_nil_iff in Hb. rewrite Hb, app_nil_r in H. exact H.
Qed.

End SentenceFacts.

Section GroupingFacts.

Variable n : Z.

(** A property of texts that joining by the loop's separator keeps. *)
Variable P : jsstring -> Prop.
Hypothesis P_join : forall a b, P a -> P b -> P (a ++ [SPACE] ++ b).

Lemma group_fold_Forall sentences g :
  Forall (fun c => P (text c)) (Segmenter.chunks g) ->
  currentChunkText g = [] \/ P (currentChunkText g) ->
  Forall P sentences ->
  Forall (fun c => P (text c)) (groupFinish (fold_left (groupStep n) sentences g)).
Proof.
  revert g. induction sentences as [|s rest IH]; intros g Hc Hcur Hall.
  - cbn [fold_left]. unfold groupFinish.
    destruct (0 <? length (currentChunkText g))%nat eqn:E; [|exact Hc].
    apply Forall_app. split; [exact Hc|]. constructor; [|constructor]. cbn [text].
    destruct Hcur as [Hcur | Hcur]; [|exact Hcur]. rewrite Hcur in E. discriminate.
  - inversion Hall as [|? ? Hs Hrest]; subst. cbn [fold_left].
    assert (Hnew : P (currentChunkText g
                      ++ (if (0 <? length (currentChunkText g))%nat then [SPACE] else [])
                      ++ s)).
    { destruct Hcur as [-> | Hcur]; [exact Hs|].
      destruct (currentChunkText g) eqn:E; [exact Hs|]. now apply P_join. }
    apply IH; [| |exact Hrest]; unfold groupStep;
      destruct (sentenceCount g + 1 >=? n)%Z; cbn [Segmenter.chunks currentChunkText]; auto.
    apply Forall_app. split; [exact Hc|]. now repeat constructor.
Qed.

Lemma groupSentences_Forall sentences :
  Forall P sentences -> Forall (fun c => P (text c)) (groupSentences sentences n).
Proof.
  intros H. unfold groupSentences. apply group_fold_Forall; [constructor|now left|exact H].
Qed.

Lemma group_fold_ink sentences g :
  nonWhite (concat (map text (groupFinish (fold_left (groupStep n) sentences g))))
  = nonWhite (concat (map text (Segmenter.chunks g)) ++ currentChunkText g)
    ++ nonWhite (concat sentences).
Proof.
  revert g. induction sentences as [|s rest IH]; intros g.
  - cbn [fold_left concat]. rewrite app_nil_r. unfold groupFinish.
    destruct (currentChunkText g) as [|c cur] eqn:E; cbn [length Nat.ltb Nat.leb].
    + now rewrite app_nil_r.
    + rewrite map_app, concat_app. cbn [map concat text]. now rewrite app_nil_r.
  - cbn [fold_left concat]. rewrite IH. unfold groupStep.
    destruct (sentenceCount g + 1 >=? n)%Z; cbn [Segmenter.chunks currentChunkText];
      rewrite ?map_app, ?concat_app; cbn [map concat text];
      rewrite ?app_nil_r, !nonWhite_app; cbn [app].
    all: rewrite <- ?app_assoc.
    all: destruct (0 <? length (currentChunkText g))%nat; reflexivity.
Qed.

End GroupingFacts.

Lemma group_fold_single_sentences n sentences g :
  (n <= 1)%Z -> currentChunkText g = [] -> sentenceCount g = 0%Z ->
  map text (groupFinish (fold_left (groupStep n) sentences g))
  = map text (Segmenter.chunks g) ++ sentences.
Proof.
  intros Hn. revert g. induction sentences as [|s rest IH]; intros g Hcur Hcnt.
  - cbn [fold_left]. unfold groupFinish. rewrite Hcur. cbn. now rewrite app_nil_r.
  - cbn [fold_left]. unfold groupStep at 2. rewrite Hcur, Hcnt.
    replace (0 + 1 >=? n)%Z with true by (symmetry; apply Z.geb_le; lia).
    rewrite IH by reflexivity. cbn [Segmenter.chunks length Nat.ltb Nat.leb app].
    rewrite map_app. cbn [map text]. now rewrite <- app_assoc.
Qed.

Lemma length_concat_uniform (A : Type) (k : Z) (groups : list (list A)) :
  Forall (fun grp => Z.of_nat (length grp) = k) groups ->
  Z.of_nat (length (concat groups)) = (k * Z.of_nat (length groups))%Z.
Proof.
  induction 1 as [|grp groups Hg _ IH]; cbn [concat length]; [lia|].
  rewrite length_app, Nat2Z.inj_add, IH, Hg. lia.
Qed.

Lemma splitTextIntoChunks_ink (txt : jsstring) (n : Z) :
  nonWhite (concat (map text (splitTextIntoChunks txt n))) = nonWhite txt.
Proof.
  unfold splitTextIntoChunks. destruct txt as [|c0 txt0] eqn:E; [reflexivity|].
  rewrite <- E. unfold groupSentences. rewrite group_fold_ink.
  cbn [Segmenter.chunks currentChunkText map concat app nonWhite filter].
  apply splitSentences_ink.
Qed.

(** X1. Segmentation only ever drops or inserts white space: the characters
    of the chunk texts that are not white space are, in order, those of the
    input text. *)
Theorem segmentation_keeps_every_inked_character (txt : jsstring) (n : Z) :
  nonWhite (concat (map text (splitTextIntoChunks txt n))) = nonWhite txt.
Proof.
  unfold splitTextIntoChunks. destruct txt as [|c0 txt0] eqn:E; [reflexivity|].
  rewrite <- E. unfold groupSentences.
  rewrite group_fold_ink.
  cbn [Segmenter.chunks currentChunkText map concat app nonWhite filter].
  apply splitSentences_ink.
Qed.

(** X2. The segmenter returns no chunk exactly for the texts that consist of
    white space only (the empty text included). *)
Theorem segmentation_empty_exactly_for_blank_text (txt : jsstring) (n : Z) :
  match splitTextIntoChunks txt n with [] => true | _ :: _ => false end
  = forallb isWhiteSpace txt.
Proof.
  pose proof (splitTextIntoChunks_ink txt n) as Hink.
  pose proof (@groupSentences_Forall n edgesInked
                (fun a b Ha Hb => @edgesInked_join a [SPACE] b Ha Hb)
                (splitSentences txt) (splitSentences_edgesInked txt)) as Hedges.
  pose proof (nonWhite_nil_forallb txt) as Hblank.
  destruct (splitTextIntoChunks txt n) as [|c cs] eqn:E.
  - symmetry. apply Hblank. now rewrite <- Hink.
  - destruct (forallb isWhiteSpace txt) eqn:Hb; [|reflexivity]. exfalso.
    assert (Hnw : nonWhite txt = []) by now apply Hblank.
    rewrite Hnw in Hink.
    unfold splitTextIntoChunks in E. destruct txt as [|c0 txt0] eqn:Et; [discriminate|].
    rewrite <- Et in *. rewrite E in Hedges. inversion Hedges as [|? ? [Hstart _] _]; subst.
    cbn [map concat] in Hink. rewrite nonWhite_app in Hink.
    destruct (text c) as [|d t]; [exact Hstart|]. cbn [startsInked] in Hstart.
    unfold nonWhite in Hink. cbn [filter] in Hink. rewrite Hstart in Hink.
    discriminate Hink.
Qed.

(** X3. For a group size of at least one, the number of chunks is the
    number of sentences divided by the group size, rounded up. *)
Theorem chunk_count_is_ceiling (txt : jsstring) (n : Z) (Hn : (1 <= n)%Z) :
  Z.of_nat (length (splitTextIntoChunks txt n))
  = ((Z.of_nat (length (splitSentences txt)) + n - 1) / n)%Z.
Proof.
  unfold splitTextIntoChunks. destruct txt as [|c0 txt0] eqn:E.
  - cbn. symmetry. apply Z.div_small. lia.
  - rewrite <- E.
    destruct (@groupSentences_groups n Hn (splitSentences txt) (splitSentences_nonEmpty txt))
      as (groups & Hcat & Hfull & Hlast & Htxt).
    apply (f_equal (@length _)) in Htxt. rewrite !length_map in Htxt. rewrite Htxt, <- Hcat.
    destruct groups as [|g0 l _] using rev_ind.
    + cbn. symmetry. apply Z.div_small. lia.
    + rewrite removelast_last in Hfull. rewrite last_last in Hlast.
      specialize (Hlast ltac:(now destruct l)).
      rewrite concat_app, !length_app, !Nat2Z.inj_add.
      rewrite (length_concat_uniform Hfull). cbn [concat length]. rewrite app_nil_r.
      set (k := Z.of_nat (length l)). set (m := Z.of_nat (length g0)) in *.
      replace (n * k + m + n - 1)%Z with ((m - 1) + (k + 1) * n)%Z by lia.
      rewrite Z.div_add by lia. rewrite Z.div_small by lia. lia.
Qed.

(** X4. A group size of one or less (zero and negative sizes included) puts
    every sentence in a chunk of its own. *)
Theorem group_size_at_most_one_gives_one_chunk_per_sentence
  (txt : jsstring) (n : Z) (Hn : (n <= 1)%Z) :
  map text (splitTextIntoChunks txt n) = splitSentences txt.
Proof.
  unfold splitTextIntoChunks. destruct txt as [|c0 txt0] eqn:E; [reflexivity|].
  rewrite <- E. unfold groupSentences.
  now rewrite (@group_fold_single_sentences n (splitSentences txt) (mkGroup [] [] 0 0)
                 Hn eq_refl eq_refl).
Qed.

(** X5. Unless the whole text is a single sentence, every chunk text has at
    least three characters. *)
Theorem chunk_texts_have_three_characters (txt : jsstring) (n : Z) :
  length (splitSentences txt) = 1%nat \/
  Forall (fun c => (3 <= length (text c))%nat) (splitTextIntoChunks txt n).
Proof.
  destruct (Nat.eq_dec (length (splitSentences txt)) 1) as [H1 | H1]; [now left|right].
  unfold splitTextIntoChunks. destruct txt as [|c0 txt0] eqn:E; [constructor|].
  rewrite <- E in *.
  apply (@groupSentences_Forall n (fun s => (3 <= length s)%nat)).
  - intros a b Ha Hb. rewrite !length_app. lia.
  - now apply splitSentences_min_length.
Qed.

(** X6. Every chunk text begins and ends with a character that is not white
    space: trimming it again changes nothing. *)
Theorem chunk_texts_are_trimmed (txt : jsstring) (n : Z) :
  Forall (fun c => trim (text c) = text c) (splitTextIntoChunks txt n).
Proof.
  unfold splitTextIntoChunks. destruct txt as [|c0 txt0] eqn:E; [constructor|].
  rewrite <- E.
  pose proof (@groupSentences_Forall n edgesInked
                (fun a b Ha Hb => @edgesInked_join a [SPACE] b Ha Hb)
                (splitSentences txt) (splitSentences_edgesInked txt)) as Hedges.
  eapply Forall_impl; [|exact Hedges]. intros c Hc. now apply edgesInked_trim.
Qed.

Lemma chunk_count_witness :
  (1 <= 2)%Z /\ Z.of_nat (length (splitTextIntoChunks scenarioText 2)) = 2%Z.
Proof.
  split; [lia|].
  rewrite (@chunk_count_is_ceiling scenarioText 2 ltac:(lia)). reflexivity.
Defined.

Lemma group_size_zero_witness :
  (0 <= 1)%Z /\
  map text (splitTextIntoChunks scenarioText 0)
  = [of_string "Hi."; of_string "OK."; of_string "Go now!"; of_string "Next."].
Proof.
  split; [lia|].
  rewrite (@group_size_at_most_one_gives_one_chunk_per_sentence scenarioText 0 ltac:(lia)).
  reflexivity.
Defined.

(** * Further properties of the Reader *)

Section ControllerFacts.

(** X7. Stop from any state: the reader is idle with progress 0, no timer
    and an empty speech queue, at the same index; no effect runs afterwards;
    and a second stop only repeats the two outgoing calls. *)
Theorem stop_resets_and_is_idempotent (s : State) :
  readerState (handleStop s) = IDLE /\
  chunkProgress (handleStop s) = 0 /\
  progressInterval (handleStop s) = None /\
  WebSpeech.queue (synth (handleStop s)) = [] /\
  currentChunkIndex (handleStop s) = currentChunkIndex s /\
  chunks (handleStop s) = chunks s /\
  settings (handleStop s) = settings s /\
  step Stop s = handleStop s /\
  handleStop (handleStop s) = emit (AProgress 0) (emit AStop (handleStop s)).
Proof.
  assert (H : readerState (handleStop s) = IDLE /\
              chunkProgress (handleStop s) = 0 /\
              progressInterval (handleStop s) = None /\
              WebSpeech.queue (synth (handleStop s)) = [] /\
              currentChunkIndex (handleStop s) = currentChunkIndex s /\
              chunks (handleStop s) = chunks s /\
              settings (handleStop s) = settings s /\
              fileContent (handleStop s) = fileContent s).
  { unfold handleStop, stopWebSpeech, clearProgressInterval. cbn.
    destruct (progressInterval s) eqn:E; cbn; rewrite ?E; repeat split; reflexivity. }
  destruct H as (H1 & H2 & H3 & H4 & H5 & H6 & H7 & H8).
  repeat (split; [assumption|]). split.
  - unfold step. cbn [handle]. apply commit_same; try assumption. now rewrite H6.
  - clear. destruct s as [fc cs i rs st em cp vr pg fl [t|] [qu vs pa] tr];
      vm_compute; reflexivity.
Qed.

Lemma handlePlayPause_frame r :
  readerState r = PLAYING \/ readerState r = PAUSED ->
  currentChunkIndex (handlePlayPause r) = currentChunkIndex r /\
  fileContent (handlePlayPause r) = fileContent r /\
  settings (handlePlayPause r) = settings r /\
  chunks (handlePlayPause r) = chunks r.
Proof.
  unfold handlePlayPause. intros [-> | ->]; repeat split; reflexivity.
Qed.

Lemma step_PlayPause_toggle r :
  readerState r = PLAYING \/ readerState r = PAUSED ->
  step PlayPause r = handlePlayPause r.
Proof.
  intros H. destruct (@handlePlayPause_frame r H) as (A & B & C & D).
  unfold step. cbn [handle]. apply commit_same; try assumption. now rewrite D.
Qed.

(** X8. Pause and resume: from PLAYING the play/pause command pauses the
    backend and nothing else (same index, same queue, same progress, and the
    simulation timer keeps running, so a tick while paused still advances the
    progress); a second command resumes, back in PLAYING with the same queue
    and index. *)
Theorem pause_then_resume (r : State) (Hplaying : readerState r = PLAYING) :
  let p := step PlayPause r in
  let q := step PlayPause p in
  (readerState p = PAUSED /\
   WebSpeech.paused (synth p) = true /\
   WebSpeech.queue (synth p) = WebSpeech.queue (synth r) /\
   currentChunkIndex p = currentChunkIndex r /\
   chunkProgress p = chunkProgress r /\
   progressInterval p = progressInterval r /\
   trace p = trace r ++ [APause]) /\
  chunkProgress (tick p)
  = match progressInterval r with
    | Some stepPercent => tickValue stepPercent (chunkProgress r)
    | None => chunkProgress r
    end /\
  (readerState q = PLAYING /\
   WebSpeech.paused (synth q) = false /\
   WebSpeech.queue (synth q) = WebSpeech.queue (synth r) /\
   currentChunkIndex q = currentChunkIndex r /\
   chunkProgress q = chunkProgress r /\
   progressInterval q = progressInterval r /\
   trace q = trace r ++ [APause; AResume]).
Proof.
  intros p q.
  assert (Hp : p = setReaderState PAUSED (pauseWebSpeech r)).
  { unfold p. rewrite (@step_PlayPause_toggle r (or_introl Hplaying)).
    unfold handlePlayPause. now rewrite Hplaying. }
  assert (Hq : q = setReaderState PLAYING (resumeWebSpeech p)).
  { unfold q. rewrite (@step_PlayPause_toggle p); [|right; now rewrite Hp].
    unfold handlePlayPause. now rewrite Hp. }
  split; [|split].
  - rewrite Hp. repeat split.
  - rewrite Hp. unfold tick. cbn. destruct (progressInterval r); reflexivity.
  - rewrite Hq, Hp. cbn. rewrite <- app_assoc. repeat split.
Qed.

Lemma pause_then_resume_witness :
  readerState (step PlayPause demoReader) = PLAYING /\
  readerState (step PlayPause (step PlayPause demoReader)) = PAUSED /\
  readerState (step PlayPause (step PlayPause (step PlayPause demoReader))) = PLAYING.
Proof.
  assert (H : readerState (step PlayPause demoReader) = PLAYING) by (vm_compute; reflexivity).
  destruct (@pause_then_resume (step PlayPause demoReader) H) as ((A & _) & _ & (B & _)).
  repeat split; assumption.
Defined.

Lemma handleStop_then_play_trace cs st index s :
  (0 <= index < len cs)%Z ->
  let s' := playChunk cs st index false (setCurrentChunkIndex index (handleStop s)) in
  currentChunkIndex s' = index /\
  readerState s' = PLAYING /\
  chunkProgress s' = 0 /\
  progressInterval s'
  = Some (progressStep (length (chunkText cs index)) (playbackRate st)) /\
  trace s'
  = trace s ++ [AStop; AProgress 0; AStop; AProgress 0;
                ASpeak (chunkText cs index) (webSpeechVoiceURI st)
                  (playbackRate st) (volume st) true] /\
  map (@WebSpeech.utext Callback) (WebSpeech.queue (synth s')) = [chunkText cs index] /\
  fileContent s' = fileContent s /\ settings s' = settings s /\ chunks s' = chunks s.
Proof.
  intros H. cbv zeta. unfold playChunk. rewrite (@playChunk_guard_in_range cs index H).
  unfold handleStop, stopWebSpeech, clearProgressInterval. cbn.
  destruct (progressInterval s) eqn:E; cbn; rewrite ?E; cbn;
    rewrite <- !app_assoc; repeat split; reflexivity.
Qed.

(** X9. Jump: a target between 1 and the chunk count stops, moves to chunk
    [target - 1] and plays it (one speak request, for that chunk's text);
    any other target, and an input that is not a number, changes nothing. *)
Theorem jump_valid_or_ignored (r : State) (target : option Z) :
  match target with
  | Some t =>
      if ((0 <? t) && (t <=? len (chunks r)))%Z then
        currentChunkIndex (step (Jump target) r) = (t - 1)%Z /\
        readerState (step (Jump target) r) = PLAYING /\
        trace (handleJump target r)
        = trace r ++ [AStop; AProgress 0; AStop; AProgress 0;
                      ASpeak (chunkText (chunks r) (t - 1))
                        (webSpeechVoiceURI (settings r))
                        (playbackRate (settings r)) (volume (settings r)) true]
      else step (Jump target) r = r
  | None => step (Jump target) r = r
  end.
Proof.
  assert (Hid : commit r r = r) by (now apply commit_same).
  unfold step. cbn [handle]. unfold handleJump.
  destruct target as [t|]; [|exact Hid].
  destruct ((0 <? t) && (t <=? len (chunks r)))%Z eqn:E; [|exact Hid].
  apply andb_true_iff in E. destruct E as [E1 E2].
  apply Z.ltb_lt in E1. apply Z.leb_le in E2.
  destruct (@handleStop_then_play_trace (chunks r) (settings r) (t - 1)%Z r ltac:(lia))
    as (A & B & _ & _ & C & _ & D & F & _).
  rewrite commit_currentChunkIndex, commit_readerState by assumption.
  repeat split; assumption.
Qed.

End ControllerFacts.

Section CallbackFacts.

Lemma playChunk_chunks cs st i a s : chunks (playChunk cs st i a s) = chunks s.
Proof. frame. Qed.

Lemma playChunk_isSettingUpdate cs st i a s :
  isSettingUpdate (playChunk cs st i a s) = isSettingUpdate s.
Proof. frame. Qed.

Lemma dequeue_frame r :
  currentChunkIndex (dequeue r) = currentChunkIndex r /\
  fileContent (dequeue r) = fileContent r /\
  settings (dequeue r) = settings r /\
  chunks (dequeue r) = chunks r.
Proof. repeat split. Qed.

(** X10. Error callback: in every reachable state with an utterance queued,
    a "canceled" or "interrupted" error only drops the utterance (state,
    index, message, progress and timer untouched); any other error makes the
    reader idle, stores as message the fixed prefix followed by the error
    name ("Unknown Error" for an empty one), clears the timer, keeps the
    index and issues no new request. *)
Theorem error_callback_swallows_cancellation
  (r : State) (error : string)
  (Hr : reachable r) (Hq : WebSpeech.queue (synth r) <> []) :
  if (String.eqb error "canceled" || String.eqb error "interrupted")%bool
  then step (SpeechError error) r = dequeue r
  else
    readerState (step (SpeechError error) r) = IDLE /\
    errorMsg (step (SpeechError error) r)
    = Some (String.append "Lỗi trình duyệt: "
              (if String.eqb error EmptyString then "Unknown Error"%string else error)) /\
    progressInterval (step (SpeechError error) r) = None /\
    currentChunkIndex (step (SpeechError error) r) = currentChunkIndex r /\
    chunkProgress (step (SpeechError error) r) = chunkProgress r /\
    trace (step (SpeechError error) r) = trace r /\
    WebSpeech.queue (synth (step (SpeechError error) r)) = tl (WebSpeech.queue (synth r)).
Proof.
  destruct (@reachable_Inv r Hr) as [Hok _]. unfold queueOK in Hok.
  destruct (WebSpeech.queue (synth r)) as [|u q] eqn:Equeue; [congruence|].
  inversion Hok as [|? ? (_ & Herr) _]; subst.
  assert (Hd : dispatched (SpeechError error) r
               = if (String.eqb error "canceled" || String.eqb error "interrupted")%bool
                 then None else Some OnError).
  { unfold dispatched. rewrite Equeue. unfold WebSpeech.onerror. now rewrite Herr. }
  unfold step. cbn [handle]. rewrite Hd.
  destruct (String.eqb error "canceled" || String.eqb error "interrupted")%bool.
  - now apply commit_same.
  - assert (H : commit r (invoke OnError error 0 (dequeue r))
                = invoke OnError error 0 (dequeue r)).
    { apply commit_same; cbn [invoke]; unfold clearProgressInterval;
        destruct (progressInterval (dequeue r)); reflexivity. }
    rewrite H. cbn [invoke]. unfold clearProgressInterval, dequeue. cbn.
    rewrite Equeue. destruct (progressInterval r) eqn:E; cbn; rewrite ?E;
      repeat split; reflexivity.
Qed.

Lemma error_callback_witness :
  readerState (step (SpeechError "network") (step PlayPause demoReader)) = IDLE /\
  errorMsg (step (SpeechError "network") (step PlayPause demoReader))
  = Some "Lỗi trình duyệt: network"%string /\
  step (SpeechError "canceled") (step PlayPause demoReader)
  = dequeue (step PlayPause demoReader).
Proof.
  assert (Hr : reachable (step PlayPause demoReader))
    by (apply reach_step; unfold demoReader; apply reach_mount).
  assert (Hq : WebSpeech.queue (synth (step PlayPause demoReader)) <> [])
    by (vm_compute; discriminate).
  split; [|split].
  - exact (proj1 (@error_callback_swallows_cancellation _ "network" Hr Hq)).
  - exact (proj1 (proj2 (@error_callback_swallows_cancellation _ "network" Hr Hq))).
  - exact (@error_callback_swallows_cancellation _ "canceled" Hr Hq).
Defined.

(** X11. Completion callback of the utterance at the head of the queue,
    made by [playChunk] for index [i] of the chunk list [cs]: if [i] is not
    the last index of [cs], the current index is advanced by one and, when
    the new index is within [cs], that chunk is spoken without cancelling the
    backend (progress 100, then 0; utterances queued earlier stay queued); if
    [i] is the last index, the reader becomes idle at the same index with
    progress 100 and no timer. *)
Theorem completion_callback_advances_or_stops
  (r : State) (u : WebSpeech.Utterance Callback) (q : list (WebSpeech.Utterance Callback))
  (cs : list Chunk) (st : ReaderSettings) (i : Z)
  (Hq : WebSpeech.queue (synth r) = u :: q)
  (Hu : WebSpeech.uOnEnd u = OnEnd cs st i) :
  let next := (currentChunkIndex r + 1)%Z in
  let r' := handle SpeechEnd r in
  if (i <? len cs - 1)%Z then
    currentChunkIndex r' = next /\
    currentChunkIndex (step SpeechEnd r) = next /\
    progressInterval r'
    = (if ((next <? 0) || (next >=? len cs))%Z then None
       else Some (progressStep (length (chunkText cs next)) (playbackRate st))) /\
    if ((next <? 0) || (next >=? len cs))%Z then
      readerState r' = readerState r /\
      chunkProgress r' = 100 /\
      trace r' = trace r ++ [AProgress 100] /\
      WebSpeech.queue (synth r') = q
    else
      readerState r' = PLAYING /\
      chunkProgress r' = 0 /\
      trace r' = trace r ++ [AProgress 100; AProgress 0;
                             ASpeak (chunkText cs next) (webSpeechVoiceURI st)
                               (playbackRate st) (volume st) false] /\
      map (@WebSpeech.utext Callback) (WebSpeech.queue (synth r'))
      = map (@WebSpeech.utext Callback) q ++ [chunkText cs next]
  else
    readerState r' = IDLE /\
    currentChunkIndex r' = currentChunkIndex r /\
    chunkProgress r' = 100 /\
    progressInterval r' = None /\
    trace r' = trace r ++ [AProgress 100] /\
    WebSpeech.queue (synth r') = q /\
    step SpeechEnd r = r'.
Proof.
  intros next r'.
  assert (Hh : r' = invoke (OnEnd cs st i) EmptyString 0 (dequeue r)).
  { unfold r'. cbn [handle]. unfold dispatched. rewrite Hq.
    unfold WebSpeech.onend. now rewrite Hu. }
  assert (Hframe : fileContent r' = fileContent r /\ settings r' = settings r /\
                   chunks r' = chunks r).
  { rewrite Hh. cbn [invoke]. destruct (i <? len cs - 1)%Z.
    - cbn [fileContent settings chunks setCurrentChunkIndex].
      rewrite playChunk_fileContent, playChunk_settings, playChunk_chunks.
      unfold clearProgressInterval.
      destruct (progressInterval (dequeue r)); repeat split; reflexivity.
    - unfold clearProgressInterval.
      destruct (progressInterval (dequeue r)); repeat split; reflexivity. }
  destruct Hframe as (Hf & Hs & Hc).
  destruct (i <? len cs - 1)%Z eqn:Ei.
  - assert (Hidx : currentChunkIndex r' = next).
    { rewrite Hh. cbn [invoke]. rewrite Ei. cbn [currentChunkIndex setCurrentChunkIndex].
      unfold clearProgressInterval. destruct (progressInterval (dequeue r)); reflexivity. }
    split; [exact Hidx|]. split.
    { unfold step. fold r'. now rewrite commit_currentChunkIndex. }
    rewrite Hh. cbn [invoke]. rewrite Ei. unfold playChunk.
    replace (currentChunkIndex (setChunkProgress 100 (clearProgressInterval (dequeue r))) + 1)%Z
      with next
      by (unfold next, clearProgressInterval;
          destruct (progressInterval (dequeue r)); reflexivity).
    destruct ((next <? 0) || (next >=? len cs))%Z;
      unfold clearProgressInterval, dequeue; cbn; rewrite Hq;
      destruct (progressInterval r) eqn:E; cbn; rewrite ?E; cbn;
      rewrite <- ?app_assoc, ?map_app; repeat split; reflexivity.
  - assert (Hfin : readerState r' = IDLE /\
                   currentChunkIndex r' = currentChunkIndex r /\
                   chunkProgress r' = 100 /\
                   progressInterval r' = None /\
                   trace r' = trace r ++ [AProgress 100] /\
                   WebSpeech.queue (synth r') = q).
    { rewrite Hh. cbn [invoke]. rewrite Ei. unfold clearProgressInterval, dequeue. cbn.
      rewrite Hq. destruct (progressInterval r) eqn:E; cbn; rewrite ?E;
        repeat split; reflexivity. }
    destruct Hfin as (A & B & C & D & F & G).
    repeat (split; [assumption|]).
    unfold step. fold r'. apply commit_same; try assumption. now rewrite Hc.
Qed.

Lemma completion_callback_witness :
  currentChunkIndex (step SpeechEnd (step PlayPause demoReader)) = 1%Z.
Proof.
  assert (Hq : WebSpeech.queue (synth (step PlayPause demoReader))
               = [WebSpeech.mkUtterance (of_string "aaa.") None 1 (100 # 100)
                    (OnEnd (chunks demoReader) sampleSettings 0) OnError])
    by (vm_compute; reflexivity).
  exact (proj1 (proj2 (@completion_callback_advances_or_stops
                         (step PlayPause demoReader) _ _ _ _ _ Hq eq_refl))).
Defined.

End CallbackFacts.

Section RenderFacts.

Lemma effectsPass_chunks prev r :
  chunks (effectsPass (Some prev) r)
  = if initCondition prev r
    then splitTextIntoChunks (fileContent r) (sentencesPerChunk (settings r))
    else chunks r.
Proof.
  unfold initCondition, effectsPass, changed.
  destruct (negb (jsstring_eqb (fileContent prev) (fileContent r))
            || negb (sentencesPerChunk (settings prev) =? sentencesPerChunk (settings r))%Z)%bool;
    unfold_ops; split_cases; reflexivity.
Qed.

(** The index clamp of the chunk-initialisation effect. *)
Lemma effectsPass_index_init prev r :
  initCondition prev r = true ->
  currentChunkIndex (effectsPass (Some prev) r)
  = let generated :=
      splitTextIntoChunks (fileContent r) (sentencesPerChunk (settings r)) in
    if (currentChunkIndex r >=? len generated)%Z
    then Z.max 0 (len generated - 1)
    else currentChunkIndex r.
Proof.
  unfold initCondition, effectsPass, changed. intros ->. cbv zeta.
  unfold_ops.
  destruct (currentChunkIndex r >=? _)%Z; split_cases; reflexivity.
Qed.

Lemma effectsPass_visibleRange prev r :
  visibleRange (effectsPass (Some prev) r)
  = if (negb (currentChunkIndex prev =? currentChunkIndex r)%Z
        || negb (len (chunks prev) =? len (chunks r))%Z)%bool
    then (Z.max 0 (currentChunkIndex r - 5),
          Z.min (len (chunks r)) (currentChunkIndex r + 6))
    else visibleRange r.
Proof.
  unfold effectsPass, changed.
  destruct (negb (currentChunkIndex prev =? currentChunkIndex r)%Z
            || negb (len (chunks prev) =? len (chunks r))%Z)%bool;
    unfold_ops; split_cases; reflexivity.
Qed.

(** Only a PLAYING reader reaches the backend from an effect. *)
Lemma effectsPass_synth_not_playing prev r :
  readerState r <> PLAYING -> synth (effectsPass prev r) = synth r.
Proof.
  intros H. unfold effectsPass. unfold_ops.
  destruct (readerState r) eqn:E; try congruence; cbv beta iota;
    split_cases; reflexivity.
Qed.

Lemma effectsPass_first r :
  effectsPass None r
  = indexSaveEffect r (settingsEffect r (viewportEffect r
      (initChunksEffect r (loadVoicesEffect r (pageEffect r r))))).
Proof. reflexivity. Qed.

Lemma second_pass_initCondition prev r :
  initCondition r (effectsPass prev r) = false.
Proof.
  apply initCondition_same_size.
  - apply effectsPass_fileContent.
  - apply effectsPass_sentencesPerChunk.
Qed.

Lemma insertVoice_In v w sorted :
  In v (insertVoice w sorted) <-> v = w \/ In v sorted.
Proof.
  induction sorted as [|x sorted IH]; cbn [insertVoice In].
  - intuition congruence.
  - destruct (compareVoices w x); cbn [In]; try rewrite IH; intuition congruence.
Qed.

Lemma sortVoices_In v vs : In v (sortVoices vs) <-> In v vs.
Proof.
  induction vs as [|w vs IH]; [reflexivity|].
  unfold sortVoices in *. cbn [fold_right In]. rewrite insertVoice_In, IH.
  split; intros H; intuition congruence.
Qed.

Lemma autoSelect_fields prev vs :
  playbackRate (autoSelect prev vs) = playbackRate prev /\
  volume (autoSelect prev vs) = volume prev /\
  sentencesPerChunk (autoSelect prev vs) = sentencesPerChunk prev /\
  viewMode (autoSelect prev vs) = viewMode prev.
Proof.
  unfold autoSelect. cbv zeta. destruct (_ || _); [|now repeat split].
  destruct (find isVi vs); [now repeat split|]. destruct vs; now repeat split.
Qed.

Lemma autoSelect_nil prev : autoSelect prev [] = prev.
Proof.
  unfold autoSelect. cbn. now destruct (String.eqb (webSpeechVoiceURI prev) EmptyString).
Qed.

(** With a voice on offer, the selected URI is that of an offered voice. *)
Lemma autoSelect_offered prev vs :
  vs <> [] ->
  exists v, In v vs /\ webSpeechVoiceURI (autoSelect prev vs) = WebSpeech.voiceURI v.
Proof.
  intros Hne. unfold autoSelect. cbv zeta.
  destruct (existsb _ vs) eqn:Ex.
  - apply existsb_exists in Ex. destruct Ex as (v & Hin & Huri).
    apply String.eqb_eq in Huri.
    destruct (String.eqb (webSpeechVoiceURI prev) EmptyString) eqn:Eempty; cbn [orb negb].
    + destruct (find isVi vs) as [w|] eqn:Ef.
      * exists w. split; [now apply find_some in Ef|reflexivity].
      * destruct vs as [|x vs]; [congruence|]. exists x. split; [now left|reflexivity].
    + exists v. now split.
  - rewrite orb_true_r.
    destruct (find isVi vs) as [w|] eqn:Ef.
    + exists w. split; [now apply find_some in Ef|reflexivity].
    + destruct vs as [|x vs]; [congruence|]. exists x. split; [now left|reflexivity].
Qed.

Lemma autoSelect_sorted prev vs :
  match vs with
  | [] => autoSelect prev (sortVoices vs) = prev
  | _ :: _ =>
      exists v, In v vs /\
                webSpeechVoiceURI (autoSelect prev (sortVoices vs)) = WebSpeech.voiceURI v
  end.
Proof.
  destruct vs as [|v0 vs0] eqn:Evs; [apply autoSelect_nil|]. rewrite <- Evs.
  destruct (@autoSelect_offered prev (sortVoices vs)) as (v & Hin & Huri).
  - intros Hnil. assert (Hv0 : In v0 (sortVoices vs))
      by (apply sortVoices_In; rewrite Evs; now left).
    rewrite Hnil in Hv0. exact Hv0.
  - exists v. split; [now apply sortVoices_In|exact Huri].
Qed.

(** The voice selection on three voices: the Vietnamese voices come first,
    by name, and an empty or unknown URI gives the first of them; a URI that
    names an offered voice is kept. *)
Example loadVoices_example :
  let en := WebSpeech.mkVoice "u-en" "en-US" "Alice" 1 in
  let linh := WebSpeech.mkVoice "u-linh" "vi-VN" "Linh" 7 in
  let an := WebSpeech.mkVoice "u-an" "VI" "An" 2 in
  toLowerCase "VI-vn" = "vi-vn"%string /\
  sortVoices [en; linh; an] = [an; linh; en] /\
  webSpeechVoiceURI (autoSelect sampleSettings (sortVoices [en; linh; an]))
  = "u-an"%string /\
  webSpeechVoiceURI
    (autoSelect (withVoiceURI sampleSettings "gone") (sortVoices [en; linh; an]))
  = "u-an"%string /\
  autoSelect (withVoiceURI sampleSettings "u-en") (sortVoices [en; linh; an])
  = withVoiceURI sampleSettings "u-en" /\
  webSpeechVoiceURI (autoSelect sampleSettings (sortVoices [en])) = "u-en"%string.
Proof. vm_compute. repeat split. Qed.

(** What a render records when the reader is idle and the setting-update
    flag is down: one save if rate, volume or voice changed, and one if the
    index changed. *)
Lemma effectsPass_idle_trace prev r :
  readerState r = IDLE -> isSettingUpdate r = false ->
  trace (effectsPass (Some prev) r)
  = trace r
    ++ (if (negb (Qeq_bool (playbackRate (settings prev)) (playbackRate (settings r)))
            || negb (volume (settings prev) =? volume (settings r))%Z
            || negb (String.eqb (webSpeechVoiceURI (settings prev))
                       (webSpeechVoiceURI (settings r))))%bool
        then [ASave (currentChunkIndex r) (settings r)] else [])
    ++ (if (currentChunkIndex prev =? currentChunkIndex r)%Z then []
        else [ASave (currentChunkIndex r) (settings r)]).
Proof.
  intros Hidle Hflag. unfold effectsPass, changed.
  destruct (negb (Qeq_bool _ _) || _ || _)%bool;
    destruct (currentChunkIndex prev =? currentChunkIndex r)%Z; cbn [negb orb];
    unfold_ops; rewrite ?Hidle;
    repeat match goal with
           | |- context [if ?b then _ else _] =>
               lazymatch b with
               | context [isSettingUpdate] => fail
               | _ => destruct b
               end
           end;
    cbn [trace emit setVisibleRange setChunks setCurrentChunkIndex setCurrentPage
           setIsSettingUpdate isSettingUpdate];
    rewrite ?Hflag; cbn [negb trace emit setIsSettingUpdate];
    rewrite <- ?app_assoc, ?app_nil_r; reflexivity.
Qed.

(** X12. Mounting segments the file with the stored group size and clamps a
    stored index that is past the end to the last chunk (to 0 when there is
    no chunk); the reader starts idle with an empty speech queue, and the
    visible window is the eleven-chunk window around the index, cut to the
    chunk list. The settings are the stored ones after the voice selection
    of [loadVoices] on the sorted list of the browser's voices: rate,
    volume, group size and view mode are the stored ones; without any voice
    the stored URI is kept, and with a voice on offer the URI is that of an
    offered voice. Mounting calls [onSaveProgress] twice with the stored
    index and settings, once more with the mounted ones when the voice
    selection changed the URI, and once more when the index was clamped. *)
Theorem mount_segments_and_clamps
  (content : jsstring) (st : ReaderSettings) (idx : Z) (vs : list WebSpeech.Voice) :
  let generated := splitTextIntoChunks content (sentencesPerChunk st) in
  let m := mount content st idx vs in
  chunks m = generated /\
  currentChunkIndex m
  = (if (idx >=? len generated)%Z then Z.max 0 (len generated - 1) else idx) /\
  readerState m = IDLE /\
  settings m = autoSelect st (sortVoices vs) /\
  (playbackRate (settings m) = playbackRate st /\
   volume (settings m) = volume st /\
   sentencesPerChunk (settings m) = sentencesPerChunk st /\
   viewMode (settings m) = viewMode st) /\
  match vs with
  | [] => settings m = st
  | _ :: _ =>
      exists v, In v vs /\ webSpeechVoiceURI (settings m) = WebSpeech.voiceURI v
  end /\
  WebSpeech.voices (synth m) = vs /\
  WebSpeech.queue (synth m) = [] /\
  trace m
  = [ASave idx st; ASave idx st]
    ++ (if String.eqb (webSpeechVoiceURI st) (webSpeechVoiceURI (settings m))
        then [] else [ASave (currentChunkIndex m) (settings m)])
    ++ (if (idx =? currentChunkIndex m)%Z
        then [] else [ASave (currentChunkIndex m) (settings m)]) /\
  visibleRange m
  = (Z.max 0 (currentChunkIndex m - 5), Z.min (len generated) (currentChunkIndex m + 6)).
Proof.
  intros generated m. unfold m, mount.
  set (r := mkState content [] idx IDLE st None 0 (0%Z, 0%Z) (idx / ITEMS_PER_PAGE)%Z
              false None (WebSpeech.mkSynth [] vs false) []).
  set (s1 := effectsPass None r).
  assert (H1 : chunks s1 = generated /\
               currentChunkIndex s1
               = (if (idx >=? len generated)%Z then Z.max 0 (len generated - 1) else idx) /\
               readerState s1 = IDLE /\ settings s1 = autoSelect st (sortVoices vs) /\
               synth s1 = WebSpeech.mkSynth [] vs false /\
               trace s1 = [ASave idx st; ASave idx st] /\
               isSettingUpdate s1 = false /\
               visibleRange s1 = (Z.max 0 (idx - 5), Z.min 0 (idx + 6))).
  { unfold s1. rewrite effectsPass_first.
    unfold indexSaveEffect, settingsEffect, viewportEffect, initChunksEffect,
      loadVoicesEffect, loadVoices, pageEffect, onSaveProgress.
    cbn [r readerState fileContent settings currentChunkIndex chunks synth
         visibleRange setChunks setCurrentChunkIndex setSettings setVisibleRange
         setCurrentPage setIsSettingUpdate emit isSettingUpdate negb
         WebSpeech.voices len length Z.of_nat].
    fold generated.
    destruct (idx >=? len generated)%Z; repeat split; reflexivity. }
  destruct H1 as (Hc & Hi & Hs & Hst & Hy & Htr & Hfl & Hv).
  assert (Hy2 : synth (effectsPass (Some r) s1) = WebSpeech.mkSynth [] vs false).
  { rewrite effectsPass_synth_not_playing; [exact Hy|]. rewrite Hs. discriminate. }
  assert (Hst2 : settings (effectsPass (Some r) s1) = autoSelect st (sortVoices vs)).
  { now rewrite effectsPass_settings. }
  pose proof (@second_pass_initCondition None r) as Hinit. fold s1 in Hinit.
  assert (Hc2 : chunks (effectsPass (Some r) s1) = generated).
  { now rewrite effectsPass_chunks, Hinit. }
  assert (Hi2 : currentChunkIndex (effectsPass (Some r) s1) = currentChunkIndex s1).
  { now apply effectsPass_currentChunkIndex. }
  split; [exact Hc2|]. split; [now rewrite Hi2|].
  split; [now rewrite effectsPass_readerState|].
  split; [exact Hst2|].
  split; [rewrite Hst2; apply autoSelect_fields|].
  split.
  { rewrite Hst2. apply autoSelect_sorted. }
  split; [now rewrite Hy2|]. split; [now rewrite Hy2|].
  split.
  { rewrite (@effectsPass_idle_trace r s1 Hs Hfl), Htr, Hst2, Hi2, Hst.
    destruct (@autoSelect_fields st (sortVoices vs)) as (Hrate & Hvol & _ & _).
    change (settings r) with st. change (currentChunkIndex r) with idx.
    rewrite Hrate, Hvol, Qeq_bool_refl, Z.eqb_refl. cbn [negb orb].
    now destruct (String.eqb _ _). }
  rewrite effectsPass_visibleRange, Hi2, Hc, Hv, Hi.
  change (currentChunkIndex r) with idx. change (len (chunks r)) with 0%Z.
  destruct (idx >=? len generated)%Z eqn:Ege.
  - destruct (negb (idx =? Z.max 0 (len generated - 1))%Z
              || negb (0 =? len generated)%Z)%bool eqn:E; [reflexivity|].
    apply orb_false_iff in E. destruct E as [E1 E2].
    apply negb_false_iff in E1, E2. apply Z.eqb_eq in E1, E2.
    f_equal; lia.
  - destruct (negb (idx =? idx)%Z || negb (0 =? len generated)%Z)%bool eqn:E; [reflexivity|].
    apply orb_false_iff in E. destruct E as [_ E2].
    apply negb_false_iff in E2. apply Z.eqb_eq in E2. now rewrite <- E2.
Qed.

(** X13. A change of the group size re-segments the same text with the new
    size and clamps the remapped index [floor(index * old / new)] to the new
    chunk list when it falls past its end. *)
Theorem changeChunkSize_resegments_and_clamps (r : State) (delta : Z) :
  let oldSize := sentencesPerChunk (settings r) in
  let newSize := Z.max 1 (Z.min 200 (oldSize + delta)) in
  let generated := splitTextIntoChunks (fileContent r) newSize in
  let remapped := (currentChunkIndex r * oldSize / newSize)%Z in
  let r' := step (ChangeChunkSize delta) r in
  if (newSize =? oldSize)%Z then r' = r
  else
    chunks r' = generated /\
    sentencesPerChunk (settings r') = newSize /\
    fileContent r' = fileContent r /\
    currentChunkIndex r'
    = (if (remapped >=? len generated)%Z then Z.max 0 (len generated - 1) else remapped).
Proof.
  intros oldSize newSize generated remapped r'. unfold r', step. cbn [handle].
  unfold changeChunkSize. fold oldSize. fold newSize.
  destruct (newSize =? oldSize)%Z eqn:E; [now apply commit_same|].
  fold remapped.
  set (r1 := setCurrentChunkIndex remapped _).
  assert (Hinit : initCondition r r1 = true).
  { unfold initCondition. apply orb_true_iff. right. unfold r1. cbn.
    fold oldSize. fold newSize. rewrite Z.eqb_sym, E. reflexivity. }
  unfold commit.
  pose proof (@second_pass_initCondition (Some r) r1) as Hinit2.
  rewrite effectsPass_chunks, Hinit2, effectsPass_chunks, Hinit.
  rewrite effectsPass_settings, effectsPass_settings.
  rewrite effectsPass_fileContent, effectsPass_fileContent.
  rewrite (@effectsPass_currentChunkIndex _ _ Hinit2).
  rewrite (@effectsPass_index_init r r1 Hinit).
  repeat split.
Qed.

End RenderFacts.

Section WindowFacts.

(** X14. After a transition that changes only the index, to a value within
    the chunk list, the chunk at the index can be rendered in both modes: the
    continuous window is [max(0, i - 5), min(N, i + 6)), at most eleven
    chunks containing [i]; the page is [floor(i / 50)], a valid page whose
    fifty-chunk slice contains [i]. *)
Theorem active_chunk_is_rendered_after_index_change
  (ev : Event) (r : State)
  (Hmoved : currentChunkIndex (handle ev r) <> currentChunkIndex r)
  (Hcontent : fileContent (handle ev r) = fileContent r)
  (Hsettings : settings (handle ev r) = settings r)
  (Hrange : (0 <= currentChunkIndex (handle ev r) < len (chunks (handle ev r)))%Z) :
  let r' := step ev r in
  let i := currentChunkIndex r' in
  let N := len (chunks r') in
  i = currentChunkIndex (handle ev r) /\
  N = len (chunks (handle ev r)) /\
  visibleRange r' = (Z.max 0 (i - 5), Z.min N (i + 6)) /\
  (0 <= fst (visibleRange r') <= i)%Z /\
  (i < snd (visibleRange r') <= N)%Z /\
  (snd (visibleRange r') - fst (visibleRange r') <= 11)%Z /\
  currentPage r' = (i / 50)%Z /\
  (currentPage r' * 50 <= i < (currentPage r' + 1) * 50)%Z /\
  (0 <= currentPage r' < totalPages r')%Z.
Proof.
  intros r' i N. unfold i, N, r', step.
  rewrite (@commit_index_only r (handle ev r) Hmoved Hcontent Hsettings).
  set (h := handle ev r) in *.
  assert (Hi : currentChunkIndex (indexSaveEffect h (viewportEffect h (pageEffect h h)))
               = currentChunkIndex h).
  { unfold indexSaveEffect, onSaveProgress. destruct (negb _); reflexivity. }
  assert (Hc : chunks (indexSaveEffect h (viewportEffect h (pageEffect h h))) = chunks h).
  { unfold indexSaveEffect, onSaveProgress. destruct (negb _); reflexivity. }
  assert (Hv : visibleRange (indexSaveEffect h (viewportEffect h (pageEffect h h)))
               = (Z.max 0 (currentChunkIndex h - 5),
                  Z.min (len (chunks h)) (currentChunkIndex h + 6))).
  { unfold indexSaveEffect, onSaveProgress. destruct (negb _); reflexivity. }
  assert (Hp : currentPage (indexSaveEffect h (viewportEffect h (pageEffect h h)))
               = (currentChunkIndex h / 50)%Z).
  { unfold indexSaveEffect, onSaveProgress. destruct (negb _); reflexivity. }
  unfold totalPages. rewrite Hi, Hc, Hv, Hp. cbn [fst snd]. unfold ITEMS_PER_PAGE.
  set (j := currentChunkIndex h) in *. set (M := len (chunks h)) in *.
  pose proof (Z.div_mod j 50 ltac:(lia)) as Hdm.
  pose proof (Z.mod_pos_bound j 50 ltac:(lia)) as Hmod.
  pose proof (Z.div_mod (- M) 50 ltac:(lia)) as Hdm'.
  pose proof (Z.mod_pos_bound (- M) 50 ltac:(lia)) as Hmod'.
  repeat split; try reflexivity; try lia.
Qed.

Lemma active_chunk_witness :
  currentChunkIndex (step (Navigate 1) demoReader) = 1%Z /\
  visibleRange (step (Navigate 1) demoReader) = (0, 3)%Z /\
  currentPage (step (Navigate 1) demoReader) = 0%Z.
Proof.
  assert (H1 : currentChunkIndex (handle (Navigate 1) demoReader)
               <> currentChunkIndex demoReader) by (vm_compute; discriminate).
  assert (H2 : fileContent (handle (Navigate 1) demoReader) = fileContent demoReader)
    by reflexivity.
  assert (H3 : settings (handle (Navigate 1) demoReader) = settings demoReader)
    by reflexivity.
  assert (H4 : (0 <= currentChunkIndex (handle (Navigate 1) demoReader)
                < len (chunks (handle (Navigate 1) demoReader)))%Z)
    by (vm_compute; split; [discriminate|reflexivity]).
  destruct (@active_chunk_is_rendered_after_index_change (Navigate 1) demoReader H1 H2 H3 H4)
    as (A & _ & B & _ & _ & _ & C & _).
  rewrite B, C, A. vm_compute. repeat split.
Defined.

End WindowFacts.

Section PersistenceFacts.

Lemma saves_emit_nonsave a s : isSave a = false -> saves (emit a s) = saves s.
Proof.
  intros H. unfold saves. cbn [trace emit]. rewrite filter_app. cbn [filter].
  rewrite H. apply app_nil_r.
Qed.

(** X17. Navigation and persistence: with at least one chunk, [navigate(d)]
    calls [onSaveProgress] exactly once, with the new index and the current
    settings, when the index changes and the setting-update flag is clear;
    it calls it not at all when the index stays the same (navigation at an
    end of the document) or when the flag is raised, and an index change
    always lowers the flag. *)
Theorem navigate_saves_once
  (r : State) (d : Z) (Hcount : (1 <= len (chunks r))%Z) :
  let next := Z.max 0 (Z.min (len (chunks r) - 1) (currentChunkIndex r + d)) in
  let r' := step (Navigate d) r in
  saves r'
  = saves r ++ (if (next =? currentChunkIndex r)%Z then []
                else if isSettingUpdate r then []
                else [ASave next (settings r)]) /\
  isSettingUpdate r'
  = (if (next =? currentChunkIndex r)%Z then isSettingUpdate r else false).
Proof.
  intros next r'.
  pose proof (@clamp_in_range (len (chunks r)) (currentChunkIndex r + d) Hcount) as Hnext.
  fold next in Hnext.
  pose proof (@handleStop_then_play_trace (chunks r) (settings r) next r Hnext) as H.
  cbv zeta in H.
  change (playChunk (chunks r) (settings r) next false
            (setCurrentChunkIndex next (handleStop r)))
    with (handleNavigate d r) in H.
  destruct H as (A & _ & _ & _ & T & _ & F & S & C).
  assert (Hflag : isSettingUpdate (handleNavigate d r) = isSettingUpdate r).
  { unfold handleNavigate, playChunk. fold next.
    rewrite (@playChunk_guard_in_range (chunks r) next Hnext).
    unfold handleStop, stopWebSpeech, clearProgressInterval. cbn.
    destruct (progressInterval r) eqn:E; cbn; rewrite ?E; reflexivity. }
  assert (Hsaves : saves (handleNavigate d r) = saves r).
  { unfold saves. rewrite T, filter_app. cbn. apply app_nil_r. }
  unfold r', step. cbn [handle].
  destruct (next =? currentChunkIndex r)%Z eqn:E.
  - apply Z.eqb_eq in E. rewrite commit_same; try congruence.
    now rewrite Hsaves, Hflag, app_nil_r.
  - apply Z.eqb_neq in E.
    rewrite commit_index_only by congruence.
    unfold indexSaveEffect, viewportEffect, pageEffect, onSaveProgress.
    cbn [isSettingUpdate setVisibleRange setCurrentPage]. rewrite Hflag.
    destruct (isSettingUpdate r); cbn [negb].
    + split; [|reflexivity]. unfold saves in *. cbn [trace setIsSettingUpdate
        setVisibleRange setCurrentPage]. now rewrite Hsaves, app_nil_r.
    + split; [|reflexivity]. unfold saves in *. cbn [trace setIsSettingUpdate emit
        setVisibleRange setCurrentPage]. rewrite filter_app, Hsaves. cbn.
      now rewrite A, S.
Qed.

Lemma navigate_saves_once_witness :
  (1 <= len (chunks demoReader))%Z /\
  saves (step (Navigate 1) demoReader)
  = saves demoReader ++ [ASave 1 sampleSettings] /\
  saves (step (Navigate (-1)) demoReader) = saves demoReader ++ [].
Proof.
  assert (H : (1 <= len (chunks demoReader))%Z) by (vm_compute; discriminate).
  split; [exact H|]. split.
  - exact (proj1 (@navigate_saves_once demoReader 1 H)).
  - exact (proj1 (@navigate_saves_once demoReader (-1) H)).
Defined.

(** The dependency test of the settings effect between two settings. *)
Lemma settings_form_step temp r :
  sentencesPerChunk temp = sentencesPerChunk (settings r) ->
  step (SaveSettings temp) r
  = if (negb (Qeq_bool (playbackRate (settings r)) (playbackRate temp))
        || negb (volume (settings r) =? volume temp)%Z
        || negb (String.eqb (webSpeechVoiceURI (settings r)) (webSpeechVoiceURI temp)))%bool
    then settingsEffect (setSettings temp r) (setSettings temp r)
    else setSettings temp r.
Proof.
  intros Hspc. unfold step. cbn [handle]. unfold handleSaveSettings.
  rewrite Hspc, Z.eqb_refl. cbn [negb]. unfold commit.
  assert (H1 : effectsPass (Some r) (setSettings temp r)
               = if (negb (Qeq_bool (playbackRate (settings r)) (playbackRate temp))
                     || negb (volume (settings r) =? volume temp)%Z
                     || negb (String.eqb (webSpeechVoiceURI (settings r))
                                (webSpeechVoiceURI temp)))%bool
                 then settingsEffect (setSettings temp r) (setSettings temp r)
                 else setSettings temp r).
  { unfold effectsPass, changed. cbn [currentChunkIndex fileContent settings chunks
      setSettings]. rewrite Hspc, jsstring_eqb_refl, !Z.eqb_refl. cbn [negb orb].
    reflexivity. }
  rewrite H1.
  destruct (negb (Qeq_bool (playbackRate (settings r)) (playbackRate temp))
            || negb (volume (settings r) =? volume temp)%Z
            || negb (String.eqb (webSpeechVoiceURI (settings r)) (webSpeechVoiceURI temp)))%bool.
  - apply effectsPass_same; unfold settingsEffect, onSaveProgress; cbn [readerState setSettings];
      destruct (readerState r); cbn;
      rewrite ?playChunk_currentChunkIndex, ?playChunk_fileContent, ?playChunk_settings;
      try reflexivity.
    unfold playChunk. unfold_ops. split_cases; reflexivity.
  - now apply effectsPass_same.
Qed.

(** X18. Saving the settings form with the group size unchanged: the new
    settings are persisted, once, exactly when the rate, the volume or the
    voice changed (a change of the view mode alone is not persisted); the
    current chunk is restarted with the new settings exactly when, in
    addition, the reader is PLAYING (and the restart raises the
    setting-update flag); otherwise nothing is sent to the backend. *)
Theorem settings_form_persists_and_restarts
  (r : State) (temp : ReaderSettings)
  (Hspc : sentencesPerChunk temp = sentencesPerChunk (settings r))
  (Hrange : (0 <= currentChunkIndex r < len (chunks r))%Z) :
  let r' := step (SaveSettings temp) r in
  let i := currentChunkIndex r in
  settings r' = temp /\
  currentChunkIndex r' = i /\
  readerState r' = readerState r /\
  if (negb (Qeq_bool (playbackRate (settings r)) (playbackRate temp))
      || negb (volume (settings r) =? volume temp)%Z
      || negb (String.eqb (webSpeechVoiceURI (settings r)) (webSpeechVoiceURI temp)))%bool
  then
    match readerState r with
    | PLAYING =>
        trace r'
        = trace r ++ [AStop; AProgress 0;
                      ASpeak (chunkText (chunks r) i) (webSpeechVoiceURI temp)
                        (playbackRate temp) (volume temp) true;
                      ASave i temp] /\
        isSettingUpdate r' = true
    | _ =>
        trace r' = trace r ++ [ASave i temp] /\
        isSettingUpdate r' = isSettingUpdate r /\
        synth r' = synth r
    end
  else r' = setSettings temp r.
Proof.
  intros r' i. unfold r'. rewrite (@settings_form_step temp r Hspc).
  destruct (negb (Qeq_bool (playbackRate (settings r)) (playbackRate temp))
            || negb (volume (settings r) =? volume temp)%Z
            || negb (String.eqb (webSpeechVoiceURI (settings r)) (webSpeechVoiceURI temp)))%bool.
  - unfold settingsEffect, onSaveProgress. cbn [readerState setSettings].
    destruct (readerState r) eqn:Es.
    1, 2, 4: cbn; rewrite ?Es; repeat split; reflexivity.
    unfold playChunk. cbn [chunks currentChunkIndex setSettings setIsSettingUpdate].
    rewrite (@playChunk_guard_in_range (chunks r) (currentChunkIndex r) Hrange).
    unfold_ops. cbn. destruct (progressInterval r) eqn:E; cbn; rewrite ?E, ?Es; cbn;
      rewrite <- ?app_assoc; repeat split; reflexivity.
  - repeat split.
Qed.

Lemma settings_form_witness :
  trace (step (SaveSettings fasterSettings) demoReader)
  = trace demoReader ++ [ASave 0 fasterSettings].
Proof.
  assert (H1 : sentencesPerChunk fasterSettings = sentencesPerChunk (settings demoReader))
    by reflexivity.
  assert (H2 : (0 <= currentChunkIndex demoReader < len (chunks demoReader))%Z)
    by (vm_compute; split; [discriminate|reflexivity]).
  destruct (@settings_form_persists_and_restarts demoReader fasterSettings H1 H2)
    as (_ & _ & _ & H).
  exact (proj1 H).
Defined.

End PersistenceFacts.

Section ControllerInvariant.

Lemma controllerOK_frame s s' :
  WebSpeech.queue (synth s') = WebSpeech.queue (synth s) ->
  progressInterval s' = progressInterval s ->
  readerState s' = readerState s ->
  controllerOK s -> controllerOK s'.
Proof. unfold controllerOK. intros -> -> ->. tauto. Qed.

Lemma playChunk_controllerOK cs st index autoPlay s :
  autoPlay = false \/ WebSpeech.queue (synth s) = [] ->
  controllerOK s -> controllerOK (playChunk cs st index autoPlay s).
Proof.
  intros Hauto H. unfold playChunk.
  destruct ((index <? 0) || (index >=? len cs))%Z; [exact H|].
  unfold controllerOK. unfold_ops. destruct autoPlay.
  - destruct Hauto as [Hauto | Hauto]; [discriminate Hauto|].
    cbn. destruct (progressInterval s) eqn:E; cbn; rewrite ?Hauto; cbn;
      repeat split; auto; try discriminate.
  - cbn. destruct (progressInterval s) eqn:E; cbn;
      repeat split; auto; try discriminate.
Qed.

Lemma handleStop_controllerOK s : controllerOK s -> controllerOK (handleStop s).
Proof.
  intros (_ & Hl & _). unfold controllerOK, handleStop. unfold_ops. cbn.
  destruct (progressInterval s) eqn:E; cbn; rewrite ?E;
    repeat split; auto; try discriminate; congruence.
Qed.

Lemma stop_then_play_controllerOK cs st index i s :
  controllerOK s ->
  controllerOK (playChunk cs st index false (setCurrentChunkIndex i (handleStop s))).
Proof.
  intros H. apply playChunk_controllerOK; [now left|].
  eapply controllerOK_frame; [| | |apply handleStop_controllerOK, H]; reflexivity.
Qed.

Lemma invoke_controllerOK cb error pct s :
  WebSpeech.queue (synth s) = [] -> controllerOK s ->
  controllerOK (invoke cb error pct s).
Proof.
  intros Hq (Hlen & Hl & Ht). destruct cb as [cs st index| |]; cbn [invoke].
  - assert (H : controllerOK (setChunkProgress 100 (clearProgressInterval s))).
    { unfold controllerOK, clearProgressInterval.
      destruct (progressInterval s) eqn:E; cbn; rewrite ?E;
        repeat split; auto; congruence. }
    destruct (index <? len cs - 1)%Z.
    + eapply controllerOK_frame; [| | |apply playChunk_controllerOK, H]; try reflexivity.
      right. unfold clearProgressInterval. destruct (progressInterval s); exact Hq.
    + destruct H as (A & B & C). unfold controllerOK, clearProgressInterval in *.
      destruct (progressInterval s) eqn:E; cbn in *; rewrite ?E in *;
        repeat split; auto; try discriminate; congruence.
  - unfold controllerOK, clearProgressInterval.
    destruct (progressInterval s) eqn:E; cbn; rewrite ?E;
      repeat split; auto; try discriminate; congruence.
  - unfold controllerOK. cbn. repeat split; auto.
Qed.

Lemma dequeue_controllerOK s :
  controllerOK s -> WebSpeech.queue (synth (dequeue s)) = [] /\ controllerOK (dequeue s).
Proof.
  intros (Hlen & Hl & Ht). unfold controllerOK, dequeue. cbn.
  destruct (WebSpeech.queue (synth s)) as [|u [|v q]]; cbn in *;
    repeat split; auto; lia.
Qed.

Lemma handle_controllerOK ev s : controllerOK s -> controllerOK (handle ev s).
Proof.
  intros H. destruct ev; cbn [handle].
  - unfold handlePlayPause. destruct (readerState s) eqn:E.
    + apply playChunk_controllerOK; [now left|exact H].
    + destruct H as (_ & Hl & _). congruence.
    + destruct H as (A & B & C). unfold controllerOK. cbn. repeat split; auto.
      discriminate.
    + destruct H as (A & B & C). unfold controllerOK. cbn. repeat split; auto.
      discriminate.
  - now apply handleStop_controllerOK.
  - now apply stop_then_play_controllerOK.
  - unfold handleJump. destruct target as [t|]; [|exact H].
    destruct ((0 <? t) && (t <=? len (chunks s)))%Z; [|exact H].
    now apply stop_then_play_controllerOK.
  - now apply stop_then_play_controllerOK.
  - unfold changeChunkSize. destruct (_ =? _)%Z; [exact H|].
    eapply controllerOK_frame; [| | |exact H]; reflexivity.
  - unfold handleSaveSettings, floorDiv. cbv zeta.
    destruct (negb _); [destruct (sentencesPerChunk tempSettings =? 0)%Z; [exact H|]|];
      (eapply controllerOK_frame; [| | |exact H]; reflexivity).
  - unfold handlePageChange. destruct ((_ >=? 0) && _)%Z; [|exact H].
    eapply controllerOK_frame; [| | |exact H]; reflexivity.
  - unfold handlePageChange. destruct ((_ >=? 0) && _)%Z; [|exact H].
    eapply controllerOK_frame; [| | |exact H]; reflexivity.
  - unfold tick. destruct (progressInterval s); [|exact H].
    eapply controllerOK_frame; [| | |exact H]; reflexivity.
  - destruct (dequeue_controllerOK H) as [Hq Hd].
    destruct (dispatched SpeechEnd s); [now apply invoke_controllerOK|exact Hd].
  - destruct (dequeue_controllerOK H) as [Hq Hd].
    destruct (dispatched (SpeechError error) s); [now apply invoke_controllerOK|exact Hd].
  - eapply controllerOK_frame; [| | |exact H]; reflexivity.
Qed.

Lemma effectsPass_controllerOK prev r : controllerOK r -> controllerOK (effectsPass prev r).
Proof.
  intros H. unfold effectsPass.
  set (c1 := changed Z.eqb currentChunkIndex prev r).
  set (c2 := (changed jsstring_eqb fileContent prev r || _)%bool).
  set (c3 := (c1 || _)%bool).
  set (c4 := (changed Qeq_bool _ prev r || _ || _)%bool).
  assert (H1 : controllerOK (if c1 then pageEffect r r else r)).
  { destruct c1; [|exact H]. eapply controllerOK_frame; [| | |exact H]; reflexivity. }
  set (s0 := if c1 then pageEffect r r else r) in *.
  assert (H1' : controllerOK match prev with
                             | None => loadVoicesEffect r s0
                             | Some _ => s0
                             end).
  { destruct prev; [exact H1|].
    eapply controllerOK_frame; [| | |exact H1]; reflexivity. }
  set (s1 := match prev with None => loadVoicesEffect r s0 | Some _ => s0 end) in *.
  assert (H2 : controllerOK (if c2 then initChunksEffect r s1 else s1)).
  { destruct c2; [|exact H1']. unfold initChunksEffect.
    destruct (currentChunkIndex r >=? _)%Z;
      (eapply controllerOK_frame; [| | |exact H1']; reflexivity). }
  set (s2 := if c2 then initChunksEffect r s1 else s1) in *.
  assert (H3 : controllerOK (if c3 then viewportEffect r s2 else s2)).
  { destruct c3; [|exact H2]. eapply controllerOK_frame; [| | |exact H2]; reflexivity. }
  set (s3 := if c3 then viewportEffect r s2 else s2) in *.
  assert (H4 : controllerOK (if c4 then settingsEffect r s3 else s3)).
  { destruct c4; [|exact H3]. unfold settingsEffect, onSaveProgress.
    destruct (readerState r);
      try (eapply controllerOK_frame; [| | |exact H3]; reflexivity).
    eapply controllerOK_frame; [| | | apply playChunk_controllerOK ]; try reflexivity.
    - now left.
    - eapply controllerOK_frame; [| | |exact H3]; reflexivity. }
  set (s4 := if c4 then settingsEffect r s3 else s3) in *.
  destruct c1; [|exact H4].
  unfold indexSaveEffect, onSaveProgress.
  destruct (negb (isSettingUpdate s4));
    (eapply controllerOK_frame; [| | |exact H4]; reflexivity).
Qed.

(** X19. In every state reachable from a mount, whatever the commands and
    browser events: at most one utterance is queued at the backend, the
    reader is never in the LOADING state, and the simulation timer runs only
    while the reader is PLAYING or PAUSED. *)
Theorem reachable_controller_invariant
  (content : jsstring) (st : ReaderSettings) (idx : Z) (vs : list WebSpeech.Voice)
  (evs : list Event) :
  let r := run evs (mount content st idx vs) in
  (length (WebSpeech.queue (synth r)) <= 1)%nat /\
  readerState r <> LOADING /\
  match progressInterval r with
  | Some _ => readerState r = PLAYING \/ readerState r = PAUSED
  | None => True
  end.
Proof.
  intros r.
  assert (H : controllerOK r).
  { unfold r. clear r.
    assert (H0 : controllerOK (mount content st idx vs)).
    { unfold mount. apply effectsPass_controllerOK, effectsPass_controllerOK.
      unfold controllerOK. cbn. split; [lia|]. split; [discriminate|].
      intros H. now contradiction H. }
    revert H0. generalize (mount content st idx vs). clear.
    induction evs as [|ev evs IH]; intros s H; [exact H|].
    cbn [run fold_left]. apply IH. unfold step, commit.
    now apply effectsPass_controllerOK, effectsPass_controllerOK, handle_controllerOK. }
  destruct H as (A & B & C). split; [exact A|]. split; [exact B|].
  destruct (progressInterval r); [|exact I]. apply C. discriminate.
Qed.

End ControllerInvariant.

Section VoiceFacts.

(** X20. Voice selection: no voice is chosen only when the browser offers
    none; a voice with the requested URI is preferred, and the first such
    voice of the list is the one chosen; failing that, a voice whose language
    tag starts with "vi", and failing that the first voice. *)
Theorem selectVoice_preferences (uri : string) (vs : list WebSpeech.Voice) :
  match WebSpeech.selectVoice uri vs with
  | None => vs = []
  | Some v =>
      In v vs /\
      match find (fun w => String.eqb (WebSpeech.voiceURI w) uri) vs with
      | Some w => v = w /\ WebSpeech.voiceURI v = uri
      | None =>
          match find (fun w => String.prefix "vi" (WebSpeech.lang w)) vs with
          | Some w => v = w /\ String.prefix "vi" (WebSpeech.lang v) = true
          | None => hd_error vs = Some v
          end
      end
  end.
Proof.
  unfold WebSpeech.selectVoice.
  destruct (find (fun w => String.eqb (WebSpeech.voiceURI w) uri) vs) as [w|] eqn:E1.
  - apply find_some in E1. destruct E1 as [Hin Heq]. apply String.eqb_eq in Heq.
    repeat split; assumption.
  - destruct (find (fun w => String.prefix "vi" (WebSpeech.lang w)) vs) as [w|] eqn:E2.
    + apply find_some in E2. destruct E2 as [Hin Hp]. repeat split; assumption.
    + destruct vs as [|v vs']; cbn; [reflexivity|]. split; [now left|reflexivity].
Qed.

End VoiceFacts.

Section ScrollFacts.

Import Scrolling.

(** X15. Scrolling in continuous mode only ever widens the window, by at
    most five chunks at each end and never past the chunk list, so a chunk
    that was in the window stays in it; it widens at the top only within 100
    pixels of the top; and it touches nothing but the window. *)
Theorem handleScroll_widens_within_bounds
  (e : ScrollMetrics) (refs : ScrollRefs) (r : State)
  (Hrange : (0 <= fst (visibleRange r) <= snd (visibleRange r))%Z)
  (Hend : (snd (visibleRange r) <= len (chunks r))%Z) :
  let r' := fst (handleScroll e refs r) in
  (0 <= fst (visibleRange r') <= fst (visibleRange r))%Z /\
  (snd (visibleRange r) <= snd (visibleRange r') <= len (chunks r))%Z /\
  (fst (visibleRange r) - fst (visibleRange r') <= 5)%Z /\
  (snd (visibleRange r') - snd (visibleRange r) <= 5)%Z /\
  (100 <= scrollTop e -> fst (visibleRange r') = fst (visibleRange r)) /\
  r' = setVisibleRange (visibleRange r') r.
Proof.
  intros r'. unfold r', handleScroll.
  assert (Hset : forall v w, setVisibleRange v (setVisibleRange w r) = setVisibleRange v r)
    by reflexivity.
  assert (Hid : r = setVisibleRange (visibleRange r) r) by (now destruct r).
  assert (Htop : 100 <= scrollTop e -> Qlt_bool (scrollTop e) 100 = false).
  { intros H. unfold Qlt_bool. apply negb_false_iff. now apply Qle_bool_iff. }
  destruct (Qlt_bool (scrollTop e) 100 && (fst (visibleRange r) >? 0)%Z)%bool eqn:E1;
    destruct (Qlt_bool (scrollHeight e - scrollTop e - clientHeight e) 100
              && (snd (visibleRange r) <? len (chunks r))%Z)%bool eqn:E2;
    cbn [fst snd visibleRange setVisibleRange];
    (split; [lia|]); (split; [lia|]); (split; [lia|]); (split; [lia|]); split;
    try reflexivity; try exact Hid;
    intros H; rewrite (Htop H) in E1; discriminate E1.
Qed.

Lemma handleScroll_witness :
  visibleRange (fst (handleScroll (mkMetrics 0 1000 400) (mkRefs 0 false)
                       (setVisibleRange (7, 12)%Z longReader)))
  = (2, 12)%Z.
Proof.
  assert (H1 : (0 <= fst (visibleRange (setVisibleRange (7, 12)%Z longReader))
                <= snd (visibleRange (setVisibleRange (7, 12)%Z longReader)))%Z)
    by (cbn; lia).
  assert (H2 : (snd (visibleRange (setVisibleRange (7, 12)%Z longReader))
                <= len (chunks (setVisibleRange (7, 12)%Z longReader)))%Z)
    by (vm_compute; discriminate).
  pose proof (@handleScroll_widens_within_bounds (mkMetrics 0 1000 400) (mkRefs 0 false)
                (setVisibleRange (7, 12)%Z longReader) H1 H2) as H.
  cbv zeta in H. destruct H as (_ & _ & _ & _ & _ & H).
  rewrite H. vm_compute. reflexivity.
Defined.

(** X16. Scroll restoration: when a scroll event widens the window at the
    top and the container has grown by the next layout, the scroll offset is
    moved down by exactly the growth, once: the effect clears its flag, so
    running it again moves nothing; without such an event it moves nothing. *)
Theorem scroll_offset_follows_prepended_height
  (e container : ScrollMetrics) (refs : ScrollRefs) (r : State) :
  let refs' := snd (handleScroll e refs r) in
  let restored := restoreScroll container refs' in
  (if (Qlt_bool (scrollTop e) 100 && (fst (visibleRange r) >? 0)%Z)%bool then
     previousScrollHeight refs' = scrollHeight e /\
     isPrepending refs' = true /\
     scrollTop (fst restored)
     = (if Qlt_bool 0 (scrollHeight container - scrollHeight e)
        then scrollTop container + (scrollHeight container - scrollHeight e)
        else scrollTop container)
   else refs' = refs) /\
  isPrepending (snd restored) = false /\
  restoreScroll (fst restored) (snd restored) = restored /\
  restoreScroll container (mkRefs (previousScrollHeight refs) false)
  = (container, mkRefs (previousScrollHeight refs) false).
Proof.
  intros refs' restored. unfold restored, refs', handleScroll, restoreScroll.
  destruct (Qlt_bool (scrollTop e) 100 && (fst (visibleRange r) >? 0)%Z)%bool;
    destruct (Qlt_bool (scrollHeight e - scrollTop e - clientHeight e) 100
              && (snd (visibleRange r) <? len (chunks r))%Z)%bool;
    cbn [fst snd isPrepending previousScrollHeight];
    try destruct (Qlt_bool 0 (scrollHeight container - scrollHeight e));
    try (destruct refs as [p [|]]; cbn;
         try destruct (Qlt_bool 0 (scrollHeight container - p)));
    repeat split; cbn; reflexivity.
Qed.

End ScrollFacts.

Section LongTextFacts.

Import LongText.

Lemma trimStart_length s : (length (trimStart s) <= length s)%nat.
Proof.
  induction s as [|c s IH]; [reflexivity|]. cbn [trimStart].
  destruct (isWhiteSpace c); cbn [length]; lia.
Qed.

Lemma trim_length s : (length (trim s) <= length s)%nat.
Proof.
  unfold trim, trimEnd. rewrite length_rev.
  etransitivity; [apply trimStart_length|]. rewrite length_rev. apply trimStart_length.
Qed.

Lemma findLast_bound p s i acc j :
  findLast p s i acc = Some j ->
  acc = Some j \/ (i <= j < i + length s)%nat.
Proof.
  revert i acc. induction s as [|c s IH]; intros i acc H; cbn [findLast] in H.
  - now left.
  - apply IH in H. cbn [length]. destruct H as [H | H]; [|right; lia].
    destruct (p c); [|now left]. injection H as <-. right. lia.
Qed.

Lemma splitIndex_bounds s : (1 <= splitIndex s <= 201)%nat.
Proof.
  unfold splitIndex, lastPunctuation, lastIndexOfSpace, MAX_CHUNK_LENGTH.
  destruct (findLast isPunctuation (firstn 200 s) 0 None) as [i|] eqn:E1.
  - apply findLast_bound in E1. destruct E1 as [E1 | E1]; [discriminate|].
    pose proof (firstn_le_length 200 s). lia.
  - destruct (findLast (N.eqb SPACE) (firstn 201 s) 0 None) as [j|] eqn:E2; [|lia].
    apply findLast_bound in E2. destruct E2 as [E2 | E2]; [discriminate|].
    pose proof (firstn_le_length 201 s). destruct (0 <? j)%nat; lia.
Qed.

Lemma splitLoop_rest_length s m :
  length s = S m -> (length (trim (skipn (splitIndex s) s)) <= m)%nat.
Proof.
  intros El. etransitivity; [apply trim_length|]. rewrite length_skipn.
  pose proof (splitIndex_bounds s). lia.
Qed.

Lemma splitLoop_fuel fuel : forall s fuel',
  (length s <= fuel)%nat -> (length s <= fuel')%nat ->
  splitLoop fuel s = splitLoop fuel' s.
Proof.
  induction fuel as [|fuel IH]; intros s fuel' Hs Hs'.
  - destruct s; [|cbn in Hs; lia]. now destruct fuel'.
  - destruct fuel' as [|fuel'].
    + destruct s; [|cbn in Hs'; lia]. reflexivity.
    + cbn [splitLoop]. destruct (length s =? 0)%nat eqn:E0; [reflexivity|].
      destruct (length s <=? MAX_CHUNK_LENGTH)%nat; [reflexivity|].
      apply Nat.eqb_neq in E0.
      destruct (length s) as [|m] eqn:El; [congruence|].
      pose proof (@splitLoop_rest_length s m El). f_equal. apply IH; lia.
Qed.

Lemma splitLoop_properties fuel s :
  (length s <= fuel)%nat ->
  Forall (fun p => (1 <= length p <= 201)%nat) (splitLoop fuel s) /\
  nonWhite (concat (splitLoop fuel s)) = nonWhite s.
Proof.
  revert s. induction fuel as [|fuel IH]; intros s Hs.
  - destruct s; [|cbn in Hs; lia]. split; [constructor|reflexivity].
  - cbn [splitLoop]. destruct (length s =? 0)%nat eqn:E0.
    + apply Nat.eqb_eq in E0. destruct s; [|discriminate].
      split; [constructor|reflexivity].
    + apply Nat.eqb_neq in E0.
      destruct (length s) as [|m] eqn:El; [congruence|]. rewrite <- El.
      destruct (length s <=? MAX_CHUNK_LENGTH)%nat eqn:E1.
      * apply Nat.leb_le in E1. unfold MAX_CHUNK_LENGTH in E1. split.
        -- constructor; [lia|constructor].
        -- cbn [concat]. now rewrite app_nil_r.
      * apply Nat.leb_gt in E1. unfold MAX_CHUNK_LENGTH in E1.
        pose proof (splitIndex_bounds s) as Hk.
        pose proof (@splitLoop_rest_length s m El) as Hrest.
        destruct (IH (trim (skipn (splitIndex s) s)) ltac:(lia)) as (A & B).
        split.
        -- constructor; [|exact A]. rewrite length_firstn. lia.
        -- cbn [concat]. rewrite nonWhite_app, B, trim_nonWhite, <- nonWhite_app.
           now rewrite firstn_skipn.
Qed.

(** X21. Cutting a long text for speech: every piece has between 1 and 201
    characters; the pieces, joined, hold the characters of the text that are
    not white space, in order; a text of 200 characters or fewer is one
    piece; and the loop ends within as many iterations as the text has
    characters (more fuel changes nothing). *)
Theorem splitLongText_pieces (text : jsstring) (extraFuel : nat) :
  Forall (fun p => (1 <= length p <= 201)%nat) (splitLongText text) /\
  nonWhite (concat (splitLongText text)) = nonWhite text /\
  splitLoop (length text + extraFuel) text = splitLongText text /\
  (if (length text =? 0)%nat then splitLongText text = []
   else if (length text <=? 200)%nat then splitLongText text = [text]
   else (2 <= length (splitLongText text))%nat \/
        nonWhite (skipn (splitIndex text) text) = []).
Proof.
  unfold splitLongText.
  destruct (@splitLoop_properties (length text) text (le_n _)) as (A & B).
  repeat (split; [assumption|]).
  split; [apply splitLoop_fuel; lia|].
  destruct (length text) as [|m] eqn:El; [reflexivity|]. cbn [Nat.eqb splitLoop].
  rewrite <- El. replace (length text =? 0)%nat with false
    by (symmetry; apply Nat.eqb_neq; lia).
  change MAX_CHUNK_LENGTH with 200%nat.
  destruct (length text <=? 200)%nat; [reflexivity|].
  destruct (splitLoop m (trim (skipn (splitIndex text) text))) as [|p ps] eqn:E.
  - right.
    destruct (@splitLoop_properties m _ (@splitLoop_rest_length text m El)) as (_ & B').
    rewrite E in B'. cbn in B'. now rewrite trim_nonWhite in B'.
  - left. cbn [length]. lia.
Qed.

Section ChainFacts.

Variable Callback : Type.
Variable session : Session Callback.

Lemma skipn_nth_error (A : Type) : forall (l : list A) i c,
  nth_error l i = Some c -> skipn i l = c :: skipn (S i) l.
Proof.
  induction l as [|a l IH]; intros [|i] c H; try discriminate.
  - injection H as ->. reflexivity.
  - cbn [nth_error] in H. change (skipn (S i) (a :: l)) with (skipn i l).
    now rewrite (IH i c H).
Qed.

Lemma speakNextChunk_some i c y :
  nth_error (chunks session) i = Some c ->
  speakNextChunk session i y
  = (speak (mkUtterance c (WebSpeech.selectVoice (uri session) (voices y))
              (rate session) (inject_Z (volume session) / 100)
              (SpeakNextChunk session (i + 1)) (onError session)) y, []).
Proof. intros E. unfold speakNextChunk. now rewrite E. Qed.

Lemma speakNextChunk_none i y :
  (length (chunks session) <= i)%nat ->
  speakNextChunk session i y = (y, [onEnd session]).
Proof.
  intros H. apply nth_error_None in H. unfold speakNextChunk. now rewrite H.
Qed.

Lemma nth_error_in_range i :
  (i < length (chunks session))%nat ->
  nth_error (chunks session) i = Some (nth i (chunks session) []).
Proof.
  intros H. destruct (nth_error (chunks session) i) as [c|] eqn:E.
  - f_equal. symmetry. now apply nth_error_nth.
  - apply nth_error_None in E. lia.
Qed.

Lemma fireEnds_chain_prefix : forall k i vs,
  (i + k < length (chunks session))%nat ->
  exists u,
    fireEnds k (fst (speakNextChunk session i (mkSynth [] vs)))
    = (mkSynth [u] vs, firstn k (skipn i (chunks session)), []) /\
    utext u = nth (i + k) (chunks session) [] /\
    uonend u = SpeakNextChunk session (i + k + 1) /\
    uOnError u = onError session.
Proof.
  induction k as [|k IH]; intros i vs Hi.
  - rewrite (@speakNextChunk_some i _ (mkSynth [] vs) (@nth_error_in_range i ltac:(lia))).
    eexists. cbn [fst fireEnds firstn]. split; [reflexivity|].
    cbn [utext uonend uOnError]. rewrite Nat.add_0_r. auto.
  - destruct (IH (S i) vs ltac:(lia)) as (u & E1 & E3 & E4 & E5).
    exists u.
    pose proof (@nth_error_in_range i ltac:(lia)) as E.
    rewrite (@speakNextChunk_some i _ (mkSynth [] vs) E).
    cbn [fst]. split.
    + cbn [fireEnds]. unfold fireEnd at 1. cbn [speak queue voices app uonend].
      replace (i + 1)%nat with (S i) by lia.
      rewrite (@speakNextChunk_some (S i) _ (mkSynth [] vs)
                 (@nth_error_in_range (S i) ltac:(lia))) in E1 |- *.
      cbn [fst] in E1. rewrite E1.
      cbn [firstn map utext app]. f_equal. f_equal.
      rewrite (@skipn_nth_error _ (chunks session) i _ E).
      reflexivity.
    + replace (i + S k)%nat with (S i + k)%nat by lia. auto.
Qed.

Lemma fireEnds_chain_complete : forall n i vs,
  (i + n = length (chunks session))%nat -> (0 < n)%nat ->
  fireEnds n (fst (speakNextChunk session i (mkSynth [] vs)))
  = (mkSynth [] vs, skipn i (chunks session), [onEnd session]).
Proof.
  induction n as [|n IH]; intros i vs Hi Hn; [lia|].
  pose proof (@nth_error_in_range i ltac:(lia)) as E.
  rewrite (@speakNextChunk_some i _ (mkSynth [] vs) E). cbn [fst].
  cbn [fireEnds]. unfold fireEnd at 1. cbn [speak queue voices app uonend].
  replace (i + 1)%nat with (S i) by lia.
  rewrite (@skipn_nth_error _ (chunks session) i _ E).
  destruct n as [|n].
  - rewrite (@speakNextChunk_none (S i) (mkSynth [] vs) ltac:(lia)).
    cbn [fireEnds firstn map utext app].
    rewrite skipn_all2 by lia. reflexivity.
  - specialize (IH (S i) vs ltac:(lia) ltac:(lia)).
    destruct (speakNextChunk session (S i) (mkSynth [] vs)) as [y1 called1] eqn:E6.
    rewrite (@speakNextChunk_some (S i) _ (mkSynth [] vs)
               (@nth_error_in_range (S i) ltac:(lia))) in E6.
    injection E6 as <- <-. cbn [fst] in IH. rewrite IH.
    reflexivity.
Qed.

Lemma fireEnds_idle : forall n vs,
  fireEnds n (@mkSynth Callback [] vs) = (mkSynth [] vs, [], []).
Proof.
  induction n as [|n IH]; intros vs; [reflexivity|].
  cbn [fireEnds]. unfold fireEnd. cbn [queue]. rewrite IH. reflexivity.
Qed.

Lemma fireEnds_add : forall a b (y : SpeechSynthesis Callback),
  fireEnds (a + b) y
  = (fst (fst (fireEnds b (fst (fst (fireEnds a y))))),
     snd (fst (fireEnds a y)) ++ snd (fst (fireEnds b (fst (fst (fireEnds a y))))),
     snd (fireEnds a y) ++ snd (fireEnds b (fst (fst (fireEnds a y))))).
Proof.
  induction a as [|a IH]; intros b y.
  - cbn [Nat.add fireEnds fst snd app]. now destruct (fireEnds b y) as [[? ?] ?].
  - cbn [Nat.add fireEnds]. destruct (fireEnd y) as [y1 called1].
    rewrite IH. destruct (fireEnds a y1) as [[ya ea] ca]. cbn [fst snd].
    now rewrite !app_assoc.
Qed.

End ChainFacts.

Lemma splitLongText_nonempty text :
  text <> [] -> (0 < length (splitLongText text))%nat.
Proof.
  intros H. unfold splitLongText. destruct text as [|c text]; [congruence|].
  cbn [length splitLoop Nat.eqb].
  destruct (S (length text) <=? MAX_CHUNK_LENGTH)%nat; cbn [length]; lia.
Qed.

(** What [speakWebSpeech] is to speak: the text itself when it has fewer
    than 1000 characters, its pieces otherwise. *)
Lemma speakWebSpeech_chain (Callback : Type) text voiceURI r v
  (onEnd onError : Callback) y :
  let pieces := if (length text <? 1000)%nat then [text] else splitLongText text in
  (0 < length pieces)%nat /\
  forall k,
    (k < length pieces)%nat ->
    exists u,
      fireEnds k (fst (speakWebSpeech text voiceURI r v onEnd onError true y))
      = (mkSynth [u] (voices y), firstn k pieces, []) /\
      utext u = nth k pieces [] /\
      uOnError u = onError.
Proof.
  unfold speakWebSpeech. cbn [cancel voices].
  destruct (length text <? 1000)%nat eqn:E; cbn zeta.
  - split; [cbn; lia|]. intros k Hk. cbn [length] in Hk.
    assert (k = 0)%nat as -> by lia. eexists. cbn [fst fireEnds firstn].
    split; [|split]; reflexivity.
  - apply Nat.ltb_ge in E.
    assert (Hne : text <> []) by (intros ->; cbn in E; lia).
    split; [now apply splitLongText_nonempty|]. intros k Hk.
    set (session := mkSession (splitLongText text) voiceURI r v onEnd onError).
    destruct (@fireEnds_chain_prefix _ session k 0 (voices y) Hk)
      as (u & E1 & E2 & _ & E4).
    exists u. split; [exact E1|]. split; [exact E2|exact E4].
Qed.

Lemma speakWebSpeech_complete (Callback : Type) text voiceURI r v
  (onEnd onError : Callback) y :
  let pieces := if (length text <? 1000)%nat then [text] else splitLongText text in
  fireEnds (length pieces) (fst (speakWebSpeech text voiceURI r v onEnd onError true y))
  = (mkSynth [] (voices y), pieces, [onEnd]).
Proof.
  unfold speakWebSpeech. cbn [cancel voices].
  destruct (length text <? 1000)%nat eqn:E; cbn zeta.
  - reflexivity.
  - apply Nat.ltb_ge in E.
    assert (Hne : text <> []) by (intros ->; cbn in E; lia).
    pose proof (splitLongText_nonempty Hne) as Hlen.
    set (session := mkSession (splitLongText text) voiceURI r v onEnd onError).
    exact (@fireEnds_chain_complete _ session (length (splitLongText text)) 0
             (voices y) eq_refl Hlen).
Qed.

(** X22. A text handed to the speech service with cancellation requested is
    spoken piece by piece, in order, one utterance queued at a time: after
    [k] end events the first [k] pieces have ended, the next one (if any) is
    the only utterance queued, and the caller's [onEnd] has been called
    exactly once if all pieces have ended and not at all before.  The pieces
    are the text itself when it has fewer than 1000 characters, and the
    result of the splitting loop otherwise. *)
Theorem speech_chain_in_order_then_onEnd_once (Callback : Type) (text : jsstring)
  (voiceURI : string) (r : Q) (v : Z) (onEnd onError : Callback)
  (y : SpeechSynthesis Callback) (k : nat) :
  let pieces := if (length text <? 1000)%nat then [text] else splitLongText text in
  let start := speakWebSpeech text voiceURI r v onEnd onError true y in
  let '(yk, ended, called) := fireEnds k (fst start) in
  snd start = [] /\
  ended = firstn k pieces /\
  called = (if (k <? length pieces)%nat then [] else [onEnd]) /\
  map (@utext Callback) (queue yk)
  = (if (k <? length pieces)%nat then [nth k pieces []] else []) /\
  voices yk = voices y.
Proof.
  cbn zeta.
  assert (Hcalled : snd (speakWebSpeech text voiceURI r v onEnd onError true y) = []).
  { unfold speakWebSpeech. destruct (length text <? 1000)%nat eqn:E; [reflexivity|].
    apply Nat.ltb_ge in E.
    assert (Hne : text <> []) by (intros ->; cbn in E; lia).
    pose proof (splitLongText_nonempty Hne) as Hlen.
    set (session := mkSession (splitLongText text) voiceURI r v onEnd onError).
    rewrite (@speakNextChunk_some _ session 0 _ _ (@nth_error_in_range _ session 0 Hlen)).
    reflexivity. }
  destruct (k <? length (if (length text <? 1000)%nat then [text] else splitLongText text))%nat
    eqn:Ek.
  - apply Nat.ltb_lt in Ek.
    destruct (@speakWebSpeech_chain Callback text voiceURI r v onEnd onError y)
      as (_ & Hchain).
    destruct (Hchain k Ek) as (u & E1 & E2 & _). rewrite E1.
    cbn [queue map voices]. rewrite E2. auto.
  - apply Nat.ltb_ge in Ek.
    pose proof (@speakWebSpeech_complete Callback text voiceURI r v onEnd onError y)
      as Hall. cbn zeta in Hall.
    set (pieces := if (length text <? 1000)%nat then [text] else splitLongText text) in *.
    replace k with (length pieces + (k - length pieces))%nat by lia.
    assert (Hall' : fireEnds (length pieces)
                      (fst (speakWebSpeech text voiceURI r v onEnd onError true y))
                    = (mkSynth [] (voices y), pieces, [onEnd])) by exact Hall.
    rewrite fireEnds_add, Hall'. cbn [fst snd]. rewrite fireEnds_idle.
    cbn [fst snd queue voices map]. rewrite !app_nil_r.
    rewrite firstn_all2 by lia. auto.
Qed.

(** X23. An error event on a piece of the chain ends the chain: the caller's
    [onError] is called once, or nothing is called when the error is that of
    a manual cancellation; the remaining pieces are never queued, and no
    later end event calls [onEnd]. *)
Theorem speech_chain_error_ends_the_chain (Callback : Type) (text : jsstring)
  (voiceURI : string) (r : Q) (v : Z) (onEnd onError : Callback)
  (y : SpeechSynthesis Callback) (k m : nat) (error : string) :
  let pieces := if (length text <? 1000)%nat then [text] else splitLongText text in
  (k < length pieces)%nat ->
  let yk :=
    fst (fst (fireEnds k (fst (speakWebSpeech text voiceURI r v onEnd onError true y)))) in
  fireError error yk
  = (mkSynth [] (voices y),
     if (String.eqb error "canceled" || String.eqb error "interrupted")%bool
     then [] else [onError]) /\
  fireEnds m (fst (fireError error yk)) = (mkSynth [] (voices y), [], []).
Proof.
  intros pieces Hk yk.
  destruct (@speakWebSpeech_chain Callback text voiceURI r v onEnd onError y)
    as (_ & Hchain).
  destruct (Hchain k Hk) as (u & E1 & _ & E3).
  assert (Hyk : yk = mkSynth [u] (voices y)) by (unfold yk; now rewrite E1).
  assert (Herr : fireError error yk
                 = (mkSynth [] (voices y),
                    if (String.eqb error "canceled" || String.eqb error "interrupted")%bool
                    then [] else [onError])).
  { rewrite Hyk. unfold fireError. cbn [queue voices]. now rewrite E3. }
  split; [exact Herr|]. rewrite Herr. cbn [fst]. apply fireEnds_idle.
Qed.

Lemma speech_chain_error_witness :
  (2 < length (splitLongText longSample))%nat /\
  fireEnds 3
    (fst (fireError "synthesis-failed"
            (fst (fst (fireEnds 2
               (fst (speakWebSpeech longSample EmptyString 1 100 0%nat 1%nat true
                       (mkSynth [] []))))))))
  = (mkSynth [] [], [], []).
Proof.
  assert (H : (2 < length (splitLongText longSample))%nat)
    by (apply Nat.ltb_lt; vm_compute; reflexivity).
  split; [exact H|].
  exact (proj2 (@speech_chain_error_ends_the_chain nat longSample EmptyString 1 100
                  0%nat 1%nat (mkSynth [] []) 2 3 "synthesis-failed" H)).
Defined.

End LongTextFacts.

Section PcmFacts.

Import Pcm.

Lemma byteValue_range b : (0 <= byteValue b < 256)%Z.
Proof.
  unfold byteValue. pose proof (Byte.to_N_bounded b). lia.
Qed.

Lemma byteValue_inj a b : byteValue a = byteValue b -> a = b.
Proof.
  unfold byteValue. intros H. apply N2Z.inj in H.
  pose proof (Byte.of_to_N a) as Ha. rewrite H, Byte.of_to_N in Ha. congruence.
Qed.

Lemma int16_range lo hi : (-32768 <= int16 lo hi <= 32767)%Z.
Proof.
  unfold int16. pose proof (byteValue_range lo). pose proof (byteValue_range hi).
  cbv zeta. destruct (_ <? 32768)%Z eqn:E; [apply Z.ltb_lt in E|apply Z.ltb_ge in E]; lia.
Qed.

Lemma int16_inj lo hi lo' hi' : int16 lo hi = int16 lo' hi' -> lo = lo' /\ hi = hi'.
Proof.
  unfold int16. cbv zeta.
  pose proof (byteValue_range lo). pose proof (byteValue_range hi).
  pose proof (byteValue_range lo'). pose proof (byteValue_range hi').
  intros E.
  assert (byteValue lo = byteValue lo' /\ byteValue hi = byteValue hi') as [A B].
  { destruct (_ <? 32768)%Z eqn:E1 in E; destruct (_ <? 32768)%Z eqn:E2 in E;
      [apply Z.ltb_lt in E1|apply Z.ltb_lt in E1|apply Z.ltb_ge in E1|apply Z.ltb_ge in E1];
      [apply Z.ltb_lt in E2|apply Z.ltb_ge in E2|apply Z.ltb_lt in E2|apply Z.ltb_ge in E2];
      lia. }
  split; now apply byteValue_inj.
Qed.

(** Induction two bytes at a time. *)
Lemma pairs_ind (A : Type) (P : list A -> Prop) :
  P [] -> (forall a, P [a]) -> (forall a b l, P l -> P (a :: b :: l)) ->
  forall l, P l.
Proof.
  intros H0 H1 H2.
  assert (forall l, P l /\ forall a, P (a :: l)) as H.
  { induction l as [|b l [IH1 IH2]]; split; auto. }
  intros l. apply H.
Qed.

Lemma even_length_mod (A : Type) (l : list A) :
  ((length l mod 2 =? 0)%nat = Nat.even (length l)).
Proof.
  destruct (Nat.even (length l)) eqn:E.
  - apply Nat.even_spec in E. destruct E as [k ->]. apply Nat.eqb_eq.
    rewrite Nat.mul_comm. apply Nat.Div0.mod_mul.
  - apply Nat.eqb_neq. intros H. apply Nat.Div0.mod_divides in H.
    destruct H as [k H]. rewrite H, Nat.even_mul in E. discriminate.
Qed.

Lemma Int16Array_even : forall buffer,
  Nat.even (length buffer) = true ->
  exists data, Int16Array buffer = Some data /\
               length data = (length buffer / 2)%nat /\
               Forall (fun x => (-32768 <= x <= 32767)%Z) data.
Proof.
  induction buffer as [|a|a b l IH] using pairs_ind; intros H.
  - exists []. repeat split. constructor.
  - discriminate.
  - change (Nat.even (length (a :: b :: l))) with (Nat.even (length l)) in H.
    destruct (IH H) as (data & E1 & E2 & E3).
    exists (int16 a b :: data). cbn [Int16Array]. rewrite E1. split; [reflexivity|].
    split.
    + cbn [length]. rewrite E2.
      change (S (S (length l))) with (2 + length l)%nat.
      replace (2 + length l)%nat with (1 * 2 + length l)%nat by lia.
      rewrite Nat.div_add_l by lia. lia.
    + constructor; [apply int16_range|exact E3].
Qed.

Lemma Int16Array_app : forall a b da,
  Int16Array a = Some da ->
  Int16Array (a ++ b) = option_map (app da) (Int16Array b).
Proof.
  induction a as [|x|x y l IH] using pairs_ind; intros b da H.
  - injection H as <-. cbn [app]. now destruct (Int16Array b).
  - discriminate.
  - cbn [Int16Array] in H. destruct (Int16Array l) as [dl|] eqn:E; [|discriminate].
    injection H as <-. change ((x :: y :: l) ++ b) with (x :: y :: (l ++ b)).
    cbn [Int16Array]. rewrite (IH b dl eq_refl). now destruct (Int16Array b).
Qed.

Lemma Int16Array_inj : forall a b d,
  Int16Array a = Some d -> Int16Array b = Some d -> a = b.
Proof.
  induction a as [|x|x y l IH] using pairs_ind; intros b d Ha Hb.
  - injection Ha as <-. destruct b as [|p [|q b]]; [reflexivity|discriminate|].
    cbn [Int16Array] in Hb. destruct (Int16Array b); discriminate.
  - discriminate.
  - cbn [Int16Array] in Ha. destruct (Int16Array l) as [dl|] eqn:E; [|discriminate].
    injection Ha as <-. destruct b as [|p [|q b]]; try discriminate.
    cbn [Int16Array] in Hb. destruct (Int16Array b) as [db|] eqn:E'; [|discriminate].
    injection Hb as H1 H2. apply int16_inj in H1. destruct H1 as [-> ->].
    f_equal. f_equal. apply (IH b dl eq_refl). now rewrite E', H2.
Qed.

Lemma firstn_even_prefix (A : Type) (l : list A) :
  Nat.even (length l) = false ->
  Nat.even (length (firstn (length l - 1) l)) = true /\
  exists c, l = firstn (length l - 1) l ++ [c].
Proof.
  intros H. destruct l as [|a l] using rev_ind; [discriminate|].
  rewrite length_app in *. cbn [length] in *.
  replace (length l + 1 - 1)%nat with (length l) by lia.
  rewrite firstn_app, Nat.sub_diag, firstn_all. cbn [firstn]. rewrite app_nil_r.
  split; [|now exists a].
  rewrite Nat.add_1_r, Nat.even_succ, <- Nat.negb_even in H.
  now destruct (Nat.even (length l)).
Qed.

Lemma store_middle (pre : list Q) v q rest :
  store (length pre) v (pre ++ q :: rest) = pre ++ v :: rest.
Proof.
  induction pre as [|p pre IH]; [reflexivity|].
  cbn [length app store]. now rewrite IH.
Qed.

(** The loop overwrites every frame of a buffer as long as the data. *)
Lemma fillFrom_map : forall data pre rest,
  length rest = length data ->
  fillFrom (length pre) data (pre ++ rest)
  = pre ++ map (fun x => inject_Z x / 32768) data.
Proof.
  induction data as [|x data IH]; intros pre rest Hlen.
  - destruct rest; [reflexivity|discriminate].
  - destruct rest as [|q rest]; [discriminate|]. cbn [fillFrom map].
    rewrite store_middle.
    replace (pre ++ inject_Z x / 32768 :: rest)
      with ((pre ++ [inject_Z x / 32768]) ++ rest) by now rewrite <- app_assoc.
    replace (S (length pre)) with (length (pre ++ [inject_Z x / 32768]))
      by (rewrite length_app; cbn; lia).
    rewrite IH by (cbn in Hlen; lia). now rewrite <- app_assoc.
Qed.

(** The decoder in one equation: the aligned bytes as 16-bit integers, an
    error for no frame at all, each frame divided by 32768 otherwise. *)
Lemma decodeAudioData_eq (l : list Byte.byte) :
  decodeAudioData true l
  = match Int16Array (if Nat.even (length l) then l else firstn (length l - 1) l) with
    | None => None
    | Some d =>
        if (length d =? 0)%nat then None
        else Some (mkAudioBuffer 1 24000 (map (fun x => inject_Z x / 32768) d))
    end.
Proof.
  unfold decodeAudioData. cbn [negb]. cbv zeta. rewrite even_length_mod.
  destruct (Int16Array _) as [d|]; [|reflexivity].
  unfold createBuffer. cbn [Z.leb Z.compare orb].
  destruct (length d =? 0)%nat; cbn [orb]; [reflexivity|].
  cbn [numberOfChannels sampleRate channelData]. f_equal. f_equal.
  apply (@fillFrom_map d [] (repeat 0 (length d))). apply repeat_length.
Qed.

Lemma decodeAudioData_aligned_eq (l : list Byte.byte) :
  Nat.even (length l) = true ->
  decodeAudioData true l
  = match Int16Array l with
    | None => None
    | Some d =>
        if (length d =? 0)%nat then None
        else Some (mkAudioBuffer 1 24000 (map (fun x => inject_Z x / 32768) d))
    end.
Proof. intros H. now rewrite decodeAudioData_eq, H. Qed.

Lemma decodeAudioData_odd_eq (l : list Byte.byte) :
  Nat.even (length l) = false ->
  decodeAudioData true l = decodeAudioData true (firstn (length l - 1) l).
Proof.
  intros H. destruct (firstn_even_prefix _ H) as [E _].
  rewrite (decodeAudioData_aligned_eq _ E). now rewrite decodeAudioData_eq, H.
Qed.

Lemma aligned_length (l : list Byte.byte) :
  exists aligned,
    (if Nat.even (length l) then l else firstn (length l - 1) l) = aligned /\
    Nat.even (length aligned) = true /\
    (length aligned / 2 = length l / 2)%nat.
Proof.
  destruct (Nat.even (length l)) eqn:E.
  - exists l. auto.
  - destruct (firstn_even_prefix _ E) as [E1 [c E2]]. eexists. split; [reflexivity|].
    split; [exact E1|]. rewrite E2 at 3. rewrite length_app. cbn [length].
    apply Nat.even_spec in E1. destruct E1 as [k ->].
    rewrite (Nat.mul_comm 2 k), Nat.div_mul by lia.
    now rewrite Nat.div_add_l by lia.
Qed.

(** X24. Decoding raw audio fails without an audio context and for fewer
    than two bytes, where the browser refuses a buffer without frames. For
    two bytes or more it succeeds, whatever the byte length (a final odd
    byte is dropped): the buffer is mono at 24000 Hz, has one sample for
    every two bytes, and every sample lies between -1 and 32767/32768. *)
Theorem decodeAudioData_frames_and_bounds (arrayBuffer : list Byte.byte) :
  decodeAudioData false arrayBuffer = None /\
  if (length arrayBuffer <? 2)%nat then decodeAudioData true arrayBuffer = None
  else
    exists buffer,
      decodeAudioData true arrayBuffer = Some buffer /\
      numberOfChannels buffer = 1%Z /\
      sampleRate buffer = 24000%Z /\
      length (channelData buffer) = (length arrayBuffer / 2)%nat /\
      (1 <= length (channelData buffer))%nat /\
      Forall (fun q => -1 <= q /\ q <= 32767 # 32768) (channelData buffer).
Proof.
  split; [reflexivity|].
  rewrite decodeAudioData_eq.
  destruct (aligned_length arrayBuffer) as (aligned & -> & Heven & Hlen).
  destruct (Int16Array_even aligned Heven) as (data & -> & E2 & E3).
  rewrite Hlen in E2.
  destruct (length arrayBuffer <? 2)%nat eqn:E.
  - apply Nat.ltb_lt in E.
    replace (length data) with 0%nat; [reflexivity|].
    rewrite E2. symmetry. apply Nat.div_small. exact E.
  - apply Nat.ltb_ge in E.
    assert (Hpos : (1 <= length data)%nat).
    { rewrite E2. apply Nat.div_le_lower_bound; lia. }
    replace (length data =? 0)%nat with false
      by (symmetry; apply Nat.eqb_neq; lia).
    eexists. split; [reflexivity|]. cbn [numberOfChannels sampleRate channelData].
    repeat (split; [reflexivity|]). rewrite length_map.
    split; [exact E2|]. split; [exact Hpos|].
    apply Forall_map. eapply Forall_impl; [|exact E3].
    intros x Hx. cbv beta in Hx |- *. unfold Qdiv, Qmult, Qinv, Qle, inject_Z. cbn. lia.
Qed.

Lemma sample_inj (x y : Z) :
  inject_Z x / 32768 == inject_Z y / 32768 -> x = y.
Proof.
  unfold Qdiv, Qmult, Qinv, Qeq, inject_Z. cbn. lia.
Qed.

Lemma samples_inj : forall da db,
  Forall2 Qeq (map (fun x => inject_Z x / 32768) da)
              (map (fun x => inject_Z x / 32768) db) ->
  da = db.
Proof.
  induction da as [|x da IH]; intros [|y db] H; inversion H; subst;
    [reflexivity|].
  f_equal; [now apply sample_inj | now apply IH].
Qed.

Lemma Int16Array_length_pos l d :
  Int16Array l = Some d -> (2 <= length l)%nat -> (length d =? 0)%nat = false.
Proof.
  intros Hd Hl. destruct l as [|a [|b l]]; cbn in Hl; try lia.
  cbn [Int16Array] in Hd. destruct (Int16Array l); [|discriminate].
  injection Hd as <-. reflexivity.
Qed.

(** X25. Raw audio can be decoded in pieces: when a buffer is cut at an even
    offset into two parts of two bytes or more, all three decodings succeed
    and the samples of the whole are the samples of the first part followed
    by the samples of the second. *)
Theorem decodeAudioData_of_concatenation (a b : list Byte.byte)
  (Ha : Nat.even (length a) = true)
  (Ha2 : (2 <= length a)%nat) (Hb2 : (2 <= length b)%nat) :
  exists x y z,
    decodeAudioData true a = Some x /\
    decodeAudioData true b = Some y /\
    decodeAudioData true (a ++ b) = Some z /\
    channelData z = channelData x ++ channelData y.
Proof.
  destruct (Int16Array_even a Ha) as (da & Ea & _).
  assert (Hb : exists b', Nat.even (length b') = true /\ (2 <= length b')%nat /\
                 decodeAudioData true b = decodeAudioData true b' /\
                 decodeAudioData true (a ++ b) = decodeAudioData true (a ++ b')).
  { destruct (Nat.even (length b)) eqn:E.
    - exists b. auto.
    - destruct (firstn_even_prefix _ E) as [E1 [c E2]].
      exists (firstn (length b - 1) b). split; [exact E1|].
      split.
      { rewrite length_firstn.
        assert (length b <> 2)%nat by (intros H2; rewrite H2 in E; discriminate).
        lia. }
      split; [now apply decodeAudioData_odd_eq|].
      assert (Hodd : Nat.even (length (a ++ b)) = false).
      { rewrite length_app, Nat.even_add, Ha, E. reflexivity. }
      rewrite (decodeAudioData_odd_eq _ Hodd). f_equal.
      rewrite E2 at 2. rewrite app_assoc, length_app.
      replace (length a + length b - 1)%nat
        with (length (a ++ firstn (length b - 1) b) + 0)%nat.
      2:{ rewrite length_app, length_firstn. lia. }
      rewrite firstn_app_2. cbn [firstn]. apply app_nil_r. }
  destruct Hb as (b' & Hb' & Hb2' & -> & ->).
  destruct (Int16Array_even b' Hb') as (db & Eb & _).
  assert (Hab : Nat.even (length (a ++ b')) = true)
    by (rewrite length_app, Nat.even_add, Ha, Hb'; reflexivity).
  rewrite !decodeAudioData_aligned_eq by assumption.
  rewrite (@Int16Array_app a b' da Ea), Ea, Eb. cbn [option_map].
  rewrite (@Int16Array_length_pos a da Ea Ha2), (@Int16Array_length_pos b' db Eb Hb2').
  replace (length (da ++ db) =? 0)%nat with false.
  2:{ symmetry. apply Nat.eqb_neq. rewrite length_app.
      pose proof (@Int16Array_length_pos a da Ea Ha2) as Hp.
      apply Nat.eqb_neq in Hp. lia. }
  do 3 eexists. repeat (split; [reflexivity|]). cbn [channelData].
  apply map_app.
Qed.

Lemma decodeAudioData_concatenation_witness :
  exists x y z,
    decodeAudioData true [Byte.x01; Byte.x80] = Some x /\
    decodeAudioData true [Byte.xff; Byte.x7f; Byte.x05] = Some y /\
    decodeAudioData true ([Byte.x01; Byte.x80] ++ [Byte.xff; Byte.x7f; Byte.x05]) = Some z /\
    channelData z = channelData x ++ channelData y.
Proof.
  apply (@decodeAudioData_of_concatenation [Byte.x01; Byte.x80]
           [Byte.xff; Byte.x7f; Byte.x05]).
  - reflexivity.
  - cbn. lia.
  - cbn. lia.
Defined.

(** X26. Decoding loses nothing: two buffers of even length whose decoded
    samples are equal as numbers are the same bytes. *)
Theorem decodeAudioData_lossless (a b : list Byte.byte) (x y : AudioBuffer)
  (Ha : Nat.even (length a) = true) (Hb : Nat.even (length b) = true)
  (Hx : decodeAudioData true a = Some x) (Hy : decodeAudioData true b = Some y)
  (Hsame : Forall2 Qeq (channelData x) (channelData y)) :
  a = b.
Proof.
  rewrite decodeAudioData_aligned_eq in Hx, Hy by assumption.
  destruct (Int16Array a) as [da|] eqn:Ea; [|discriminate].
  destruct (Int16Array b) as [db|] eqn:Eb; [|discriminate].
  destruct (length da =? 0)%nat; [discriminate|].
  destruct (length db =? 0)%nat; [discriminate|].
  injection Hx as <-. injection Hy as <-.
  cbn [channelData] in Hsame. apply samples_inj in Hsame. subst db.
  exact (@Int16Array_inj a b da Ea Eb).
Qed.

Lemma decodeAudioData_lossless_witness :
  [Byte.x00; Byte.x80] = [Byte.x00; Byte.x80].
Proof.
  apply (@decodeAudioData_lossless [Byte.x00; Byte.x80] [Byte.x00; Byte.x80]
           (mkAudioBuffer 1 24000 [inject_Z (-32768) / 32768])
           (mkAudioBuffer 1 24000 [inject_Z (-32768) / 32768])).
  - reflexivity.
  - reflexivity.
  - reflexivity.
  - reflexivity.
  - constructor; [reflexivity|constructor].
Defined.

End PcmFacts.

Section GeminiFacts.

Import Gemini.

Variable atob : string -> Error + string.
Variable api : nat -> ApiResult.

Lemma noAudioError_not_retryable candidate :
  isRetryable (noAudioError candidate) = false.
Proof.
  unfold noAudioError. cbv zeta. destruct (truthy _ && _); vm_compute; reflexivity.
Qed.

Lemma retryLoop_effects fuel :
  (4 <= fuel)%nat ->
  let '(result, effects) := retryLoop atob api fuel 0 None in
  In effects [[Call 0];
              [Call 0; Wait 1000; Call 1];
              [Call 0; Wait 1000; Call 1; Wait 2000; Call 2]] /\
  result <> Throw None /\
  retryLoop atob api fuel 0 None = retryLoop atob api 4 0 None.
Proof.
  intros Hf. do 4 (destruct fuel as [|fuel]; [lia|]). clear Hf.
  cbn [retryLoop MAX_RETRIES Nat.ltb Nat.leb Nat.sub Nat.add andb].
  generalize (attemptOnce atob api). intros f.
  destruct (f 0%nat) as [e0|b0]; [|cbn; split; [auto|split; [discriminate|reflexivity]]].
  destruct (isRetryable e0); cbn [andb];
    [|cbn; split; [auto|split; [discriminate|reflexivity]]].
  destruct (f 1%nat) as [e1|b1]; [|cbn; split; [auto|split; [discriminate|reflexivity]]].
  destruct (isRetryable e1); cbn [andb];
    [|cbn; split; [auto|split; [discriminate|reflexivity]]].
  destruct (f 2%nat) as [e2|b2]; [|cbn; split; [auto 6|split; [discriminate|reflexivity]]].
  rewrite andb_false_r. cbn. split; [auto 6|split; [discriminate|reflexivity]].
Qed.

(** X27. A speech request makes no call when the key is missing or the text
    is blank, and otherwise between one and three calls, waiting 1000 ms
    before the second and 2000 ms before the third (there is no third wait);
    what it throws is never an undefined value; and the loop ends by itself
    (more fuel changes nothing). *)
Theorem generateSpeech_attempts_and_backoff (text : jsstring) (apiKey : string)
  (envKey : option string) (extraFuel : nat) :
  let key := if negb (String.eqb apiKey EmptyString) then Some apiKey else envKey in
  let '(result, effects) := generateSpeech atob api text apiKey envKey in
  (if negb (truthy key) || forallb isWhiteSpace text
   then effects = []
   else In effects [[Call 0];
                    [Call 0; Wait 1000; Call 1];
                    [Call 0; Wait 1000; Call 1; Wait 2000; Call 2]]) /\
  result <> Throw None /\
  retryLoop atob api (S MAX_RETRIES + extraFuel) 0 None
  = retryLoop atob api (S MAX_RETRIES) 0 None.
Proof.
  cbv zeta. unfold generateSpeech.
  set (key := if negb (String.eqb apiKey EmptyString) then Some apiKey else envKey).
  pose proof (@retryLoop_effects (S MAX_RETRIES + extraFuel)
                ltac:(unfold MAX_RETRIES; lia)) as Hx.
  pose proof (@retryLoop_effects (S MAX_RETRIES) ltac:(unfold MAX_RETRIES; lia)) as H4.
  assert (Hfuel : retryLoop atob api (S MAX_RETRIES + extraFuel) 0 None
                  = retryLoop atob api (S MAX_RETRIES) 0 None).
  { destruct (retryLoop atob api (S MAX_RETRIES + extraFuel) 0 None) as [r1 t1].
    destruct Hx as (_ & _ & ->). reflexivity. }
  destruct (truthy key); cbn [negb orb].
  2:{ split; [reflexivity|]. split; [discriminate|exact Hfuel]. }
  assert (Hblank : ((length text =? 0)%nat || (length (trim text) =? 0)%nat)
                   = forallb isWhiteSpace text).
  { destruct (forallb isWhiteSpace text) eqn:E.
    - assert (Ht : trim text = [])
        by (apply trim_nil_iff; apply nonWhite_nil_forallb; exact E).
      rewrite Ht. cbn. apply orb_true_r.
    - destruct text as [|c text]; [discriminate|]. cbn [length Nat.eqb orb].
      destruct (trim (c :: text)) as [|d t] eqn:Et; [|reflexivity].
      apply trim_nil_iff in Et. apply nonWhite_nil_forallb in Et. congruence. }
  rewrite Hblank. destruct (forallb isWhiteSpace text).
  - split; [reflexivity|]. split; [discriminate|exact Hfuel].
  - destruct (retryLoop atob api (S MAX_RETRIES) 0 None) as [r t].
    destruct H4 as (A & B & _). auto.
Qed.

(** X28. The errors that the request raises itself for a response without
    audio (blocked by the safety filter, or empty) are never retried: with a
    key and a text that is not blank, such a first response makes the
    request throw that error after exactly one call and no wait. *)
Theorem generateSpeech_missing_audio_is_not_retried (text : jsstring)
  (apiKey : string) (envKey : option string) (candidate : option Candidate)
  (Hkey : truthy (if negb (String.eqb apiKey EmptyString) then Some apiKey else envKey)
          = true)
  (Htext : forallb isWhiteSpace text = false)
  (Hresponse : api 0 = Resolved candidate)
  (Hnone : truthy (match candidate with Some c => inlineData c | None => None end)
           = false) :
  generateSpeech atob api text apiKey envKey
  = (Throw (Some (noAudioError candidate)), [Call 0]) /\
  isRetryable (noAudioError candidate) = false.
Proof.
  split; [|apply noAudioError_not_retryable].
  unfold generateSpeech. rewrite Hkey. cbn [negb].
  assert (Hblank : ((length text =? 0)%nat || (length (trim text) =? 0)%nat) = false).
  { destruct text as [|c text]; [discriminate|]. cbn [length Nat.eqb orb].
    destruct (trim (c :: text)) as [|d t] eqn:Et; [|reflexivity].
    apply trim_nil_iff in Et. apply nonWhite_nil_forallb in Et. congruence. }
  rewrite Hblank.
  assert (Hattempt : attemptOnce atob api 0 = inl (noAudioError candidate)).
  { unfold attemptOnce. rewrite Hresponse. cbv zeta.
    destruct (match candidate with Some c => inlineData c | None => None end) as [b64|];
      [|reflexivity].
    cbn [truthy] in Hnone. apply negb_false_iff in Hnone. now rewrite Hnone. }
  cbn [retryLoop MAX_RETRIES Nat.ltb Nat.leb]. rewrite Hattempt.
  now rewrite noAudioError_not_retryable.
Qed.

End GeminiFacts.

Lemma generateSpeech_missing_audio_witness :
  Gemini.generateSpeech (fun s => inr s)
    (fun _ => Gemini.Resolved (Some (Gemini.mkCandidate (Some "SAFETY"%string) None)))
    (of_string "Hello.") "key" None
  = (Gemini.Throw (Some (Gemini.noAudioError
                           (Some (Gemini.mkCandidate (Some "SAFETY"%string) None)))),
     [Gemini.Call 0]) /\
  Gemini.isRetryable (Gemini.noAudioError
                        (Some (Gemini.mkCandidate (Some "SAFETY"%string) None))) = false.
Proof.
  apply (@generateSpeech_missing_audio_is_not_retried (fun s => inr s)
           (fun _ => Gemini.Resolved (Some (Gemini.mkCandidate (Some "SAFETY"%string) None)))
           (of_string "Hello.") "key" None
           (Some (Gemini.mkCandidate (Some "SAFETY"%string) None)));
    reflexivity.
Defined.

Section TraceFacts.

Lemma extends_refl s : extends s s.
Proof. exists []. now rewrite app_nil_r. Qed.

Lemma extends_trans s1 s2 s3 : extends s1 s2 -> extends s2 s3 -> extends s1 s3.
Proof.
  intros [t1 H1] [t2 H2]. exists (t1 ++ t2). now rewrite H2, H1, app_assoc.
Qed.

Lemma extends_same s s' s'' : trace s' = trace s'' -> extends s s'' -> extends s s'.
Proof. intros E [t H]. exists t. now rewrite E. Qed.

Ltac same_trace := exists []; rewrite app_nil_r; reflexivity.

Lemma extends_emit a s : extends s (emit a s).
Proof. now exists [a]. Qed.

Lemma clearProgressInterval_trace s : trace (clearProgressInterval s) = trace s.
Proof. unfold clearProgressInterval. now destruct (progressInterval s). Qed.

Lemma setChunkProgress_extends v s : extends s (setChunkProgress v s).
Proof. now exists [AProgress v]. Qed.

Lemma playChunk_extends cs st index autoPlay s :
  extends s (playChunk cs st index autoPlay s).
Proof. apply playChunk_trace. Qed.

Lemma handleStop_extends s : extends s (handleStop s).
Proof.
  unfold handleStop. cbv zeta.
  eapply extends_trans; [|apply setChunkProgress_extends].
  exists [AStop]. cbn [trace setReaderState]. now rewrite clearProgressInterval_trace.
Qed.

Lemma stop_then_play_extends cs st index r :
  extends r (playChunk cs st index false (setCurrentChunkIndex index (handleStop r))).
Proof.
  eapply extends_trans; [apply handleStop_extends|].
  eapply extends_trans; [|apply playChunk_extends].
  exists []. cbn [trace setCurrentChunkIndex]. now rewrite app_nil_r.
Qed.

Lemma invoke_extends cb error pct s : extends s (invoke cb error pct s).
Proof.
  destruct cb as [cs st index| |]; cbn [invoke].
  - assert (H : extends s (setChunkProgress 100 (clearProgressInterval s))).
    { eapply extends_trans; [|apply setChunkProgress_extends].
      exists []. now rewrite clearProgressInterval_trace, app_nil_r. }
    destruct (index <? len cs - 1)%Z.
    + eapply extends_trans; [exact H|].
      eapply extends_trans; [apply playChunk_extends|]. same_trace.
    + eapply extends_trans; [exact H|]. same_trace.
  - exists []. cbn. now rewrite clearProgressInterval_trace, app_nil_r.
  - apply setChunkProgress_extends.
Qed.

Lemma handle_extends ev r : extends r (handle ev r).
Proof.
  destruct ev; cbn [handle].
  - unfold handlePlayPause. destruct (readerState r);
      try apply playChunk_extends;
      unfold pauseWebSpeech, resumeWebSpeech;
      [exists [APause]; reflexivity | exists [AResume]; reflexivity].
  - apply handleStop_extends.
  - apply stop_then_play_extends.
  - unfold handleJump. destruct target as [t|]; [|same_trace].
    destruct ((0 <? t) && (t <=? len (chunks r)))%Z; [|same_trace].
    apply stop_then_play_extends.
  - apply stop_then_play_extends.
  - unfold changeChunkSize. cbv zeta. destruct (_ =? _)%Z; same_trace.
  - unfold handleSaveSettings, floorDiv. cbv zeta.
    destruct (negb _); [destruct (sentencesPerChunk tempSettings =? 0)%Z|]; same_trace.
  - unfold handlePageChange. destruct (_ && _)%Z; same_trace.
  - unfold handlePageChange. destruct (_ && _)%Z; same_trace.
  - unfold tick. destruct (progressInterval r); [|same_trace].
    apply setChunkProgress_extends.
  - destruct (dispatched SpeechEnd r).
    + eapply extends_trans; [|apply invoke_extends]. same_trace.
    + same_trace.
  - destruct (dispatched (SpeechError error) r).
    + eapply extends_trans; [|apply invoke_extends]. same_trace.
    + same_trace.
  - same_trace.
Qed.

Lemma initChunksEffect_extends r s : extends s (initChunksEffect r s).
Proof.
  unfold initChunksEffect. cbv zeta. destruct (_ >=? _)%Z; same_trace.
Qed.

Lemma settingsEffect_extends r s : extends s (settingsEffect r s).
Proof.
  unfold settingsEffect, onSaveProgress. eapply extends_trans; [|apply extends_emit].
  destruct (readerState r); try same_trace.
  eapply extends_trans; [|apply playChunk_extends]. same_trace.
Qed.

Lemma indexSaveEffect_extends r s : extends s (indexSaveEffect r s).
Proof.
  unfold indexSaveEffect, onSaveProgress. destruct (negb (isSettingUpdate s)).
  - eapply extends_same; [|apply extends_emit]. reflexivity.
  - same_trace.
Qed.

Lemma viewportEffect_extends r s : extends s (viewportEffect r s).
Proof. same_trace. Qed.

Lemma pageEffect_extends r s : extends s (pageEffect r s).
Proof. same_trace. Qed.

Lemma loadVoicesEffect_extends r s : extends s (loadVoicesEffect r s).
Proof. same_trace. Qed.

Lemma effectsPass_extends prev r : extends r (effectsPass prev r).
Proof.
  unfold effectsPass. cbv zeta. destruct prev as [p|].
  all: repeat match goal with
         | |- extends _ (if ?b then _ else _) => destruct b
         | |- extends _ (loadVoicesEffect _ _) =>
             eapply extends_trans; [|apply loadVoicesEffect_extends]
         | |- extends _ (indexSaveEffect _ _) =>
             eapply extends_trans; [|apply indexSaveEffect_extends]
         | |- extends _ (settingsEffect _ _) =>
             eapply extends_trans; [|apply settingsEffect_extends]
         | |- extends _ (viewportEffect _ _) =>
             eapply extends_trans; [|apply viewportEffect_extends]
         | |- extends _ (initChunksEffect _ _) =>
             eapply extends_trans; [|apply initChunksEffect_extends]
         | |- extends _ (pageEffect _ _) =>
             eapply extends_trans; [|apply pageEffect_extends]
         end; apply extends_refl.
Qed.

Lemma step_extends ev r : extends r (step ev r).
Proof.
  unfold step, commit.
  eapply extends_trans; [apply handle_extends|].
  eapply extends_trans; apply effectsPass_extends.
Qed.

Lemma run_extends evs : forall r, extends r (run evs r).
Proof.
  induction evs as [|ev evs IH]; intros r; [apply extends_refl|].
  cbn [run fold_left]. eapply extends_trans; [apply step_extends|apply IH].
Qed.

Lemma extends_saves s s' :
  extends s s' -> exists tail, saves s' = saves s ++ tail.
Proof.
  intros [t H]. exists (filter isSave t). unfold saves. now rewrite H, filter_app.
Qed.

Lemma mount_saves content st idx vs : saves (mount content st idx vs) <> [].
Proof.
  unfold mount.
  set (r := mkState content [] idx IDLE st None 0 (0%Z, 0%Z) (idx / ITEMS_PER_PAGE)%Z
              false None (WebSpeech.mkSynth [] vs false) []).
  assert (H1 : exists t, saves (settingsEffect r (viewportEffect r
                   (initChunksEffect r (loadVoicesEffect r (pageEffect r r))))) = t ++ [ASave idx st]).
  { unfold settingsEffect, onSaveProgress, saves. cbn [readerState r trace emit].
    rewrite filter_app. eexists. reflexivity. }
  destruct H1 as [t H1].
  assert (H2 : extends (settingsEffect r (viewportEffect r
                   (initChunksEffect r (loadVoicesEffect r (pageEffect r r)))))
                 (effectsPass (Some r) (effectsPass None r))).
  { eapply extends_trans; [|apply effectsPass_extends].
    rewrite effectsPass_first. apply indexSaveEffect_extends. }
  apply extends_saves in H2. destruct H2 as [tail H2]. rewrite H2, H1.
  intros E. apply app_eq_nil in E. destruct E as [E _].
  apply app_eq_nil in E. destruct E as [_ E]. discriminate.
Qed.

Lemma saves_last s :
  saves s <> [] -> exists earlier i st, saves s = earlier ++ [ASave i st].
Proof.
  intros H. destruct (exists_last H) as (earlier & a & E).
  assert (Ha : In a (saves s)) by (rewrite E; apply in_or_app; right; now left).
  unfold saves in Ha. apply filter_In in Ha. destruct Ha as [_ Ha].
  destruct a; try discriminate. now exists earlier, chunkIndex, st.
Qed.

End TraceFacts.

Section AppFacts.

Lemma lookup_assign name v store g :
  App.lookup g (App.assign name v store)
  = if String.eqb g name then Some v else App.lookup g store.
Proof.
  induction store as [|[k w] store IH]; cbn [App.assign App.lookup].
  - rewrite (String.eqb_sym name g). reflexivity.
  - destruct (String.eqb_spec k name) as [Ek | Ek]; cbn [App.lookup].
    + rewrite Ek. now destruct (String.eqb name g) eqn:E;
        rewrite (String.eqb_sym g name), E.
    + rewrite IH. destruct (String.eqb_spec k g) as [Eg | Eg]; [|reflexivity].
      destruct (String.eqb_spec g name) as [En | En]; [congruence|reflexivity].
Qed.

Lemma deliverAll_app name t1 t2 app :
  App.deliverAll name (t1 ++ t2) app = App.deliverAll name t2 (App.deliverAll name t1 app).
Proof. apply fold_left_app. Qed.

Lemma deliverAll_saves name t : forall app,
  App.deliverAll name t app = App.deliverAll name (filter isSave t) app.
Proof.
  induction t as [|a t IH]; intros app; [reflexivity|].
  destruct a; cbn [filter isSave App.deliverAll fold_left App.deliver]; apply IH.
Qed.

Lemma deliverAll_other name g t : forall app,
  String.eqb g name = false ->
  App.lookup g (App.storedProgress (App.deliverAll name t app))
  = App.lookup g (App.storedProgress app).
Proof.
  induction t as [|a t IH]; intros app Hg; [reflexivity|].
  cbn [App.deliverAll fold_left]. fold (App.deliverAll name t (App.deliver name app a)).
  rewrite IH by exact Hg. destruct a; try reflexivity.
  cbn [App.deliver App.saveProgress App.storedProgress].
  now rewrite lookup_assign, Hg.
Qed.

(** X29. Saving progress for a file stores the entry under the file's name
    and leaves every other file's entry as it was, marks the file as the
    last one played, and writes the whole store to the local storage, from
    which a newly mounted application restores it. *)
Theorem saveProgress_stores_and_persists (fileName : string) (chunkIndex : Z)
  (settings : ReaderSettings) (app : App.AppState) (other : string) :
  let app' := App.saveProgress fileName chunkIndex settings app in
  App.lookup other (App.storedProgress app')
  = (if String.eqb other fileName
     then Some (App.mkStoredProgress fileName chunkIndex settings)
     else App.lookup other (App.storedProgress app)) /\
  App.lastPlayedFile app' = Some fileName /\
  App.storedProgress (App.appMount (App.localStorage app')) = App.storedProgress app' /\
  App.initialSettings fileName app' = settings /\
  App.initialChunkIndex fileName app' = chunkIndex.
Proof.
  cbv zeta. unfold App.saveProgress, App.initialSettings, App.initialChunkIndex.
  cbn [App.storedProgress App.lastPlayedFile App.localStorage App.appMount].
  rewrite !lookup_assign, String.eqb_refl. cbn [App.settings App.chunkIndex].
  repeat (split; [reflexivity|]).
  destruct (chunkIndex =? 0)%Z eqn:E; [|reflexivity]. apply Z.eqb_eq in E. now subst.
Qed.

(** X30. Every reading session is recorded and resumed: whatever events a
    reader opened from the application goes through, as long as each of them
    has a result in this model (no settings form whose changed group size 0
    makes the index leave the integers), it has called [onSaveProgress] at
    least once; once these calls are delivered, the store holds for that
    file the index and settings of the last call (other files' entries are
    as before), the file is the last one played, and opening the file again
    mounts the reader with exactly that index and those settings (to which
    the mount applies its voice selection and its index clamp). *)
Theorem session_is_recorded_and_resumed (name : string) (content : jsstring)
  (app : App.AppState) (vs vs' : list WebSpeech.Voice) (evs : list Event)
  (other : string)
  (Hdefined : runDefined evs (App.openReader name content app vs) = true) :
  let r := run evs (App.openReader name content app vs) in
  let app' := App.deliverAll name (trace r) app in
  exists earlier i st,
    saves r = earlier ++ [ASave i st] /\
    App.lookup other (App.storedProgress app')
    = (if String.eqb other name then Some (App.mkStoredProgress name i st)
       else App.lookup other (App.storedProgress app)) /\
    App.lastPlayedFile app' = Some name /\
    App.localStorage app' = Some (App.storedProgress app') /\
    App.openReader name content app' vs' = mount content st i vs'.
Proof.
  cbv zeta. set (r := run evs (App.openReader name content app vs)).
  assert (Hne : saves r <> []).
  { destruct (@extends_saves (App.openReader name content app vs) r
                (@run_extends evs (App.openReader name content app vs)))
      as [tail Ht].
    intros E. rewrite E in Ht. symmetry in Ht. apply app_eq_nil in Ht.
    destruct Ht as [Ht _]. revert Ht. apply mount_saves. }
  destruct (@saves_last r Hne) as (earlier & i & st & E).
  exists earlier, i, st. split; [exact E|].
  rewrite deliverAll_saves. fold (saves r). rewrite E, deliverAll_app.
  cbn [App.deliverAll fold_left App.deliver].
  fold (App.deliverAll name earlier app).
  set (app0 := App.deliverAll name earlier app).
  unfold App.openReader, App.initialSettings, App.initialChunkIndex, App.saveProgress.
  cbn [App.storedProgress App.lastPlayedFile App.localStorage].
  rewrite !lookup_assign, String.eqb_refl. cbn [App.settings App.chunkIndex].
  split.
  - destruct (String.eqb other name) eqn:Eo; [reflexivity|].
    now apply deliverAll_other.
  - repeat (split; [reflexivity|]).
    destruct (i =? 0)%Z eqn:Ei; [|reflexivity]. apply Z.eqb_eq in Ei. now subst.
Qed.

(** The events without a result: a settings form whose group size is 0 and
    differs from the current one. *)
Lemma defined_false_iff ev r :
  defined ev r = false
  <-> exists temp, ev = SaveSettings temp /\
                   sentencesPerChunk temp = 0%Z /\
                   sentencesPerChunk (settings r) <> 0%Z.
Proof.
  split.
  - destruct ev; try discriminate. cbn [defined].
    unfold handleSaveSettings, floorDiv. cbv zeta. intros H.
    destruct (sentencesPerChunk tempSettings =? sentencesPerChunk (settings r))%Z eqn:E1;
      cbn [negb] in H; [discriminate|].
    destruct (sentencesPerChunk tempSettings =? 0)%Z eqn:E2; [|discriminate].
    apply Z.eqb_eq in E2. apply Z.eqb_neq in E1.
    exists tempSettings. repeat split; [exact E2|congruence].
  - intros (temp & -> & H0 & Hne). cbn [defined].
    unfold handleSaveSettings, floorDiv. cbv zeta. rewrite H0.
    replace (0 =? sentencesPerChunk (settings r))%Z with false
      by (symmetry; apply Z.eqb_neq; congruence).
    reflexivity.
Qed.

(** X30 on a first session with the three-chunk sample: play, then next. *)
Lemma session_witness :
  runDefined [PlayPause; Navigate 1]
    (App.openReader "a.txt" (of_string "aaa. bbb. ccc.") (App.appMount None) []) = true /\
  exists earlier i st,
    saves (run [PlayPause; Navigate 1]
             (App.openReader "a.txt" (of_string "aaa. bbb. ccc.") (App.appMount None) []))
    = earlier ++ [ASave i st] /\
    App.openReader "a.txt" (of_string "aaa. bbb. ccc.")
      (App.deliverAll "a.txt"
         (trace (run [PlayPause; Navigate 1]
                   (App.openReader "a.txt" (of_string "aaa. bbb. ccc.")
                      (App.appMount None) [])))
         (App.appMount None)) []
    = mount (of_string "aaa. bbb. ccc.") st i [].
Proof.
  assert (H : runDefined [PlayPause; Navigate 1]
                (App.openReader "a.txt" (of_string "aaa. bbb. ccc.")
                   (App.appMount None) []) = true) by (vm_compute; reflexivity).
  split; [exact H|].
  destruct (@session_is_recorded_and_resumed "a.txt" (of_string "aaa. bbb. ccc.")
              (App.appMount None) [] [] [PlayPause; Navigate 1] "a.txt" H)
    as (earlier & i & st & E & _ & _ & _ & Hopen).
  exists earlier, i, st. split; [exact E | exact Hopen].
Defined.

End AppFacts.
